(** * The per-worker evacuation state of G1: [G1ParScanThreadState]

    A shallow embedding of
    [hotspot/src/share/vm/gc/g1/g1ParScanThreadState.cpp] and the properties
    its design document states about it.

    Machine words and pointers are integers ([Z]); [NULL] is [0].  The shared
    heap is passed explicitly next to the worker's own state, and every
    member function returns the states it leaves behind.  Calls that leave
    the file (the PLAB allocator, the field scanner, the reference
    dispatcher) go through type classes; each worker additionally keeps a
    ghost [trace] of the calls it makes, in program order. *)

From Stdlib Require Import ZArith Lia Bool List.
From Stdlib Require Import SpecFloat.
From Stdlib Require Ascii String.
From stdpp Require Import base option list gmap.

Open Scope Z_scope.

(** ** Pointers *)

Definition NULL : Z := 0.

(** ** The object header: [markOop] *)

(** Modelled from the spec: the header is per-object metadata encoding an
    age, the lock/sync state, or a forwarding marker; oops/markOop.hpp is not
    among the sources.  The word is laid out as HotSpot's 64-bit mark word:
    two lock bits, one biased-lock bit, then [age_bits] age bits.  Lock bits
    [11] make the word a forwarding marker whose remaining bits are the
    target, lock bits [x0] mean the true header is displaced into the lock
    record or monitor the word points to. *)
Module markOopDesc.

Definition age_bits : Z := 4.
Definition lock_bits : Z := 2.
Definition biased_lock_bits : Z := 1.

Definition lock_shift : Z := 0.
Definition age_shift : Z := lock_bits + biased_lock_bits.

Definition lock_mask : Z := Z.ones lock_bits.
Definition lock_mask_in_place : Z := Z.shiftl lock_mask lock_shift.
Definition age_mask : Z := Z.ones age_bits.
Definition age_mask_in_place : Z := Z.shiftl age_mask age_shift.

Definition unlocked_value : Z := 1.
Definition marked_value : Z := 3.

Definition max_age : Z := age_mask.

Definition age (m : Z) : Z := Z.land (Z.shiftr m age_shift) age_mask.

Definition set_age (m v : Z) : Z :=
  Z.lor (Z.ldiff m age_mask_in_place)
        (Z.shiftl (Z.land v age_mask) age_shift).

Definition has_displaced_mark_helper (m : Z) : bool :=
  Z.land m unlocked_value =? 0.

Definition is_marked (m : Z) : bool :=
  Z.land m lock_mask_in_place =? marked_value.

Definition clear_lock_bits (m : Z) : Z := Z.ldiff m lock_mask_in_place.

Definition decode_pointer (m : Z) : Z := clear_lock_bits m.

Definition set_marked (m : Z) : Z :=
  Z.lor (Z.ldiff m lock_mask_in_place) marked_value.

Definition encode_pointer_as_mark (p : Z) : Z := set_marked p.

End markOopDesc.

(** ** Collection-set states *)

(** The three states [_dest] is configured for in the constructor. *)
Inductive InCSetState : Type :=
| NotInCSet
| Young
| Old.

Global Instance InCSetState_eq_dec : EqDecision InCSetState.
Proof. solve_decision. Defined.

Global Instance InCSetState_inhabited : Inhabited InCSetState :=
  populate NotInCSet.

Module InCSet.

(** The enumerator's value, which indexes [_dest]. *)
Definition value (s : InCSetState) : nat :=
  match s with NotInCSet => 0%nat | Young => 1%nat | Old => 2%nat end.

Definition Num : nat := 3%nat.

Definition is_young (s : InCSetState) : bool :=
  match s with Young => true | _ => false end.

Definition is_old (s : InCSetState) : bool :=
  match s with Old => true | _ => false end.

End InCSet.

(** ** Tasks on the work queue *)

(** Modelled from the spec: a task is a tagged value referring to a
    reference-holding slot; the tag distinguishes the representation width
    and carries the deferred-array-chunk flag (taskqueue.hpp and the masking
    helpers of g1ParScanThreadState.hpp are not among the sources). *)
Inductive StarTask : Type :=
| NarrowRef (p : Z)
| WideRef (p : Z)
| PartialArray (from_obj : Z).

Global Instance StarTask_eq_dec : EqDecision StarTask.
Proof. solve_decision. Defined.

Definition set_partial_array_mask (obj : Z) : StarTask := PartialArray obj.

Definition has_partial_array_mask (t : StarTask) : bool :=
  match t with PartialArray _ => true | _ => false end.

(** Modelled from the spec: the work queue has a bounded local part and an
    unbounded overflow part; [push] places a task by the local capacity, each
    [pop] fails when its part is empty, and [is_empty] holds only when both
    are drained. *)
Record RefToScanQueue : Type := mkQueue {
  q_local : list StarTask;
  q_overflow : list StarTask;
  q_capacity : nat
}.

Global Instance RefToScanQueue_eq_dec : EqDecision RefToScanQueue.
Proof. solve_decision. Defined.

Module Queue.

Definition push (t : StarTask) (q : RefToScanQueue) : RefToScanQueue :=
  if (length (q_local q) <? q_capacity q)%nat
  then mkQueue (t :: q_local q) (q_overflow q) (q_capacity q)
  else mkQueue (q_local q) (t :: q_overflow q) (q_capacity q).

Definition pop_overflow (q : RefToScanQueue) : option (StarTask * RefToScanQueue) :=
  match q_overflow q with
  | [] => None
  | t :: rest => Some (t, mkQueue (q_local q) rest (q_capacity q))
  end.

Definition pop_local (q : RefToScanQueue) : option (StarTask * RefToScanQueue) :=
  match q_local q with
  | [] => None
  | t :: rest => Some (t, mkQueue rest (q_overflow q) (q_capacity q))
  end.

Definition is_empty (q : RefToScanQueue) : bool :=
  match q_local q, q_overflow q with
  | [], [] => true
  | _, _ => false
  end.

End Queue.

(** ** Objects, regions and the shared heap *)

Record oopDesc : Type := mkOop {
  o_mark : Z;            (* the header word *)
  o_is_objArray : bool;  (* klass()->oop_is_objArray() *)
  o_length : Z;          (* the length field of an array *)
  o_size : Z             (* size in heap words *)
}.

Global Instance oopDesc_inhabited : Inhabited oopDesc :=
  populate (mkOop 0 false 0 0).

Record HeapRegion : Type := mkRegion {
  r_young_index_in_cset : Z;   (* -1 for a region that is not young *)
  r_is_young : bool;
  r_allocation_context : Z;
  r_evacuation_failed : bool
}.

Global Instance HeapRegion_inhabited : Inhabited HeapRegion :=
  populate (mkRegion (-1) false 0 false).

(** Modelled from the spec: the heap is an external collaborator
    (g1CollectedHeap.hpp is not among the sources).  This record holds the
    part of [G1CollectedHeap] and of the object memory the worker touches.
    Regions are found from an address by its high bits. *)
Record G1CollectedHeap : Type := mkHeap {
  h_objects : gmap Z oopDesc;
  h_displaced : gmap Z Z;        (* displaced headers, by the header word that points to them *)
  h_regions : gmap Z HeapRegion;
  h_LogOfHRGrainBytes : Z;
  h_preserved_marks : list (Z * Z * Z);   (* (worker, object, header) *)
  h_hr_printer : list Z;                   (* regions reported by evac_failure *)
  h_dedup_queue : list (bool * bool * Z * Z);
  (* build flavour and flags *)
  h_PRODUCT : bool;
  h_evacuation_should_fail : bool;
  h_G1StringDedup_is_enabled : bool;
  h_ParGCArrayScanChunk : Z
}.

Module Heap.

Definition set_objects (f : gmap Z oopDesc -> gmap Z oopDesc) (h : G1CollectedHeap) :=
  mkHeap (f (h_objects h)) (h_displaced h) (h_regions h) (h_LogOfHRGrainBytes h)
         (h_preserved_marks h) (h_hr_printer h) (h_dedup_queue h)
         (h_PRODUCT h) (h_evacuation_should_fail h)
         (h_G1StringDedup_is_enabled h) (h_ParGCArrayScanChunk h).

Definition set_displaced (f : gmap Z Z -> gmap Z Z) (h : G1CollectedHeap) :=
  mkHeap (h_objects h) (f (h_displaced h)) (h_regions h) (h_LogOfHRGrainBytes h)
         (h_preserved_marks h) (h_hr_printer h) (h_dedup_queue h)
         (h_PRODUCT h) (h_evacuation_should_fail h)
         (h_G1StringDedup_is_enabled h) (h_ParGCArrayScanChunk h).

Definition set_regions (f : gmap Z HeapRegion -> gmap Z HeapRegion) (h : G1CollectedHeap) :=
  mkHeap (h_objects h) (h_displaced h) (f (h_regions h)) (h_LogOfHRGrainBytes h)
         (h_preserved_marks h) (h_hr_printer h) (h_dedup_queue h)
         (h_PRODUCT h) (h_evacuation_should_fail h)
         (h_G1StringDedup_is_enabled h) (h_ParGCArrayScanChunk h).

Definition set_preserved_marks (f : list (Z * Z * Z) -> list (Z * Z * Z)) (h : G1CollectedHeap) :=
  mkHeap (h_objects h) (h_displaced h) (h_regions h) (h_LogOfHRGrainBytes h)
         (f (h_preserved_marks h)) (h_hr_printer h) (h_dedup_queue h)
         (h_PRODUCT h) (h_evacuation_should_fail h)
         (h_G1StringDedup_is_enabled h) (h_ParGCArrayScanChunk h).

Definition set_hr_printer (f : list Z -> list Z) (h : G1CollectedHeap) :=
  mkHeap (h_objects h) (h_displaced h) (h_regions h) (h_LogOfHRGrainBytes h)
         (h_preserved_marks h) (f (h_hr_printer h)) (h_dedup_queue h)
         (h_PRODUCT h) (h_evacuation_should_fail h)
         (h_G1StringDedup_is_enabled h) (h_ParGCArrayScanChunk h).

Definition set_dedup_queue
    (f : list (bool * bool * Z * Z) -> list (bool * bool * Z * Z)) (h : G1CollectedHeap) :=
  mkHeap (h_objects h) (h_displaced h) (h_regions h) (h_LogOfHRGrainBytes h)
         (h_preserved_marks h) (h_hr_printer h) (f (h_dedup_queue h))
         (h_PRODUCT h) (h_evacuation_should_fail h)
         (h_G1StringDedup_is_enabled h) (h_ParGCArrayScanChunk h).

(** [oop(p)]: the object at [p]. *)
Definition obj (h : G1CollectedHeap) (p : Z) : oopDesc := h_objects h !!! p.

(** [p->mark()] and [p->set_mark(m)]. *)
Definition mark (h : G1CollectedHeap) (p : Z) : Z := o_mark (obj h p).

Definition set_mark (p m : Z) (h : G1CollectedHeap) : G1CollectedHeap :=
  set_objects
    (fun os => let o := os !!! p in
               <[p := mkOop m (o_is_objArray o) (o_length o) (o_size o)]> os) h.

(** [arrayOop(p)->set_length(n)]. *)
Definition set_length (p n : Z) (h : G1CollectedHeap) : G1CollectedHeap :=
  set_objects
    (fun os => let o := os !!! p in
               <[p := mkOop (o_mark o) (o_is_objArray o) n (o_size o)]> os) h.

(** [Copy::aligned_disjoint_words(from, to, word_sz)] on an object: the
    whole object, header word included, lands at [to]. *)
Definition copy_words (from to : Z) (h : G1CollectedHeap) : G1CollectedHeap :=
  set_objects (fun os => <[to := os !!! from]> os) h.

(** [m->displaced_mark_helper()] and [m->set_displaced_mark_helper(n)]:
    the header kept by the lock record or monitor that [m] points to. *)
Definition displaced_mark_helper (h : G1CollectedHeap) (m : Z) : Z :=
  h_displaced h !!! m.

Definition set_displaced_mark_helper (m n : Z) (h : G1CollectedHeap) : G1CollectedHeap :=
  set_displaced (fun d => <[m := n]> d) h.

(** [heap_region_containing_raw(p)], as a region index. *)
Definition heap_region_containing_raw (h : G1CollectedHeap) (p : Z) : Z :=
  Z.shiftr p (h_LogOfHRGrainBytes h).

Definition heap_region_containing (h : G1CollectedHeap) (p : Z) : Z :=
  heap_region_containing_raw h p.

Definition region (h : G1CollectedHeap) (r : Z) : HeapRegion := h_regions h !!! r.

Definition set_evacuation_failed (r : Z) (b : bool) (h : G1CollectedHeap) : G1CollectedHeap :=
  set_regions
    (fun rs => let hr := rs !!! r in
               <[r := mkRegion (r_young_index_in_cset hr) (r_is_young hr)
                               (r_allocation_context hr) b]> rs) h.

(** Modelled from the spec: claiming an object is a single atomic
    compare-and-swap on its header (oop.inline.hpp is not among the
    sources).  [old->forward_to_atomic(p)] installs the forwarding marker
    for [p] and answers [NULL] when the header is not yet a forwarding
    marker; otherwise it leaves the header alone and answers the target
    already installed. *)
Definition forward_to_atomic (old p : Z) (h : G1CollectedHeap) : Z * G1CollectedHeap :=
  let oldMark := mark h old in
  if markOopDesc.is_marked oldMark
  then (markOopDesc.decode_pointer oldMark, h)
  else (NULL, set_mark old (markOopDesc.encode_pointer_as_mark p) h).

(** The age of a header as the evacuation code reads it. *)
Definition age_of_mark (h : G1CollectedHeap) (m : Z) : Z :=
  if negb (markOopDesc.has_displaced_mark_helper m)
  then markOopDesc.age m
  else markOopDesc.age (displaced_mark_helper h m).

End Heap.

(** ** Calls the worker makes, in program order (ghost state) *)

Inductive event : Type :=
| ev_plab_allocate (dest : InCSetState) (word_sz context result : Z)
| ev_allocate_direct_or_new_plab (dest : InCSetState) (word_sz context result : Z)
| ev_allocate (dest : InCSetState) (word_sz context result : Z)
| ev_undo_allocation (dest : InCSetState) (obj_ptr word_sz context : Z)
| ev_allocate_in_next_plab (state dest : InCSetState) (word_sz context result : Z)
| ev_handle_evacuation_failure_par (old m : Z)
| ev_prefetch_write (obj_ptr : Z)
| ev_forward_to_atomic (old target result : Z)
| ev_copy_words (from to word_sz : Z)
| ev_set_mark (obj m : Z)
| ev_oop_iterate_backwards (region obj : Z).

Global Instance event_eq_dec : EqDecision event.
Proof. solve_decision. Defined.

Definition is_scan (e : event) : bool :=
  match e with ev_oop_iterate_backwards _ _ => true | _ => false end.

Definition is_copy (e : event) : bool :=
  match e with ev_copy_words _ _ _ => true | _ => false end.

Definition is_set_mark (e : event) : bool :=
  match e with ev_set_mark _ _ => true | _ => false end.

(** The steps [copy_to_survivor_space] takes to find memory: its three
    allocation attempts and the hand-over to the evacuation-failure handler.
    ([ev_allocate] is the allocator call made inside
    [allocate_in_next_plab].) *)
Definition is_allocation_step (e : event) : bool :=
  match e with
  | ev_plab_allocate _ _ _ _
  | ev_allocate_direct_or_new_plab _ _ _ _
  | ev_allocate_in_next_plab _ _ _ _ _
  | ev_handle_evacuation_failure_par _ _ => true
  | _ => false
  end.

(** The memory the allocator was last asked for, and its answer. *)
Definition allocator_answer (e : event) : option (InCSetState * Z * Z * Z) :=
  match e with
  | ev_plab_allocate d sz c r
  | ev_allocate_direct_or_new_plab d sz c r
  | ev_allocate d sz c r => Some (d, sz, c, r)
  | _ => None
  end.

Fixpoint last_allocation (evs : list event) : option (InCSetState * Z * Z * Z) :=
  match evs with
  | [] => None
  | e :: rest =>
    match last_allocation rest with
    | Some x => Some x
    | None => allocator_answer e
    end
  end.

(** ** Collaborators *)

(** [G1PLABAllocator] is an abstract class; the worker only sees this
    interface (g1Allocator.hpp is not among the sources).  A pointer result
    of [NULL] means no memory. *)
Class G1PLABAllocator (A : Type) : Type := {
  plab_allocate : A -> InCSetState -> Z -> Z -> Z * A;
  allocate_direct_or_new_plab : A -> InCSetState -> Z -> Z -> Z * A;
  allocate : A -> InCSetState -> Z -> Z -> Z * A;
  undo_allocation : A -> InCSetState -> Z -> Z -> Z -> A;
  waste : A -> Z * Z;
  retire_alloc_buffers : A -> A
}.

(** The field-scan closure [_scanner]: applied to an object of a region it
    discovers the references to follow, which it pushes on the worker's
    queue (g1OopClosures.hpp is not among the sources). *)
Class G1ParScanClosure : Type := {
  discovered_refs : G1CollectedHeap -> Z -> Z -> list StarTask
}.

(** ** The worker state *)

Record G1ParScanThreadState (A : Type) : Type := mkPSS {
  _refs : RefToScanQueue;
  _worker_id : Z;
  _term_attempts : Z;
  _tenuring_threshold : Z;
  _age_table : list Z;                 (* ageTable::sizes *)
  _surviving_young_words : list Z;     (* past the padding *)
  _plab_allocator : A;
  _dest : list InCSetState;            (* indexed by InCSetState::value() *)
  _start : spec_float;
  _strong_roots_time : spec_float;
  _term_time : spec_float;
  trace : list event
}.

Arguments mkPSS {A}.
Arguments _refs {A}.
Arguments _worker_id {A}.
Arguments _term_attempts {A}.
Arguments _tenuring_threshold {A}.
Arguments _age_table {A}.
Arguments _surviving_young_words {A}.
Arguments _plab_allocator {A}.
Arguments _dest {A}.
Arguments _start {A}.
Arguments _strong_roots_time {A}.
Arguments _term_time {A}.
Arguments trace {A}.

Definition size_t_max : Z := 2 ^ 64.

(** Addition on [size_t]. *)
Definition size_t_add (x y : Z) : Z := (x + y) mod size_t_max.

Section Worker.

Context {A : Type} {PA : G1PLABAllocator A} {SC : G1ParScanClosure}.

Abbreviation PSS := (G1ParScanThreadState A).

Definition set_refs (q : RefToScanQueue) (p : PSS) : PSS :=
  mkPSS q (_worker_id p) (_term_attempts p) (_tenuring_threshold p)
        (_age_table p) (_surviving_young_words p) (_plab_allocator p)
        (_dest p) (_start p) (_strong_roots_time p) (_term_time p) (trace p).

Definition set_tenuring_threshold (t : Z) (p : PSS) : PSS :=
  mkPSS (_refs p) (_worker_id p) (_term_attempts p) t
        (_age_table p) (_surviving_young_words p) (_plab_allocator p)
        (_dest p) (_start p) (_strong_roots_time p) (_term_time p) (trace p).

Definition set_age_table (t : list Z) (p : PSS) : PSS :=
  mkPSS (_refs p) (_worker_id p) (_term_attempts p) (_tenuring_threshold p)
        t (_surviving_young_words p) (_plab_allocator p)
        (_dest p) (_start p) (_strong_roots_time p) (_term_time p) (trace p).

Definition set_surviving_young_words (w : list Z) (p : PSS) : PSS :=
  mkPSS (_refs p) (_worker_id p) (_term_attempts p) (_tenuring_threshold p)
        (_age_table p) w (_plab_allocator p)
        (_dest p) (_start p) (_strong_roots_time p) (_term_time p) (trace p).

Definition set_plab_allocator (a : A) (p : PSS) : PSS :=
  mkPSS (_refs p) (_worker_id p) (_term_attempts p) (_tenuring_threshold p)
        (_age_table p) (_surviving_young_words p) a
        (_dest p) (_start p) (_strong_roots_time p) (_term_time p) (trace p).

Definition set_dest (d : list InCSetState) (p : PSS) : PSS :=
  mkPSS (_refs p) (_worker_id p) (_term_attempts p) (_tenuring_threshold p)
        (_age_table p) (_surviving_young_words p) (_plab_allocator p)
        d (_start p) (_strong_roots_time p) (_term_time p) (trace p).

Definition emit (e : event) (p : PSS) : PSS :=
  mkPSS (_refs p) (_worker_id p) (_term_attempts p) (_tenuring_threshold p)
        (_age_table p) (_surviving_young_words p) (_plab_allocator p)
        (_dest p) (_start p) (_strong_roots_time p) (_term_time p)
        (trace p ++ [e]).

(** *** Construction *)

(** [G1ParScanThreadState::G1ParScanThreadState] (lines 34-71): the queue,
    the tenuring threshold, the length of the young part of the collection
    set, the allocator and the clock come from the heap. *)
Definition G1ParScanThreadState_new
    (refs : RefToScanQueue) (worker_id tenuring_threshold : Z)
    (young_cset_region_length : nat)
    (plab_allocator : A) (now : spec_float) : PSS :=
  let real_length := (1 + young_cset_region_length)%nat in
  let table_size := Z.to_nat (markOopDesc.max_age + 1) in
  let p :=
    mkPSS refs worker_id 0 tenuring_threshold
          (replicate table_size 0) (replicate real_length 0)
          plab_allocator (replicate InCSet.Num NotInCSet)
          now (S754_zero false) (S754_zero false) [] in
  let p := set_dest (<[InCSet.value NotInCSet := NotInCSet]> (_dest p)) p in
  let p := set_dest (<[InCSet.value Young := Old]> (_dest p)) p in
  let p := set_dest (<[InCSet.value Old := Old]> (_dest p)) p in
  p.

(** [G1ParScanThreadState::~G1ParScanThreadState] (lines 73-77): what is
    left is the allocator with its buffers retired. *)
Definition G1ParScanThreadState_delete (p : PSS) : A :=
  retire_alloc_buffers (_plab_allocator p).

(** [dest(state)]: the entry of [_dest]. *)
Definition dest (p : PSS) (state : InCSetState) : InCSetState :=
  _dest p !!! InCSet.value state.

(** *** Calls to the allocator, recorded *)

Definition do_plab_allocate (d : InCSetState) (word_sz context : Z) (p : PSS) : Z * PSS :=
  let '(r, a) := plab_allocate (_plab_allocator p) d word_sz context in
  (r, emit (ev_plab_allocate d word_sz context r) (set_plab_allocator a p)).

Definition do_allocate_direct_or_new_plab
    (d : InCSetState) (word_sz context : Z) (p : PSS) : Z * PSS :=
  let '(r, a) := allocate_direct_or_new_plab (_plab_allocator p) d word_sz context in
  (r, emit (ev_allocate_direct_or_new_plab d word_sz context r) (set_plab_allocator a p)).

Definition do_allocate (d : InCSetState) (word_sz context : Z) (p : PSS) : Z * PSS :=
  let '(r, a) := allocate (_plab_allocator p) d word_sz context in
  (r, emit (ev_allocate d word_sz context r) (set_plab_allocator a p)).

Definition do_undo_allocation
    (d : InCSetState) (obj_ptr word_sz context : Z) (p : PSS) : PSS :=
  emit (ev_undo_allocation d obj_ptr word_sz context)
       (set_plab_allocator
          (undo_allocation (_plab_allocator p) d obj_ptr word_sz context) p).

(** *** The queue and the scanner *)

Definition push_on_queue (t : StarTask) (p : PSS) : PSS :=
  set_refs (Queue.push t (_refs p)) p.

(** [_scanner.set_region(r); obj->oop_iterate_backwards(&_scanner)]. *)
Definition scan_object (r obj : Z) (h : G1CollectedHeap) (p : PSS) : PSS :=
  fold_left (fun p t => push_on_queue t p) (discovered_refs h r obj)
            (emit (ev_oop_iterate_backwards r obj) p).

(** [age_table()->add(age, word_sz)]. *)
Definition age_table_add (age word_sz : Z) (p : PSS) : PSS :=
  let i := Z.to_nat age in
  set_age_table (<[i := size_t_add (_age_table p !!! i) word_sz]> (_age_table p)) p.

(** [surviving_young_words()[young_index] += word_sz]. *)
Definition add_surviving_young_words (young_index word_sz : Z) (p : PSS) : PSS :=
  let i := Z.to_nat young_index in
  set_surviving_young_words
    (<[i := size_t_add (_surviving_young_words p !!! i) word_sz]>
       (_surviving_young_words p)) p.

(** *** [allocate_in_next_plab] (lines 152-179) *)

(** The in-out parameter [dest] is returned next to the pointer. *)
Definition allocate_in_next_plab
    (state : InCSetState) (dest : InCSetState) (word_sz context : Z) (p : PSS)
    : Z * InCSetState * PSS :=
  if InCSet.is_young dest then
    let '(obj_ptr, p) := do_allocate Old word_sz context p in
    if obj_ptr =? NULL then
      (NULL, dest, emit (ev_allocate_in_next_plab state dest word_sz context NULL) p)
    else
      let p := set_tenuring_threshold 0 p in
      (obj_ptr, Old, emit (ev_allocate_in_next_plab state dest word_sz context obj_ptr) p)
  else
    (NULL, dest, emit (ev_allocate_in_next_plab state dest word_sz context NULL) p).

(** *** [next_state] (lines 181-190) *)

(** The reference parameter [age] is passed in and returned. *)
Definition next_state
    (p : PSS) (h : G1CollectedHeap) (state : InCSetState) (m : Z) (age : Z)
    : InCSetState * Z :=
  if InCSet.is_young state then
    let age :=
      if negb (markOopDesc.has_displaced_mark_helper m)
      then markOopDesc.age m
      else markOopDesc.age (Heap.displaced_mark_helper h m) in
    if age <? _tenuring_threshold p then (state, age)
    else (dest p state, age)
  else (dest p state, age).

(** *** [handle_evacuation_failure_par] (lines 296-326) *)

(** Modelled from the spec: [preserve_mark_during_evac_failure] keeps the
    header in a side table keyed by (worker, object), and the region
    printer is the diagnostic hook of the first flagger
    (g1CollectedHeap.hpp is not among the sources). *)
Definition preserve_mark_during_evac_failure
    (worker_id old m : Z) (h : G1CollectedHeap) : G1CollectedHeap :=
  Heap.set_preserved_marks (fun l => l ++ [(worker_id, old, m)]) h.

Definition hr_printer_evac_failure (r : Z) (h : G1CollectedHeap) : G1CollectedHeap :=
  Heap.set_hr_printer (fun l => l ++ [r]) h.

Definition handle_evacuation_failure_par
    (old m : Z) (h : G1CollectedHeap) (p : PSS) : Z * G1CollectedHeap * PSS :=
  let p := emit (ev_handle_evacuation_failure_par old m) p in
  let '(forward_ptr, h) := Heap.forward_to_atomic old old h in
  let p := emit (ev_forward_to_atomic old old forward_ptr) p in
  if forward_ptr =? NULL then
    let r := Heap.heap_region_containing h old in
    let h :=
      if negb (r_evacuation_failed (Heap.region h r))
      then hr_printer_evac_failure r (Heap.set_evacuation_failed r true h)
      else h in
    let h := preserve_mark_during_evac_failure (_worker_id p) old m h in
    let p := scan_object r old h p in
    (old, h, p)
  else
    (forward_ptr, h, p).

(** *** [copy_to_survivor_space] (lines 192-294) *)

(** Modelled from the spec: the deduplication collaborator is notified
    with (source-was-young, dest-is-young, worker-id, destination)
    (g1StringDedup.hpp is not among the sources). *)
Definition enqueue_from_evacuation
    (is_from_young is_to_young : bool) (worker_id obj : Z)
    (h : G1CollectedHeap) : G1CollectedHeap :=
  Heap.set_dedup_queue
    (fun l => l ++ [(is_from_young, is_to_young, worker_id, obj)]) h.

(** Lines 240-289: this worker installed the forwarding marker. *)
Definition copy_forwarded
    (state : InCSetState) (old old_mark word_sz young_index age : Z)
    (dest_state : InCSetState) (obj_ptr : Z)
    (h : G1CollectedHeap) (p : PSS) : Z * G1CollectedHeap * PSS :=
  let obj := obj_ptr in
  let h := Heap.copy_words old obj_ptr h in
  let p := emit (ev_copy_words old obj_ptr word_sz) p in
  let '(h, p) :=
    if InCSet.is_young dest_state then
      let age := if age <? markOopDesc.max_age then age + 1 else age in
      let '(h, p) :=
        if markOopDesc.has_displaced_mark_helper old_mark then
          let h := Heap.set_mark obj old_mark h in
          let p := emit (ev_set_mark obj old_mark) p in
          let new_mark :=
            markOopDesc.set_age (Heap.displaced_mark_helper h old_mark) age in
          (Heap.set_displaced_mark_helper old_mark new_mark h, p)
        else
          (Heap.set_mark obj (markOopDesc.set_age old_mark age) h,
           emit (ev_set_mark obj (markOopDesc.set_age old_mark age)) p) in
      (h, age_table_add age word_sz p)
    else
      (Heap.set_mark obj old_mark h, emit (ev_set_mark obj old_mark) p) in
  let h :=
    if h_G1StringDedup_is_enabled h then
      let is_from_young := InCSet.is_young state in
      let is_to_young := InCSet.is_young dest_state in
      enqueue_from_evacuation is_from_young is_to_young (_worker_id p) obj h
    else h in
  let p := add_surviving_young_words young_index word_sz p in
  if o_is_objArray (Heap.obj h obj)
     && (h_ParGCArrayScanChunk h <=? o_length (Heap.obj h obj)) then
    let h := Heap.set_length obj 0 h in
    let old_p := set_partial_array_mask old in
    let p := push_on_queue old_p p in
    (obj, h, p)
  else
    let to_region := Heap.heap_region_containing_raw h obj_ptr in
    let p := scan_object to_region obj h p in
    (obj, h, p).

(** Lines 221-293: memory was found at [obj_ptr]. *)
Definition copy_allocated
    (state : InCSetState) (old old_mark word_sz young_index context age : Z)
    (dest_state : InCSetState) (obj_ptr : Z)
    (h : G1CollectedHeap) (p : PSS) : Z * G1CollectedHeap * PSS :=
  if negb (h_PRODUCT h) && h_evacuation_should_fail h then
    let p := do_undo_allocation dest_state obj_ptr word_sz context p in
    handle_evacuation_failure_par old old_mark h p
  else
    let p := emit (ev_prefetch_write obj_ptr) p in
    let obj := obj_ptr in
    let '(forward_ptr, h) := Heap.forward_to_atomic old obj h in
    let p := emit (ev_forward_to_atomic old obj forward_ptr) p in
    if forward_ptr =? NULL then
      copy_forwarded state old old_mark word_sz young_index age
                     dest_state obj_ptr h p
    else
      let p := do_undo_allocation dest_state obj_ptr word_sz context p in
      (forward_ptr, h, p).

Definition copy_to_survivor_space
    (state : InCSetState) (old old_mark : Z)
    (h : G1CollectedHeap) (p : PSS) : Z * G1CollectedHeap * PSS :=
  let word_sz := o_size (Heap.obj h old) in
  let from_region := Heap.heap_region_containing_raw h old in
  let young_index := r_young_index_in_cset (Heap.region h from_region) + 1 in
  let context := r_allocation_context (Heap.region h from_region) in
  let age := 0 in
  let '(dest_state, age) := next_state p h state old_mark age in
  let '(obj_ptr, p) := do_plab_allocate dest_state word_sz context p in
  if obj_ptr =? NULL then
    let '(obj_ptr, p) := do_allocate_direct_or_new_plab dest_state word_sz context p in
    if obj_ptr =? NULL then
      let '(obj_ptr, dest_state, p) :=
        allocate_in_next_plab state dest_state word_sz context p in
      if obj_ptr =? NULL then
        handle_evacuation_failure_par old old_mark h p
      else
        copy_allocated state old old_mark word_sz young_index context age
                       dest_state obj_ptr h p
    else
      copy_allocated state old old_mark word_sz young_index context age
                     dest_state obj_ptr h p
  else
    copy_allocated state old old_mark word_sz young_index context age
                   dest_state obj_ptr h p.

End Worker.

(** ** [trim_queue] (lines 138-150) *)

(** [dispatch_reference] lives in g1ParScanThreadState.inline.hpp, which is
    not among the sources: it is a parameter.  It receives the state the pop
    left behind and may push further tasks. *)
Class ReferenceDispatcher (A : Type) : Type := {
  dispatch_reference :
    StarTask -> G1CollectedHeap -> G1ParScanThreadState A ->
    G1CollectedHeap * G1ParScanThreadState A
}.

Inductive queue_part : Type := Overflow | Local.

Definition pop_of (part : queue_part)
    : RefToScanQueue -> option (StarTask * RefToScanQueue) :=
  match part with
  | Overflow => Queue.pop_overflow
  | Local => Queue.pop_local
  end.

(** One pop, with the queue as it was just before it (ghost). *)
Record pop_record : Type := mkPop {
  pop_part : queue_part;
  pop_task : StarTask;
  pop_queue : RefToScanQueue
}.

Section Trim.

Context {A : Type} {RD : ReferenceDispatcher A}.

Abbreviation PSS := (G1ParScanThreadState A).

(** [while (_refs->pop(ref)) dispatch_reference(ref);] for one of the two
    pops.  The loops need not terminate for an arbitrary dispatcher, so
    they run on fuel; [None] is "out of fuel". *)
Fixpoint drain
    (pop : RefToScanQueue -> option (StarTask * RefToScanQueue))
    (part : queue_part) (fuel : nat) (h : G1CollectedHeap) (p : PSS)
    : option (list pop_record * G1CollectedHeap * PSS) :=
  match fuel with
  | O => None
  | S fuel =>
    match pop (_refs p) with
    | None => Some ([], h, p)
    | Some (ref, q) =>
      let '(h1, p1) := dispatch_reference ref h (set_refs q p) in
      match drain pop part fuel h1 p1 with
      | None => None
      | Some (log, h2, p2) => Some (mkPop part ref (_refs p) :: log, h2, p2)
      end
    end
  end.

(** The result carries, per round of the outer loop, the pops of the
    overflow loop and the pops of the local loop. *)
Fixpoint trim_queue (fuel : nat) (h : G1CollectedHeap) (p : PSS)
    : option (list (list pop_record * list pop_record) * G1CollectedHeap * PSS) :=
  match fuel with
  | O => None
  | S fuel =>
    match drain Queue.pop_overflow Overflow fuel h p with
    | None => None
    | Some (ovf, h1, p1) =>
      match drain Queue.pop_local Local fuel h1 p1 with
      | None => None
      | Some (loc, h2, p2) =>
        if negb (Queue.is_empty (_refs p2)) then
          match trim_queue fuel h2 p2 with
          | None => None
          | Some (rounds, h3, p3) => Some ((ovf, loc) :: rounds, h3, p3)
          end
        else Some ([(ovf, loc)], h2, p2)
      end
    end
  end.

(** Popping and dispatching again what a log records, in order: [Some]
    exactly when every record names the part's next task and the queue it
    was popped from. *)
Fixpoint replay (log : list pop_record) (h : G1CollectedHeap) (p : PSS)
    : option (G1CollectedHeap * PSS) :=
  match log with
  | [] => Some (h, p)
  | r :: rest =>
    match pop_of (pop_part r) (_refs p) with
    | None => None
    | Some (ref, q) =>
      if decide (ref = pop_task r /\ _refs p = pop_queue r) then
        let '(h1, p1) := dispatch_reference ref h (set_refs q p) in
        replay rest h1 p1
      else None
    end
  end.

(** A measure of the work left that every dispatch of a popped task
    decreases. *)
Definition dispatch_decreases (mu : G1CollectedHeap -> PSS -> nat) : Prop :=
  forall part ref q h p,
    pop_of part (_refs p) = Some (ref, q) ->
    (mu (fst (dispatch_reference ref h (set_refs q p)))
        (snd (dispatch_reference ref h (set_refs q p))) < mu h p)%nat.

(** The pops of all rounds, in order. *)
Definition all_pops (rounds : list (list pop_record * list pop_record))
    : list pop_record :=
  concat (map (fun r => fst r ++ snd r) rounds).

(** The rounds of a run of the outer loop: a round that leaves the queue
    empty is the last one, any other round is followed by further rounds. *)
Inductive trim_run :
    G1CollectedHeap -> PSS -> list (list pop_record * list pop_record) ->
    G1CollectedHeap -> PSS -> Prop :=
| trim_run_last h p ovf loc h' p' :
    replay (ovf ++ loc) h p = Some (h', p') ->
    Queue.is_empty (_refs p') = true ->
    trim_run h p [(ovf, loc)] h' p'
| trim_run_again h p ovf loc h1 p1 rounds h' p' :
    replay (ovf ++ loc) h p = Some (h1, p1) ->
    Queue.is_empty (_refs p1) = false ->
    trim_run h1 p1 rounds h' p' ->
    trim_run h p ((ovf, loc) :: rounds) h' p'.

(** A round pops the overflow part only, then the local part only, and the
    overflow part is empty when the local loop starts. *)
Definition round_ok (r : list pop_record * list pop_record) : Prop :=
  Forall (fun x => pop_part x = Overflow) (fst r)
  /\ Forall (fun x => pop_part x = Local) (snd r)
  /\ match snd r with
     | x :: _ => q_overflow (pop_queue x) = []
     | [] => True
     end.

End Trim.

(** ** [print_termination_stats] (lines 86-101) *)

(** C++ [double] is IEEE 754 binary64. *)
Definition double_mul : spec_float -> spec_float -> spec_float := SFmul 53 1024.
Definition double_div : spec_float -> spec_float -> spec_float := SFdiv 53 1024.
Definition double_sub : spec_float -> spec_float -> spec_float := SFsub 53 1024.

Definition double_of_Z (n : Z) : spec_float := binary_normalize 53 1024 n 0 false.

Definition d1000 : spec_float := Eval vm_compute in double_of_Z 1000.
Definition d100 : spec_float := Eval vm_compute in double_of_Z 100.

Definition is_zero (x : spec_float) : bool :=
  match x with S754_zero _ => true | _ => false end.

Definition is_finite (x : spec_float) : bool :=
  match x with S754_zero _ | S754_finite _ _ _ => true | _ => false end.

(** [0 < x] on doubles. *)
Definition is_positive (x : spec_float) : bool := SFltb (S754_zero false) x.

Definition sign_bit (x : spec_float) : bool :=
  match x with
  | S754_zero s | S754_infinity s | S754_finite s _ _ => s
  | S754_nan => false
  end.

(** [HeapWordSize] and [K] of globalDefinitions.hpp on a 64-bit VM. *)
Definition HeapWordSize : Z := 8.
Definition K : Z := 1024.

Definition size_t_mul (x y : Z) : Z := (x * y) mod size_t_max.

(** The arguments handed to [print_cr], in order. *)
Record termination_stats : Type := mkStats {
  st_worker_id : Z;
  st_elapsed_ms : spec_float;
  st_s_roots_ms : spec_float;
  st_s_roots_percent : spec_float;
  st_term_ms : spec_float;
  st_term_percent : spec_float;
  st_term_attempts : Z;
  st_total_waste : Z;
  st_alloc_buffer_waste : Z;
  st_undo_waste : Z
}.

Section Stats.

Context {A : Type} {PA : G1PLABAllocator A}.

(** [elapsed_time()] is [os::elapsedTime() - _start]; the clock reading is
    an input. *)
Definition elapsed_time (p : G1ParScanThreadState A) (now : spec_float) : spec_float :=
  double_sub now (_start p).

Definition print_termination_stats
    (p : G1ParScanThreadState A) (now : spec_float) : termination_stats :=
  let elapsed_ms := double_mul (elapsed_time p now) d1000 in
  let s_roots_ms := double_mul (_strong_roots_time p) d1000 in
  let term_ms := double_mul (_term_time p) d1000 in
  let '(alloc_buffer_waste, undo_waste) := waste (_plab_allocator p) in
  mkStats
    (_worker_id p) elapsed_ms s_roots_ms
    (double_div (double_mul s_roots_ms d100) elapsed_ms)
    term_ms
    (double_div (double_mul term_ms d100) elapsed_ms)
    (_term_attempts p)
    (size_t_mul (size_t_add alloc_buffer_waste undo_waste) HeapWordSize / K)
    (size_t_mul alloc_buffer_waste HeapWordSize / K)
    (size_t_mul undo_waste HeapWordSize / K).

End Stats.

(** ** Two workers on one object: an interleaving semantics *)

(** Between its reads of the heap and the end of [copy_to_survivor_space] a
    worker touches the shared header exactly once, in [forward_to_atomic].
    A call is cut there into three steps: [prepare] (the allocation chain,
    on the worker's own state), [claim] (the atomic header update) and
    [complete] (copy and scan, or undo).  Workers interleave step by step. *)

Record claim_request : Type := mkReq {
  cl_state : InCSetState;
  cl_old : Z;
  cl_old_mark : Z;
  cl_word_sz : Z;
  cl_young_index : Z;
  cl_context : Z;
  cl_age : Z;
  cl_dest_state : InCSetState;
  cl_target : Z;       (* the pointer to install: the new copy, or [old] itself *)
  cl_self : bool       (* inside [handle_evacuation_failure_par] *)
}.

Inductive worker_pc : Type :=
| pc_start (state : InCSetState) (old old_mark : Z)
| pc_prepared (req : claim_request)
| pc_claimed (req : claim_request) (forward_ptr : Z)
| pc_done (result : Z).

Section Race.

Context {A : Type} {PA : G1PLABAllocator A} {SC : G1ParScanClosure}.

Abbreviation PSS := (G1ParScanThreadState A).

Definition prepare_failed
    (state : InCSetState) (old old_mark word_sz young_index context age : Z)
    (dest_state : InCSetState) (p : PSS) : claim_request * PSS :=
  (mkReq state old old_mark word_sz young_index context age dest_state old true,
   emit (ev_handle_evacuation_failure_par old old_mark) p).

Definition prepare_allocated
    (state : InCSetState) (old old_mark word_sz young_index context age : Z)
    (dest_state : InCSetState) (obj_ptr : Z)
    (h : G1CollectedHeap) (p : PSS) : claim_request * PSS :=
  if negb (h_PRODUCT h) && h_evacuation_should_fail h then
    let p := do_undo_allocation dest_state obj_ptr word_sz context p in
    prepare_failed state old old_mark word_sz young_index context age dest_state p
  else
    (mkReq state old old_mark word_sz young_index context age dest_state obj_ptr false,
     emit (ev_prefetch_write obj_ptr) p).

Definition prepare
    (state : InCSetState) (old old_mark : Z)
    (h : G1CollectedHeap) (p : PSS) : claim_request * PSS :=
  let word_sz := o_size (Heap.obj h old) in
  let from_region := Heap.heap_region_containing_raw h old in
  let young_index := r_young_index_in_cset (Heap.region h from_region) + 1 in
  let context := r_allocation_context (Heap.region h from_region) in
  let age := 0 in
  let '(dest_state, age) := next_state p h state old_mark age in
  let '(obj_ptr, p) := do_plab_allocate dest_state word_sz context p in
  if obj_ptr =? NULL then
    let '(obj_ptr, p) := do_allocate_direct_or_new_plab dest_state word_sz context p in
    if obj_ptr =? NULL then
      let '(obj_ptr, dest_state, p) :=
        allocate_in_next_plab state dest_state word_sz context p in
      if obj_ptr =? NULL then
        prepare_failed state old old_mark word_sz young_index context age dest_state p
      else
        prepare_allocated state old old_mark word_sz young_index context age
                          dest_state obj_ptr h p
    else
      prepare_allocated state old old_mark word_sz young_index context age
                        dest_state obj_ptr h p
  else
    prepare_allocated state old old_mark word_sz young_index context age
                      dest_state obj_ptr h p.

Definition claim (req : claim_request) (h : G1CollectedHeap) : Z * G1CollectedHeap :=
  Heap.forward_to_atomic (cl_old req) (cl_target req) h.

Definition complete
    (req : claim_request) (forward_ptr : Z) (h : G1CollectedHeap) (p : PSS)
    : Z * G1CollectedHeap * PSS :=
  let old := cl_old req in
  let p := emit (ev_forward_to_atomic old (cl_target req) forward_ptr) p in
  if cl_self req then
    if forward_ptr =? NULL then
      let r := Heap.heap_region_containing h old in
      let h :=
        if negb (r_evacuation_failed (Heap.region h r))
        then hr_printer_evac_failure r (Heap.set_evacuation_failed r true h)
        else h in
      let h := preserve_mark_during_evac_failure (_worker_id p) old (cl_old_mark req) h in
      let p := scan_object r old h p in
      (old, h, p)
    else (forward_ptr, h, p)
  else
    if forward_ptr =? NULL then
      copy_forwarded (cl_state req) old (cl_old_mark req) (cl_word_sz req)
                     (cl_young_index req) (cl_age req) (cl_dest_state req)
                     (cl_target req) h p
    else
      let p :=
        do_undo_allocation (cl_dest_state req) (cl_target req)
                           (cl_word_sz req) (cl_context req) p in
      (forward_ptr, h, p).

Definition worker : Type := worker_pc * PSS.

Definition worker_step (h : G1CollectedHeap) (w : worker) : G1CollectedHeap * worker :=
  let '(pc, p) := w in
  match pc with
  | pc_start state old old_mark =>
    let '(req, p) := prepare state old old_mark h p in
    (h, (pc_prepared req, p))
  | pc_prepared req =>
    let '(forward_ptr, h) := claim req h in
    (h, (pc_claimed req forward_ptr, p))
  | pc_claimed req forward_ptr =>
    let '(result, h, p) := complete req forward_ptr h p in
    (h, (pc_done result, p))
  | pc_done result => (h, w)
  end.

Definition system : Type := G1CollectedHeap * worker * worker.

(** [true] schedules the first worker, [false] the second. *)
Definition system_step (first : bool) (s : system) : system :=
  let '(h, w1, w2) := s in
  if first
  then let '(h, w1) := worker_step h w1 in (h, w1, w2)
  else let '(h, w2) := worker_step h w2 in (h, w1, w2).

Definition run (schedule : list bool) (s : system) : system :=
  fold_left (fun s b => system_step b s) schedule s.

(** A pointer that may be installed for [old]: [old] itself on the
    self-forwarding path, otherwise a word-aligned address other than
    [old]. *)
Definition target_ok (old : Z) (w : worker) : bool :=
  match fst w with
  | pc_prepared req | pc_claimed req _ =>
    (Z.land (cl_target req) markOopDesc.lock_mask_in_place =? 0)
    && (cl_self req || negb (cl_target req =? old))
  | _ => true
  end.

(** Every pointer the allocators hand out along the schedule is such. *)
Fixpoint targets_ok (old : Z) (schedule : list bool) (s : system) : bool :=
  target_ok old (snd (fst s)) && target_ok old (snd s)
  && match schedule with
     | [] => true
     | b :: rest => targets_ok old rest (system_step b s)
     end.

(** The successful claims a worker has recorded. *)
Definition won_claim (e : event) : bool :=
  match e with
  | ev_forward_to_atomic _ _ result => result =? NULL
  | _ => false
  end.

Definition claims_won (p : PSS) : nat := length (List.filter won_claim (trace p)).

(** How far a worker is in its call. *)
Definition pc_rank (pc : worker_pc) : nat :=
  match pc with
  | pc_start _ _ _ => 0
  | pc_prepared _ => 1
  | pc_claimed _ _ => 2
  | pc_done _ => 3
  end.

(** *** The invariant of a race for [old] *)

Definition req_ok (old : Z) (req : claim_request) : Prop :=
  cl_old req = old
  /\ (if cl_self req then cl_target req = old else cl_target req <> NULL).

(** The worker has not claimed yet. *)
Definition before_claim (old : Z) (c : nat) (w : worker) : Prop :=
  claims_won (snd w) = c
  /\ match fst w with
     | pc_start _ o _ => o = old
     | pc_prepared req => req_ok old req
     | _ => False
     end.

(** The worker installed [t]. *)
Definition claim_won (old t : Z) (c : nat) (w : worker) : Prop :=
  match fst w with
  | pc_claimed req f =>
    req_ok old req /\ cl_target req = t /\ f = NULL /\ claims_won (snd w) = c
  | pc_done r => r = t /\ claims_won (snd w) = S c
  | _ => False
  end.

(** The worker found [t] installed. *)
Definition claim_lost (old t : Z) (c : nat) (w : worker) : Prop :=
  match fst w with
  | pc_claimed req f => req_ok old req /\ f = t /\ claims_won (snd w) = c
  | pc_done r => r = t /\ claims_won (snd w) = c
  | _ => False
  end.

Definition race_inv (old : Z) (c1 c2 : nat) (s : system) : Prop :=
  let '(h, w1, w2) := s in
  (markOopDesc.is_marked (Heap.mark h old) = false
   /\ before_claim old c1 w1 /\ before_claim old c2 w2)
  \/ exists t,
       Heap.mark h old = markOopDesc.encode_pointer_as_mark t
       /\ t <> NULL
       /\ Z.land t markOopDesc.lock_mask_in_place = 0
       /\ ((claim_won old t c1 w1
            /\ (before_claim old c2 w2 \/ claim_lost old t c2 w2))
           \/ (claim_won old t c2 w2
               /\ (before_claim old c1 w1 \/ claim_lost old t c1 w1))).

End Race.

(** ** A bump-pointer PLAB allocator *)

(** Modelled from the spec: the allocation buffer manager of section 4.2
    (g1Allocator.cpp is not among the sources).  One buffer per destination
    class with a bump cursor; [plab_allocate] never refills;
    [allocate_direct_or_new_plab] serves an oversized request straight from
    the backing allocator, or retires the buffer's remainder into waste and
    bumps in a fresh buffer; [undo_allocation] reverts the most recent bump
    and counts the words as undo waste.  Addresses are in bytes, sizes and
    waste in heap words. *)
Record PLAB : Type := mkPLAB {
  plab_top : Z;
  plab_end : Z
}.

Record BumpAllocator : Type := mkBump {
  b_young : PLAB;
  b_old : PLAB;
  b_backing_top : Z;
  b_backing_end : Z;
  b_plab_words : Z;
  b_alloc_waste : Z;
  b_undo_waste : Z
}.

Module Bump.

Definition buffer (a : BumpAllocator) (d : InCSetState) : option PLAB :=
  match d with
  | Young => Some (b_young a)
  | Old => Some (b_old a)
  | NotInCSet => None
  end.

Definition set_buffer (d : InCSetState) (b : PLAB) (a : BumpAllocator) : BumpAllocator :=
  match d with
  | Young => mkBump b (b_old a) (b_backing_top a) (b_backing_end a)
                    (b_plab_words a) (b_alloc_waste a) (b_undo_waste a)
  | Old => mkBump (b_young a) b (b_backing_top a) (b_backing_end a)
                  (b_plab_words a) (b_alloc_waste a) (b_undo_waste a)
  | NotInCSet => a
  end.

Definition set_backing_top (t : Z) (a : BumpAllocator) : BumpAllocator :=
  mkBump (b_young a) (b_old a) t (b_backing_end a)
         (b_plab_words a) (b_alloc_waste a) (b_undo_waste a).

Definition add_alloc_waste (w : Z) (a : BumpAllocator) : BumpAllocator :=
  mkBump (b_young a) (b_old a) (b_backing_top a) (b_backing_end a)
         (b_plab_words a) (b_alloc_waste a + w) (b_undo_waste a).

Definition add_undo_waste (w : Z) (a : BumpAllocator) : BumpAllocator :=
  mkBump (b_young a) (b_old a) (b_backing_top a) (b_backing_end a)
         (b_plab_words a) (b_alloc_waste a) (b_undo_waste a + w).

Definition plab_allocate (a : BumpAllocator) (d : InCSetState) (word_sz context : Z)
    : Z * BumpAllocator :=
  match buffer a d with
  | None => (NULL, a)
  | Some b =>
    if plab_top b + word_sz * HeapWordSize <=? plab_end b
    then (plab_top b,
          set_buffer d (mkPLAB (plab_top b + word_sz * HeapWordSize) (plab_end b)) a)
    else (NULL, a)
  end.

Definition allocate_direct_or_new_plab
    (a : BumpAllocator) (d : InCSetState) (word_sz context : Z) : Z * BumpAllocator :=
  match buffer a d with
  | None => (NULL, a)
  | Some b =>
    let top := b_backing_top a in
    if b_plab_words a <? word_sz then
      if top + word_sz * HeapWordSize <=? b_backing_end a
      then (top, set_backing_top (top + word_sz * HeapWordSize) a)
      else (NULL, a)
    else
      if top + b_plab_words a * HeapWordSize <=? b_backing_end a
      then
        let fresh := mkPLAB (top + word_sz * HeapWordSize)
                            (top + b_plab_words a * HeapWordSize) in
        (top,
         set_buffer d fresh
           (set_backing_top (top + b_plab_words a * HeapWordSize)
              (add_alloc_waste ((plab_end b - plab_top b) / HeapWordSize) a)))
      else (NULL, a)
  end.

Definition allocate (a : BumpAllocator) (d : InCSetState) (word_sz context : Z)
    : Z * BumpAllocator :=
  let '(r, a') := plab_allocate a d word_sz context in
  if r =? NULL then allocate_direct_or_new_plab a d word_sz context else (r, a').

Definition undo_allocation
    (a : BumpAllocator) (d : InCSetState) (obj_ptr word_sz context : Z) : BumpAllocator :=
  let a :=
    match buffer a d with
    | Some b =>
      if obj_ptr + word_sz * HeapWordSize =? plab_top b
      then set_buffer d (mkPLAB obj_ptr (plab_end b)) a
      else a
    | None => a
    end in
  add_undo_waste word_sz a.

Definition waste (a : BumpAllocator) : Z * Z := (b_alloc_waste a, b_undo_waste a).

Definition retire (b : PLAB) : PLAB := mkPLAB (plab_end b) (plab_end b).

Definition retire_alloc_buffers (a : BumpAllocator) : BumpAllocator :=
  let w := (plab_end (b_young a) - plab_top (b_young a)) / HeapWordSize
           + (plab_end (b_old a) - plab_top (b_old a)) / HeapWordSize in
  add_alloc_waste w
    (set_buffer Young (retire (b_young a)) (set_buffer Old (retire (b_old a)) a)).

End Bump.

Global Instance BumpAllocator_plab : G1PLABAllocator BumpAllocator := {
  plab_allocate := Bump.plab_allocate;
  allocate_direct_or_new_plab := Bump.allocate_direct_or_new_plab;
  allocate := Bump.allocate;
  undo_allocation := Bump.undo_allocation;
  waste := Bump.waste;
  retire_alloc_buffers := Bump.retire_alloc_buffers
}.

(** ** A small heap to run the code on *)

Module Scenario.

(** A scanner that finds one reference slot, two words into the object. *)
Definition one_field_scanner : G1ParScanClosure :=
  {| discovered_refs := fun _ _ obj => [WideRef (obj + 2 * HeapWordSize)] |}.

(** A dispatcher for which [WideRef n] has two children [WideRef (n - 1)]
    while [n] is positive. *)
Definition countdown (t : StarTask) (h : G1CollectedHeap)
    (p : G1ParScanThreadState BumpAllocator)
    : G1CollectedHeap * G1ParScanThreadState BumpAllocator :=
  match t with
  | WideRef n =>
    if 0 <? n
    then (h, push_on_queue (WideRef (n - 1)) (push_on_queue (WideRef (n - 1)) p))
    else (h, p)
  | _ => (h, p)
  end.

Definition countdown_dispatcher : ReferenceDispatcher BumpAllocator :=
  {| dispatch_reference := countdown |}.

(** The work a task stands for under [countdown]. *)
Definition weight (t : StarTask) : nat :=
  match t with
  | WideRef n => (3 ^ Z.to_nat n)%nat
  | _ => 1%nat
  end.

Definition queue_weight (q : RefToScanQueue) : nat :=
  (list_sum (map weight (q_local q)) + list_sum (map weight (q_overflow q)))%nat.

Definition work_left (h : G1CollectedHeap) (p : G1ParScanThreadState BumpAllocator) : nat :=
  queue_weight (_refs p).

(** Regions of 1 KiB.  Region 0 is young with index 0 in the collection
    set, region 1 is old and in the collection set, regions 2 and 3 take
    the copies. *)
Definition young_region : HeapRegion := mkRegion 0 true 0 false.
Definition old_region : HeapRegion := mkRegion (-1) false 0 false.

(** A header with lock bits [01] and the given age. *)
Definition neutral_mark (age : Z) : Z :=
  markOopDesc.set_age markOopDesc.unlocked_value age.

(** A header with lock bits [00]: displaced to a lock record. *)
Definition locked_mark : Z := 4096.

(** The objects: a 4-word object of age 2 at 64, an object array of 50
    elements at 128, one of 49 elements at 512, and a 4-word object whose
    header is displaced at 768. *)
Definition heap (product should_fail : bool) : G1CollectedHeap :=
  mkHeap
    (<[64 := mkOop (neutral_mark 2) false 0 4]>
     (<[128 := mkOop (neutral_mark 1) true 50 27]>
      (<[512 := mkOop (neutral_mark 1) true 49 27]>
       (<[768 := mkOop locked_mark false 0 4]> ∅))))
    (<[locked_mark := neutral_mark 3]> ∅)
    (<[0 := young_region]> (<[1 := old_region]> ∅))
    10 [] [] [] product should_fail false 50.

(** A survivor buffer at [2048, 2048 + 8 * young_words) and a promoted
    buffer at [3072, 3072 + 8 * old_words), with [backing_words] words
    left behind them in the backing allocator. *)
Definition allocator (young_words old_words backing_words : Z) : BumpAllocator :=
  mkBump (mkPLAB 2048 (2048 + young_words * HeapWordSize))
         (mkPLAB 3072 (3072 + old_words * HeapWordSize))
         8192 (8192 + backing_words * HeapWordSize) 16 0 0.

(** The same heap after a peer has copied the object at 64 to 3584. *)
Definition peer_heap : G1CollectedHeap :=
  Heap.set_mark 64 (markOopDesc.encode_pointer_as_mark 3584) (heap true false).

(** A second worker's buffers, away from the first worker's. *)
Definition second_allocator : BumpAllocator :=
  mkBump (mkPLAB 5120 (5120 + 100 * HeapWordSize))
         (mkPLAB 6144 (6144 + 100 * HeapWordSize))
         10240 (10240 + 100 * HeapWordSize) 16 0 0.

Definition queue : RefToScanQueue := mkQueue [] [] 2.

Definition pss (worker_id threshold : Z) (a : BumpAllocator)
    : G1ParScanThreadState BumpAllocator :=
  G1ParScanThreadState_new queue worker_id threshold 1 a (S754_zero false).

(** A worker created at clock reading [start], with the given strong-roots
    and termination times. *)
Definition timed_pss (start s_roots term : spec_float)
    : G1ParScanThreadState BumpAllocator :=
  mkPSS queue 0 3 5 [] [] (allocator 100 100 100) [NotInCSet; Old; Old]
        start s_roots term [].

(** A worker whose queue holds one task with children and has room for a
    single local task. *)
Definition busy_pss : G1ParScanThreadState BumpAllocator :=
  G1ParScanThreadState_new (mkQueue [WideRef 1] [] 1) 0 5 1
    (allocator 100 100 100) (S754_zero false).

End Scenario.

(** ** The life of a worker state *)

Section Lifetime.

Context {A : Type} {PA : G1PLABAllocator A} {SC : G1ParScanClosure}.

Abbreviation PSS := (G1ParScanThreadState A).

(** [evolves p q]: [q] is [p] after any number of calls of the member
    functions of this file, on any arguments and heaps: a push onto the
    queue, a pop from either part of it, [allocate_in_next_plab],
    [handle_evacuation_failure_par], [copy_to_survivor_space] and
    [trim_queue].  [trim_queue] calls [dispatch_reference], which is not
    among the sources; what a dispatch does to the worker is taken to be
    calls of these functions again. *)
Inductive evolves : PSS -> PSS -> Prop :=
| evolves_refl p : evolves p p
| evolves_push p q t :
    evolves p q -> evolves p (push_on_queue t q)
| evolves_pop p q part ref r :
    evolves p q ->
    pop_of part (_refs q) = Some (ref, r) ->
    evolves p (set_refs r q)
| evolves_trim_queue p q (RD : ReferenceDispatcher A) fuel h rounds h' q' :
    evolves p q ->
    (forall ref h0 q0, evolves q0 (snd (dispatch_reference ref h0 q0))) ->
    trim_queue fuel h q = Some (rounds, h', q') ->
    evolves p q'
| evolves_allocate_in_next_plab p q state d word_sz context :
    evolves p q ->
    evolves p (snd (allocate_in_next_plab state d word_sz context q))
| evolves_handle_evacuation_failure_par p q old m h :
    evolves p q ->
    evolves p (snd (handle_evacuation_failure_par old m h q))
| evolves_copy_to_survivor_space p q state old m h :
    evolves p q ->
    evolves p (snd (copy_to_survivor_space state old m h q)).

(** A worker state as it is during a pause: built by the constructor,
    then used. *)
Definition constructed (p : PSS) : Prop :=
  exists refs worker_id threshold n a now,
    evolves (G1ParScanThreadState_new refs worker_id threshold n a now) p.

(** What no member function changes: the destination map, the worker id
    and the sizes of the two tables; the tenuring threshold is kept or
    dropped to zero. *)
Definition keeps (p q : PSS) : Prop :=
  _dest q = _dest p
  /\ _worker_id q = _worker_id p
  /\ length (_age_table q) = length (_age_table p)
  /\ length (_surviving_young_words q) = length (_surviving_young_words p)
  /\ (_tenuring_threshold q = _tenuring_threshold p \/ _tenuring_threshold q = 0).

(** The events a call added to the trace. *)
Definition new_events (before after : PSS) : list event :=
  drop (length (trace before)) (trace after).

(** The call reaches the claim of [copy_to_survivor_space]: the object is
    not handed to the evacuation-failure handler. *)
Definition reaches_claim
    (state : InCSetState) (old old_mark : Z) (h : G1CollectedHeap) (p : PSS) : Prop :=
  ~ In (ev_handle_evacuation_failure_par old old_mark)
       (new_events p (snd (copy_to_survivor_space state old old_mark h p))).

(** The age a survivor copy gets, and the header written to a copy. *)
Definition aged (age : Z) : Z :=
  if age <? markOopDesc.max_age then age + 1 else age.

Definition installed_mark (d : InCSetState) (m age : Z) : Z :=
  if InCSet.is_young d then
    if markOopDesc.has_displaced_mark_helper m then m
    else markOopDesc.set_age m (aged age)
  else m.

(** *** Three statements the code does not satisfy as they stand *)

(** "Only when all three attempts return no memory is the object handed
    to [handle_evacuation_failure_par]." *)
Definition hands_over_only_when_exhausted
    (state : InCSetState) (old old_mark : Z) (h : G1CollectedHeap) (p : PSS) : Prop :=
  let evs := new_events p (snd (copy_to_survivor_space state old old_mark h p)) in
  In (ev_handle_evacuation_failure_par old old_mark) evs ->
  forall e d sz c r, In e evs -> allocator_answer e = Some (d, sz, c, r) -> r = NULL.

(** "An object array whose length exceeds the chunk threshold is queued
    as a partial-array task; any other object is scanned immediately." *)
Definition scans_unless_length_exceeds
    (state : InCSetState) (old old_mark : Z) (h : G1CollectedHeap) (p : PSS) : Prop :=
  reaches_claim state old old_mark h p ->
  markOopDesc.is_marked (Heap.mark h old) = false ->
  let evs := new_events p (snd (copy_to_survivor_space state old old_mark h p)) in
  let o := Heap.obj h old in
  if o_is_objArray o && (h_ParGCArrayScanChunk h <? o_length o)
  then existsb is_scan evs = false
  else existsb is_scan evs = true.

(** "A failed claim leaves the age table, the surviving-young-words
    table, the tenuring threshold and the queue as they were." *)
Definition lost_claim_keeps_worker_state
    (state : InCSetState) (old old_mark : Z) (h : G1CollectedHeap) (p : PSS) : Prop :=
  reaches_claim state old old_mark h p ->
  markOopDesc.is_marked (Heap.mark h old) = true ->
  let p' := snd (copy_to_survivor_space state old old_mark h p) in
  _age_table p' = _age_table p
  /\ _surviving_young_words p' = _surviving_young_words p
  /\ _tenuring_threshold p' = _tenuring_threshold p
  /\ _refs p' = _refs p.

End Lifetime.


(** ** Further notions *)

Definition is_undo (e : event) : bool :=
  match e with ev_undo_allocation _ _ _ _ => true | _ => false end.

Section MoreLifetime.

Context {A : Type} {PA : G1PLABAllocator A} {SC : G1ParScanClosure}.

(** A worker state built by the constructor for a collection set with [n]
    young regions, then used. *)
Definition constructed_for (n : nat) (p : G1ParScanThreadState A) : Prop :=
  exists refs worker_id threshold a now,
    evolves (G1ParScanThreadState_new refs worker_id threshold n a now) p.

(** What follows the allocation once memory was found at [r]: the
    fault-injection hook gives it back and hands the object over, otherwise
    the destination is prefetched. *)
Definition after_allocation
    (injected : bool) (old m : Z) (d : InCSetState) (r sz c : Z) : list event :=
  if injected
  then [ev_undo_allocation d r sz c; ev_handle_evacuation_failure_par old m]
  else [ev_prefetch_write r].

End MoreLifetime.

(** The tasks one part of the queue holds, next to pop first. *)
Definition part_tasks (part : queue_part) (q : RefToScanQueue) : list StarTask :=
  match part with
  | Overflow => q_overflow q
  | Local => q_local q
  end.

Definition other_part (part : queue_part) : queue_part :=
  match part with Overflow => Local | Local => Overflow end.

Section MoreTrim.

Context {A : Type} {RD : ReferenceDispatcher A}.

(** A dispatcher that pushes nothing (and pops nothing). *)
Definition dispatch_keeps_queue : Prop :=
  forall ref h (p : G1ParScanThreadState A),
    _refs (snd (dispatch_reference ref h p)) = _refs p.

End MoreTrim.

(** ** Evacuation failure, statement by statement *)

(** After its claim, [handle_evacuation_failure_par] tests the region's
    flag (line 305), sets it (line 306) and reports the region (line 307) in
    three statements with nothing that makes them one.  The call is cut at
    these statements so that two workers can interleave between them. *)
Inductive failure_pc : Type :=
| fpc_start (old m : Z)
| fpc_owner (old m : Z)                    (* line 301: the claim succeeded *)
| fpc_tested (old m : Z) (failed : bool)   (* line 305: the flag was read *)
| fpc_flagged (old m : Z)                  (* line 306: the flag was set *)
| fpc_reported (old m : Z)                 (* line 307 done, or lines 306-307 skipped *)
| fpc_done (result : Z).

Section FailureSteps.

Context {A : Type} {PA : G1PLABAllocator A} {SC : G1ParScanClosure}.

Definition failure_worker : Type := failure_pc * G1ParScanThreadState A.

Definition failure_step (h : G1CollectedHeap) (w : failure_worker)
    : G1CollectedHeap * failure_worker :=
  let '(pc, p) := w in
  match pc with
  | fpc_start old m =>
    let p := emit (ev_handle_evacuation_failure_par old m) p in
    let '(forward_ptr, h) := Heap.forward_to_atomic old old h in
    let p := emit (ev_forward_to_atomic old old forward_ptr) p in
    if forward_ptr =? NULL then (h, (fpc_owner old m, p))
    else (h, (fpc_done forward_ptr, p))
  | fpc_owner old m =>
    let r := Heap.heap_region_containing h old in
    (h, (fpc_tested old m (r_evacuation_failed (Heap.region h r)), p))
  | fpc_tested old m failed =>
    let r := Heap.heap_region_containing h old in
    if negb failed
    then (Heap.set_evacuation_failed r true h, (fpc_flagged old m, p))
    else (h, (fpc_reported old m, p))
  | fpc_flagged old m =>
    let r := Heap.heap_region_containing h old in
    (hr_printer_evac_failure r h, (fpc_reported old m, p))
  | fpc_reported old m =>
    let r := Heap.heap_region_containing h old in
    let h := preserve_mark_during_evac_failure (_worker_id p) old m h in
    let p := scan_object r old h p in
    (h, (fpc_done old, p))
  | fpc_done _ => (h, w)
  end.

(** [n] statements of one worker, undisturbed. *)
Fixpoint failure_steps (n : nat) (h : G1CollectedHeap) (w : failure_worker)
    : G1CollectedHeap * failure_worker :=
  match n with
  | O => (h, w)
  | S n => let '(h, w) := failure_step h w in failure_steps n h w
  end.

Definition failure_system : Type := G1CollectedHeap * failure_worker * failure_worker.

(** [true] schedules the first worker, [false] the second. *)
Definition failure_system_step (first : bool) (s : failure_system) : failure_system :=
  let '(h, w1, w2) := s in
  if first
  then let '(h, w1) := failure_step h w1 in (h, w1, w2)
  else let '(h, w2) := failure_step h w2 in (h, w1, w2).

Definition failure_run (schedule : list bool) (s : failure_system) : failure_system :=
  fold_left (fun s b => failure_system_step b s) schedule s.

(** The first worker runs its call to the end, then the second. *)
Definition one_after_the_other : list bool :=
  [true; true; true; true; true; false; false; false; false; false].

(** The two workers take turns, statement by statement. *)
Definition taking_turns : list bool :=
  [true; false; true; false; true; false; true; false; true; false].

(** *** A statement the code does not satisfy as it stands *)

(** "Only the first flagger triggers the diagnostic hook": two calls that
    both own their object, in one region that was not flagged, have
    reported the region once when both have returned. *)
Definition only_first_flagger_reports
    (schedule : list bool) (old1 m1 old2 m2 : Z) (h : G1CollectedHeap)
    (p1 p2 : G1ParScanThreadState A) : Prop :=
  let r := Heap.heap_region_containing h old1 in
  let s := failure_run schedule (h, (fpc_start old1 m1, p1), (fpc_start old2 m2, p2)) in
  Heap.heap_region_containing h old2 = r ->
  r_evacuation_failed (Heap.region h r) = false ->
  fst (snd (fst s)) = fpc_done old1 ->
  fst (snd s) = fpc_done old2 ->
  h_hr_printer (fst (fst s)) = h_hr_printer h ++ [r].

End FailureSteps.

(** *** What holds however the two calls interleave *)

(** How far a call is. *)
Definition failure_stage (pc : failure_pc) : nat :=
  match pc with
  | fpc_start _ _ => 0
  | fpc_owner _ _ => 1
  | fpc_tested _ _ _ => 2
  | fpc_flagged _ _ => 3
  | fpc_reported _ _ => 4
  | fpc_done _ => 5
  end.

(** [pc] is a point of the call on [old] with header [m]; [reported]
    (ghost) tells whether that call has reported the region. *)
Definition failure_pc_ok (old m : Z) (pc : failure_pc) (reported : bool) : Prop :=
  match pc with
  | fpc_start o m' | fpc_owner o m' | fpc_tested o m' _ | fpc_flagged o m' =>
    o = old /\ m' = m /\ reported = false
  | fpc_reported o m' => o = old /\ m' = m
  | fpc_done result => result = old
  end.

(** The call has set the flag of the region. *)
Definition has_flagged (pc : failure_pc) (reported : bool) : bool :=
  match pc with
  | fpc_flagged _ _ => true
  | fpc_reported _ _ | fpc_done _ => reported
  | _ => false
  end.

(** The call read the flag as set, and so skips lines 306-307. *)
Definition found_flagged (pc : failure_pc) (reported : bool) : bool :=
  match pc with
  | fpc_tested _ _ failed => failed
  | fpc_reported _ _ | fpc_done _ => negb reported
  | _ => false
  end.

(** The header a finished call has preserved. *)
Definition preserved_by (pc : failure_pc) (worker_id old m : Z) : list (Z * Z * Z) :=
  match pc with
  | fpc_done _ => [(worker_id, old, m)]
  | _ => []
  end.

Section FailureInvariant.

Context {A : Type} {PA : G1PLABAllocator A} {SC : G1ParScanClosure}.

(** The object of a call: untouched before the claim, self-forwarded
    after it. *)
Definition failure_object_ok (h : G1CollectedHeap) (old : Z) (pc : failure_pc) : Prop :=
  match pc with
  | fpc_start _ _ => markOopDesc.is_marked (Heap.mark h old) = false
  | _ => Heap.mark h old = markOopDesc.encode_pointer_as_mark old
  end.

(** The invariant of two calls on [old1] and [old2], both in region [r],
    started on the heap [h0]. *)
Definition failure_inv
    (h0 : G1CollectedHeap) (r old1 old2 m1 m2 id1 id2 : Z)
    (s : failure_system (A := A)) : Prop :=
  let '(h, w1, w2) := s in
  exists k1 k2 : bool,
    h_LogOfHRGrainBytes h = h_LogOfHRGrainBytes h0
    /\ (_worker_id (snd w1) = id1 /\ _worker_id (snd w2) = id2)
    /\ (failure_pc_ok old1 m1 (fst w1) k1 /\ failure_pc_ok old2 m2 (fst w2) k2)
    /\ (failure_object_ok h old1 (fst w1) /\ failure_object_ok h old2 (fst w2))
    /\ h_hr_printer h = h_hr_printer h0 ++ repeat r (Nat.b2n k1 + Nat.b2n k2)
    /\ r_evacuation_failed (Heap.region h r)
       = has_flagged (fst w1) k1 || has_flagged (fst w2) k2
    /\ ((found_flagged (fst w1) k1 = true -> has_flagged (fst w2) k2 = true)
        /\ (found_flagged (fst w2) k2 = true -> has_flagged (fst w1) k1 = true))
    /\ (h_preserved_marks h
        = h_preserved_marks h0
          ++ preserved_by (fst w1) id1 old1 m1 ++ preserved_by (fst w2) id2 old2 m2
        \/ h_preserved_marks h
           = h_preserved_marks h0
             ++ preserved_by (fst w2) id2 old2 m2 ++ preserved_by (fst w1) id1 old1 m1).

End FailureInvariant.

(** ** What is printed: [print_termination_stats_hdr] (lines 79-84) and the
    line of [print_termination_stats] (lines 93-100) *)

Module Printing.

Import Ascii String.

(** Printed text, character by character. *)
Definition text : Type := list ascii.

Definition space : ascii := " "%char.
Definition dash : ascii := "-"%char.

(** The four lines handed to [print_raw_cr], in order. *)
Definition print_termination_stats_hdr : list text :=
  map list_ascii_of_string
    ["GC Termination Stats";
     "     elapsed  --strong roots-- -------termination------- ------waste (KiB)------";
     "thr     ms        ms      %        ms      %    attempts  total   alloc    undo";
     "--- --------- --------- ------ --------- ------ -------- ------- ------- -------"]%string.

(** A conversion with a minimum field width: its digits are right-aligned
    in at least [width] columns, padded with spaces, never cut. *)
Definition pad_left (width : nat) (digits : text) : text :=
  repeat space (width - List.length digits) ++ digits.

(** The conversions of a format that separates them by single spaces. *)
Fixpoint join (cells : list text) : text :=
  match cells with
  | [] => []
  | c :: rest =>
    match rest with
    | [] => c
    | _ :: _ => c ++ space :: join rest
    end
  end.

Section Line.

(** The digits themselves are the C library's: those of [%u] and of
    [SIZE_FORMAT], and those of [%.2f]. *)
Variable fmt_unsigned : Z -> text.
Variable fmt_fixed2 : spec_float -> text.

(** The format of lines 93-95, conversion by conversion, with the
    arguments of lines 96-100: each minimum width with the digits to
    print. *)
Definition termination_stats_columns (st : termination_stats) : list (nat * text) :=
  [ (3%nat, fmt_unsigned (st_worker_id st));          (* %3u *)
    (9%nat, fmt_fixed2 (st_elapsed_ms st));           (* %9.2f *)
    (9%nat, fmt_fixed2 (st_s_roots_ms st));           (* %9.2f *)
    (6%nat, fmt_fixed2 (st_s_roots_percent st));      (* %6.2f *)
    (9%nat, fmt_fixed2 (st_term_ms st));              (* %9.2f *)
    (6%nat, fmt_fixed2 (st_term_percent st));         (* %6.2f *)
    (8%nat, fmt_unsigned (st_term_attempts st));      (* SIZE_FORMAT_W(8) *)
    (7%nat, fmt_unsigned (st_total_waste st));        (* SIZE_FORMAT_W(7) *)
    (7%nat, fmt_unsigned (st_alloc_buffer_waste st)); (* SIZE_FORMAT_W(7) *)
    (7%nat, fmt_unsigned (st_undo_waste st)) ].       (* SIZE_FORMAT_W(7) *)

(** The line handed to [print_cr]. *)
Definition termination_stats_line (st : termination_stats) : text :=
  join (map (fun c => pad_left (fst c) (snd c)) (termination_stats_columns st)).

End Line.

(** *** Digits, to run the above on examples

    The C library is not among the sources; these write digits as its
    [printf] does. *)

Definition digit (d : Z) : ascii := ascii_of_nat (48 + Z.to_nat d).

(** The decimal digits of a number that is not negative. *)
Fixpoint decimal_fuel (fuel : nat) (n : Z) : text :=
  match fuel with
  | O => []
  | S fuel =>
    if n <? 10 then [digit n]
    else decimal_fuel fuel (n / 10) ++ [digit (n mod 10)]
  end.

Definition decimal (n : Z) : text := decimal_fuel (S (Z.to_nat (Z.log2 n))) n.

(** A number of hundredths as [%.2f] writes it. *)
Definition hundredths (n : Z) : text :=
  decimal (n / 100) ++ "."%char :: [digit (n / 10 mod 10); digit (n mod 10)].

(** Round to the nearest integer, ties to even. *)
Definition round_half_even (num den : Z) : Z :=
  let q := num / den in
  let twice := 2 * (num mod den) in
  if twice <? den then q
  else if den <? twice then q + 1
  else if Z.even q then q else q + 1.

(** [%.2f] of a double. *)
Definition fixed2 (x : spec_float) : text :=
  match x with
  | S754_zero s => (if s then ["-"%char] else []) ++ hundredths 0
  | S754_infinity s => (if s then ["-"%char] else []) ++ list_ascii_of_string "inf"%string
  | S754_nan => list_ascii_of_string "nan"%string
  | S754_finite s m e =>
    (if s then ["-"%char] else [])
    ++ hundredths (if 0 <=? e then Z.pos m * 2 ^ e * 100
                   else round_half_even (Z.pos m * 100) (2 ^ (- e)))
  end.

End Printing.

(** * Properties *)

(** ** The header word *)

Ltac bool_cases :=
  repeat match goal with
         | |- context [Z.testbit ?a ?b] => destruct (Z.testbit a b)
         end;
  reflexivity.

Lemma testbit_small (v k n : Z) : 0 <= v < 2 ^ k -> k <= n -> Z.testbit v n = false.
Proof.
  intros [Hv0 Hv] Hn.
  destruct (Z.eq_dec v 0) as [->|Hne]; [apply Z.bits_0|].
  apply Z.bits_above_log2; [lia|].
  assert (0 <= k) by (destruct (Z.le_gt_cases 0 k); [lia|rewrite Z.pow_neg_r in Hv; lia]).
  apply Z.lt_le_trans with k; [|lia].
  apply Z.log2_lt_pow2; lia.
Qed.

Lemma age_range m : 0 <= markOopDesc.age m <= markOopDesc.max_age.
Proof.
  unfold markOopDesc.age, markOopDesc.max_age, markOopDesc.age_mask.
  rewrite Z.land_ones by (unfold markOopDesc.age_bits; lia).
  pose proof (Z.mod_pos_bound (Z.shiftr m markOopDesc.age_shift) (2 ^ markOopDesc.age_bits)).
  unfold markOopDesc.age_bits in *. rewrite Z.ones_equiv. simpl in *. lia.
Qed.

Lemma age_set_age m v :
  0 <= v <= markOopDesc.max_age -> markOopDesc.age (markOopDesc.set_age m v) = v.
Proof.
  intros Hv. unfold markOopDesc.age, markOopDesc.set_age.
  apply Z.bits_inj'. intros n Hn.
  rewrite Z.land_spec, Z.shiftr_spec by lia.
  rewrite Z.lor_spec, Z.ldiff_spec.
  unfold markOopDesc.age_mask_in_place.
  rewrite !Z.shiftl_spec
    by (unfold markOopDesc.age_shift, markOopDesc.lock_bits, markOopDesc.biased_lock_bits; lia).
  replace (n + markOopDesc.age_shift - markOopDesc.age_shift) with n by lia.
  rewrite Z.land_spec.
  unfold markOopDesc.age_mask.
  destruct (Z.ltb_spec n markOopDesc.age_bits).
  - rewrite Z.ones_spec_low by lia. bool_cases.
  - rewrite Z.ones_spec_high by (unfold markOopDesc.age_bits in *; lia).
    rewrite (testbit_small v markOopDesc.age_bits n); [bool_cases| |lia].
    unfold markOopDesc.max_age, markOopDesc.age_mask in Hv. rewrite Z.ones_equiv in Hv. lia.
Qed.

Lemma has_displaced_set_age m v :
  markOopDesc.has_displaced_mark_helper (markOopDesc.set_age m v)
  = markOopDesc.has_displaced_mark_helper m.
Proof.
  unfold markOopDesc.has_displaced_mark_helper, markOopDesc.set_age.
  f_equal. unfold markOopDesc.unlocked_value.
  apply Z.bits_inj'. intros n Hn.
  rewrite !Z.land_spec, Z.lor_spec, Z.ldiff_spec.
  destruct (Z.eq_dec n 0) as [->|].
  - unfold markOopDesc.age_mask_in_place.
    rewrite !Z.shiftl_spec_low by (vm_compute; reflexivity).
    bool_cases.
  - rewrite (testbit_small 1 1 n) by lia. rewrite !andb_false_r; reflexivity.
Qed.

Lemma lock_mask_bits n :
  0 <= n -> Z.testbit markOopDesc.lock_mask_in_place n = (n <? 2).
Proof.
  intros Hn. change markOopDesc.lock_mask_in_place with (Z.ones 2).
  rewrite Z.testbit_ones_nonneg by lia. reflexivity.
Qed.

Lemma is_marked_encode p :
  markOopDesc.is_marked (markOopDesc.encode_pointer_as_mark p) = true.
Proof.
  unfold markOopDesc.is_marked, markOopDesc.encode_pointer_as_mark, markOopDesc.set_marked.
  apply Z.eqb_eq. apply Z.bits_inj'. intros n Hn.
  rewrite Z.land_spec, Z.lor_spec, Z.ldiff_spec, lock_mask_bits by lia.
  change markOopDesc.marked_value with (Z.ones 2).
  rewrite Z.testbit_ones_nonneg by lia.
  destruct (n <? 2); bool_cases.
Qed.

Lemma decode_encode p :
  Z.land p markOopDesc.lock_mask_in_place = 0 ->
  markOopDesc.decode_pointer (markOopDesc.encode_pointer_as_mark p) = p.
Proof.
  intros Hp.
  unfold markOopDesc.decode_pointer, markOopDesc.clear_lock_bits,
    markOopDesc.encode_pointer_as_mark, markOopDesc.set_marked.
  apply Z.bits_inj'. intros n Hn.
  assert (Hb : Z.testbit p n && (n <? 2) = false).
  { rewrite <- lock_mask_bits, <- Z.land_spec, Hp by lia. apply Z.bits_0. }
  rewrite Z.ldiff_spec, Z.lor_spec, Z.ldiff_spec, lock_mask_bits by lia.
  change markOopDesc.marked_value with (Z.ones 2).
  rewrite Z.testbit_ones_nonneg by lia.
  destruct (n <? 2), (Z.testbit p n); simpl in *; congruence.
Qed.

(** ** The heap *)

Lemma mark_set_mark_eq h p m : Heap.mark (Heap.set_mark p m h) p = m.
Proof.
  unfold Heap.mark, Heap.obj, Heap.set_mark, Heap.set_objects. simpl.
  rewrite lookup_total_insert_eq. reflexivity.
Qed.

Lemma obj_set_mark_ne h p q m :
  p <> q -> Heap.obj (Heap.set_mark p m h) q = Heap.obj h q.
Proof.
  intros Hne. unfold Heap.obj, Heap.set_mark, Heap.set_objects. simpl.
  rewrite lookup_total_insert_ne by congruence. reflexivity.
Qed.

Lemma forward_to_atomic_won h old p :
  markOopDesc.is_marked (Heap.mark h old) = false ->
  Heap.forward_to_atomic old p h
  = (NULL, Heap.set_mark old (markOopDesc.encode_pointer_as_mark p) h).
Proof. intros H. unfold Heap.forward_to_atomic. rewrite H. reflexivity. Qed.

Lemma forward_to_atomic_lost h old p :
  markOopDesc.is_marked (Heap.mark h old) = true ->
  Heap.forward_to_atomic old p h = (markOopDesc.decode_pointer (Heap.mark h old), h).
Proof. intros H. unfold Heap.forward_to_atomic. rewrite H. reflexivity. Qed.

Lemma obj_copy_words h from to : Heap.obj (Heap.copy_words from to h) to = Heap.obj h from.
Proof.
  unfold Heap.obj, Heap.copy_words, Heap.set_objects. simpl.
  apply lookup_total_insert_eq.
Qed.

Lemma obj_copy_words_ne h from to q :
  to <> q -> Heap.obj (Heap.copy_words from to h) q = Heap.obj h q.
Proof.
  intros Hne. unfold Heap.obj, Heap.copy_words, Heap.set_objects. simpl.
  apply lookup_total_insert_ne. congruence.
Qed.

Lemma obj_set_mark h p m :
  Heap.obj (Heap.set_mark p m h) p
  = mkOop m (o_is_objArray (Heap.obj h p)) (o_length (Heap.obj h p)) (o_size (Heap.obj h p)).
Proof.
  unfold Heap.obj, Heap.set_mark, Heap.set_objects. simpl.
  apply lookup_total_insert_eq.
Qed.

Lemma obj_set_length h p n :
  Heap.obj (Heap.set_length p n h) p
  = mkOop (o_mark (Heap.obj h p)) (o_is_objArray (Heap.obj h p)) n (o_size (Heap.obj h p)).
Proof.
  unfold Heap.obj, Heap.set_length, Heap.set_objects. simpl.
  apply lookup_total_insert_eq.
Qed.

Lemma obj_set_length_ne h p q n :
  p <> q -> Heap.obj (Heap.set_length p n h) q = Heap.obj h q.
Proof.
  intros Hne. unfold Heap.obj, Heap.set_length, Heap.set_objects. simpl.
  apply lookup_total_insert_ne. congruence.
Qed.

(** ** One call, step by step *)

Section WorkerFacts.

Context {A : Type} {PA : G1PLABAllocator A} {SC : G1ParScanClosure}.

Abbreviation PSS := (G1ParScanThreadState A).


Lemma handle_evacuation_failure_par_steps
    state old m word_sz young_index context age dest_state h (p : PSS) :
  handle_evacuation_failure_par old m h p =
  let '(req, p1) :=
    prepare_failed state old m word_sz young_index context age dest_state p in
  let '(f, h1) := claim req h in
  complete req f h1 p1.
Proof.
  unfold handle_evacuation_failure_par, prepare_failed, claim, complete. simpl.
  destruct (Heap.forward_to_atomic old old h) as [f h1]. reflexivity.
Qed.

Lemma copy_allocated_steps
    state old m word_sz young_index context age dest_state obj_ptr h (p : PSS) :
  copy_allocated state old m word_sz young_index context age dest_state obj_ptr h p =
  let '(req, p1) :=
    prepare_allocated state old m word_sz young_index context age dest_state obj_ptr h p in
  let '(f, h1) := claim req h in
  complete req f h1 p1.
Proof.
  unfold copy_allocated, prepare_allocated.
  destruct (negb (h_PRODUCT h) && h_evacuation_should_fail h).
  - apply handle_evacuation_failure_par_steps.
  - unfold claim, complete. simpl.
    destruct (Heap.forward_to_atomic old obj_ptr h) as [f h1]. reflexivity.
Qed.

Lemma copy_to_survivor_space_steps state old m h (p : PSS) :
  copy_to_survivor_space state old m h p =
  let '(req, p1) := prepare state old m h p in
  let '(f, h1) := claim req h in
  complete req f h1 p1.
Proof.
  unfold copy_to_survivor_space, prepare.
  destruct (next_state p h state m 0) as [d age].
  destruct (do_plab_allocate _ _ _ _) as [r1 p1].
  destruct (r1 =? NULL); [|apply copy_allocated_steps].
  destruct (do_allocate_direct_or_new_plab _ _ _ _) as [r2 p2].
  destruct (r2 =? NULL); [|apply copy_allocated_steps].
  destruct (allocate_in_next_plab _ _ _ _ _) as [[r3 d3] p3].
  destruct (r3 =? NULL); [|apply copy_allocated_steps].
  apply handle_evacuation_failure_par_steps.
Qed.



Lemma pss_ext (p : PSS) refs w ta tt agt sv a d st sr te tr :
  _refs p = refs -> _worker_id p = w -> _term_attempts p = ta ->
  _tenuring_threshold p = tt -> _age_table p = agt ->
  _surviving_young_words p = sv -> _plab_allocator p = a -> _dest p = d ->
  _start p = st -> _strong_roots_time p = sr -> _term_time p = te ->
  trace p = tr ->
  p = mkPSS refs w ta tt agt sv a d st sr te tr.
Proof. destruct p; simpl; intros; subst; reflexivity. Qed.

Lemma trace_emit e (p : PSS) : trace (emit e p) = trace p ++ [e].
Proof. reflexivity. Qed.

Lemma trace_set_plab_allocator a (p : PSS) : trace (set_plab_allocator a p) = trace p.
Proof. reflexivity. Qed.

Lemma trace_set_tenuring_threshold t (p : PSS) :
  trace (set_tenuring_threshold t p) = trace p.
Proof. reflexivity. Qed.

(* One path of [prepare]: [pre] builds the events before the prefetch,
   [thr] and [dst] pick the threshold and class cases, [shape] the shape of
   the allocation steps. *)
Ltac prepare_path pre thr dst shape :=
  eexists _, _, _, _, _, _;
  split;
  [ f_equal; apply pss_ext;
    [reflexivity|reflexivity|reflexivity|reflexivity|reflexivity|reflexivity
    |reflexivity|reflexivity|reflexivity|reflexivity|reflexivity|];
    repeat first [ rewrite trace_emit | rewrite trace_set_plab_allocator
                 | rewrite trace_set_tenuring_threshold ];
    rewrite <- ?app_assoc; reflexivity |];
  simpl;
  split; [intros Hs; first [discriminate Hs | split; [reflexivity | simpl; auto 10]] |];
  split; [intros Hs;
          first [ discriminate Hs
                | split; [assumption | split; [reflexivity | pre; split; reflexivity]]] |];
  split; [thr |];
  split; [dst |];
  split; [reflexivity |];
  split; [reflexivity |];
  split; [reflexivity |];
  split; [reflexivity |];
  split; [repeat (constructor;
                  [simpl; intros d0 sz0 c0 r0 Ha;
                   first [discriminate Ha | injection Ha as <- _ _ _; auto] |]);
          constructor |];
  shape.

(** What [prepare] leaves behind, path by path. *)
Lemma prepare_outcome state old m h (p : PSS) :
  let sz := o_size (Heap.obj h old) in
  let r := Heap.heap_region_containing_raw h old in
  let yi := r_young_index_in_cset (Heap.region h r) + 1 in
  let c := r_allocation_context (Heap.region h r) in
  let d := fst (next_state p h state m 0) in
  let age := snd (next_state p h state m 0) in
  let injected := negb (h_PRODUCT h) && h_evacuation_should_fail h in
  let handed := [ev_handle_evacuation_failure_par old m] in
  exists evs d' target self a' t',
    prepare state old m h p
    = (mkReq state old m sz yi c age d' target self,
       mkPSS (_refs p) (_worker_id p) (_term_attempts p) t'
             (_age_table p) (_surviving_young_words p) a'
             (_dest p) (_start p) (_strong_roots_time p) (_term_time p)
             (trace p ++ evs))
    /\ (self = true -> target = old /\ In (ev_handle_evacuation_failure_par old m) evs)
    /\ (self = false -> target <> NULL /\ injected = false /\
          exists pre, evs = pre ++ [ev_prefetch_write target]
                      /\ last_allocation pre = Some (d', sz, c, target))
    /\ (t' = _tenuring_threshold p \/
        (t' = 0 /\ d = Young /\ d' = Old /\
         In (ev_allocate Old sz c target) evs /\ self = false) \/
        (t' = 0 /\ d = Young /\ injected = true))
    /\ (d' = d \/ (d = Young /\ d' = Old))
    /\ List.existsb is_copy evs = false
    /\ List.existsb is_scan evs = false
    /\ List.existsb is_set_mark evs = false
    /\ List.existsb won_claim evs = false
    /\ Forall (fun e => forall d0 sz0 c0 r0,
                  allocator_answer e = Some (d0, sz0, c0, r0) -> d0 = d \/ d0 = Old) evs
    /\ ((exists r1, r1 <> NULL /\
           fst (plab_allocate (_plab_allocator p) d sz c) = r1 /\
           List.filter is_allocation_step evs
           = [ev_plab_allocate d sz c r1] ++ (if injected then handed else []))
        \/ (exists r2, r2 <> NULL /\
           List.filter is_allocation_step evs
           = [ev_plab_allocate d sz c NULL;
              ev_allocate_direct_or_new_plab d sz c r2]
             ++ (if injected then handed else []))
        \/ (exists r3, r3 <> NULL /\
           List.filter is_allocation_step evs
           = [ev_plab_allocate d sz c NULL;
              ev_allocate_direct_or_new_plab d sz c NULL;
              ev_allocate_in_next_plab state d sz c r3]
             ++ (if injected then handed else []))
        \/ (self = true /\
           List.filter is_allocation_step evs
           = [ev_plab_allocate d sz c NULL;
              ev_allocate_direct_or_new_plab d sz c NULL;
              ev_allocate_in_next_plab state d sz c NULL] ++ handed)).
Proof.
  intros sz r yi c d age injected handed.
  unfold prepare.
  fold sz. fold r. fold yi. fold c.
  subst d age.
  destruct (next_state p h state m 0) as [d age]. simpl fst. simpl snd.
  unfold do_plab_allocate.
  destruct (plab_allocate (_plab_allocator p) d sz c) as [r1 a1] eqn:E1. simpl fst.
  destruct (r1 =? NULL) eqn:N1.
  2:{ apply Z.eqb_neq in N1.
      unfold prepare_allocated, prepare_failed, do_undo_allocation. fold injected.
      destruct injected eqn:Hinj; simpl;
        prepare_path ltac:(eexists [_]) ltac:(left; reflexivity) ltac:(left; reflexivity)
                     ltac:(left; exists r1; repeat split; assumption). }
  apply Z.eqb_eq in N1. subst r1.
  unfold do_allocate_direct_or_new_plab. simpl.
  destruct (allocate_direct_or_new_plab a1 d sz c) as [r2 a2] eqn:E2.
  destruct (r2 =? NULL) eqn:N2.
  2:{ apply Z.eqb_neq in N2.
      unfold prepare_allocated, prepare_failed, do_undo_allocation. fold injected.
      destruct injected eqn:Hinj; simpl;
        prepare_path ltac:(eexists [_; _]) ltac:(left; reflexivity) ltac:(left; reflexivity)
                     ltac:(right; left; exists r2; repeat split; assumption). }
  apply Z.eqb_eq in N2. subst r2.
  unfold allocate_in_next_plab, do_allocate. simpl.
  destruct d; simpl.
  - unfold prepare_failed. simpl.
    prepare_path ltac:(idtac) ltac:(left; reflexivity) ltac:(left; reflexivity)
                 ltac:(right; right; right; split; reflexivity).
  - destruct (allocate a2 Old sz c) as [r3 a3] eqn:E3.
    destruct (r3 =? NULL) eqn:N3.
    + apply Z.eqb_eq in N3. subst r3.
      unfold prepare_failed. simpl.
      prepare_path ltac:(idtac) ltac:(left; reflexivity) ltac:(left; reflexivity)
                   ltac:(right; right; right; split; reflexivity).
    + simpl. rewrite N3. apply Z.eqb_neq in N3.
      unfold prepare_allocated, prepare_failed, do_undo_allocation. fold injected.
      destruct injected eqn:Hinj; simpl.
      * prepare_path ltac:(idtac)
                     ltac:(right; right; repeat split; reflexivity)
                     ltac:(right; split; reflexivity)
                     ltac:(right; right; left; exists r3; repeat split; assumption).
      * prepare_path ltac:(eexists [_; _; _; _])
                     ltac:(right; left; repeat split; simpl; auto)
                     ltac:(right; split; reflexivity)
                     ltac:(right; right; left; exists r3; repeat split; assumption).
  - unfold prepare_failed. simpl.
    prepare_path ltac:(idtac) ltac:(left; reflexivity) ltac:(left; reflexivity)
                 ltac:(right; right; right; split; reflexivity).
Qed.



Lemma fold_push_fields (ts : list StarTask) (p : PSS) :
  fold_left (fun p t => push_on_queue t p) ts p
  = set_refs (fold_left (fun q t => Queue.push t q) ts (_refs p)) p.
Proof.
  revert p. induction ts as [|t ts IH]; intros p; simpl.
  - destruct p; reflexivity.
  - rewrite IH. reflexivity.
Qed.

Lemma copy_forwarded_outcome state old m sz yi age d obj h (p : PSS) :
  let o := Heap.obj h old in
  let chunked := o_is_objArray o && (h_ParGCArrayScanChunk h <=? o_length o) in
  exists h' p',
    copy_forwarded state old m sz yi age d obj h p = (obj, h', p')
    /\ Heap.mark h' obj = installed_mark d m age
    /\ o_is_objArray (Heap.obj h' obj) = o_is_objArray o
    /\ o_size (Heap.obj h' obj) = o_size o
    /\ (obj <> old -> Heap.obj h' old = o)
    /\ h_displaced h'
       = (if InCSet.is_young d && markOopDesc.has_displaced_mark_helper m
          then <[m := markOopDesc.set_age (Heap.displaced_mark_helper h m) (aged age)]>
                 (h_displaced h)
          else h_displaced h)
    /\ h_regions h' = h_regions h
    /\ h_preserved_marks h' = h_preserved_marks h
    /\ h_hr_printer h' = h_hr_printer h
    /\ _age_table p'
       = (if InCSet.is_young d then _age_table (age_table_add (aged age) sz p)
          else _age_table p)
    /\ _surviving_young_words p'
       = _surviving_young_words (add_surviving_young_words yi sz p)
    /\ _tenuring_threshold p' = _tenuring_threshold p
    /\ _plab_allocator p' = _plab_allocator p
    /\ _dest p' = _dest p
    /\ _worker_id p' = _worker_id p
    /\ (if chunked
        then o_length (Heap.obj h' obj) = 0
             /\ _refs p' = Queue.push (set_partial_array_mask old) (_refs p)
             /\ trace p' = trace p ++ [ev_copy_words old obj sz;
                                       ev_set_mark obj (installed_mark d m age)]
        else o_length (Heap.obj h' obj) = o_length o
             /\ _refs p'
                = fold_left (fun q t => Queue.push t q)
                    (discovered_refs h' (Heap.heap_region_containing_raw h' obj) obj)
                    (_refs p)
             /\ trace p' = trace p ++ [ev_copy_words old obj sz;
                                       ev_set_mark obj (installed_mark d m age);
                                       ev_oop_iterate_backwards
                                         (Heap.heap_region_containing_raw h' obj) obj]).
Proof.
  intros o chunked. unfold copy_forwarded.
  unfold installed_mark, aged.
  set (age' := if age <? markOopDesc.max_age then age + 1 else age).
  match goal with
  | |- context [let '(h1, p1) := ?X in _] => destruct X as [hX pX] eqn:EX
  end.
  set (hY := if h_G1StringDedup_is_enabled hX then _ else hX).
  assert (Hobj : Heap.obj hY obj
                 = mkOop (if InCSet.is_young d
                          then if markOopDesc.has_displaced_mark_helper m then m
                               else markOopDesc.set_age m age'
                          else m)
                         (o_is_objArray o) (o_length o) (o_size o)
                 /\ (obj <> old -> Heap.obj hY old = o)
                 /\ h_ParGCArrayScanChunk hY = h_ParGCArrayScanChunk h
                 /\ h_displaced hY
                    = (if InCSet.is_young d && markOopDesc.has_displaced_mark_helper m
                       then <[m := markOopDesc.set_age (Heap.displaced_mark_helper h m) age']>
                              (h_displaced h)
                       else h_displaced h)
                 /\ h_regions hY = h_regions h
                 /\ h_preserved_marks hY = h_preserved_marks h
                 /\ h_hr_printer hY = h_hr_printer h
                 /\ pX = mkPSS (_refs p) (_worker_id p) (_term_attempts p)
                           (_tenuring_threshold p)
                           (if InCSet.is_young d
                            then _age_table (age_table_add age' sz p)
                            else _age_table p)
                           (_surviving_young_words p) (_plab_allocator p)
                           (_dest p) (_start p) (_strong_roots_time p) (_term_time p)
                           (trace p ++ [ev_copy_words old obj sz;
                                        ev_set_mark obj
                                          (if InCSet.is_young d
                                           then if markOopDesc.has_displaced_mark_helper m
                                                then m
                                                else markOopDesc.set_age m age'
                                           else m)])).
  { subst hY.
    destruct (InCSet.is_young d);
      [destruct (markOopDesc.has_displaced_mark_helper m)|];
      injection EX as <- <-;
      (split; [destruct (h_G1StringDedup_is_enabled _);
               change (Heap.obj (enqueue_from_evacuation ?a ?b ?c ?e ?hh) ?q)
                 with (Heap.obj hh q);
               try change (Heap.obj (Heap.set_displaced_mark_helper ?a ?b ?hh) ?q)
                 with (Heap.obj hh q);
               rewrite obj_set_mark, obj_copy_words; reflexivity|]);
      (split; [intros Hne; destruct (h_G1StringDedup_is_enabled _);
               change (Heap.obj (enqueue_from_evacuation ?a ?b ?c ?e ?hh) ?q)
                 with (Heap.obj hh q);
               try change (Heap.obj (Heap.set_displaced_mark_helper ?a ?b ?hh) ?q)
                 with (Heap.obj hh q);
               rewrite obj_set_mark_ne, obj_copy_words_ne by congruence; reflexivity|]);
      repeat split;
      try (destruct (h_G1StringDedup_is_enabled _); reflexivity);
      unfold age_table_add, emit, set_age_table; simpl;
      rewrite <- ?app_assoc; reflexivity. }
  destruct Hobj as (Hobj & Hold & Hchunk & Hdis & Hreg & Hpm & Hpr & HpX).
  clearbody hY. subst pX. clear EX hX.
  rewrite Hobj, Hchunk. simpl o_is_objArray. simpl o_length. fold chunked.
  destruct chunked.
  - eexists _, _. split; [reflexivity|].
    unfold Heap.mark. rewrite obj_set_length, Hobj. simpl.
    repeat split; auto.
    intros Hne. rewrite obj_set_length_ne by congruence. auto.
  - eexists _, _. split; [reflexivity|].
    unfold Heap.mark, scan_object. rewrite Hobj, fold_push_fields. simpl.
    repeat split; auto.
    rewrite <- app_assoc. reflexivity.
Qed.

End WorkerFacts.

(** ** What a worker state keeps over its life *)

Section Invariants.

Context {A : Type} {PA : G1PLABAllocator A} {SC : G1ParScanClosure}.

Abbreviation PSS := (G1ParScanThreadState A).

Lemma new_events_app (p q : PSS) evs :
  trace q = trace p ++ evs -> new_events p q = evs.
Proof. intros E. unfold new_events. rewrite E. apply drop_app_length. Qed.

Lemma keeps_refl (p : PSS) : keeps p p.
Proof. unfold keeps. repeat split; auto. Qed.

Lemma keeps_trans (p q r : PSS) : keeps p q -> keeps q r -> keeps p r.
Proof.
  unfold keeps. intros (H1 & H2 & H3 & H4 & H5) (G1 & G2 & G3 & G4 & G5).
  repeat split; try congruence.
  destruct G5 as [G5|G5]; [rewrite G5; exact H5|auto].
Qed.

Lemma scan_object_fields r obj h (p : PSS) :
  scan_object r obj h p
  = mkPSS (fold_left (fun q t => Queue.push t q) (discovered_refs h r obj) (_refs p))
          (_worker_id p) (_term_attempts p) (_tenuring_threshold p)
          (_age_table p) (_surviving_young_words p) (_plab_allocator p)
          (_dest p) (_start p) (_strong_roots_time p) (_term_time p)
          (trace p ++ [ev_oop_iterate_backwards r obj]).
Proof. unfold scan_object. rewrite fold_push_fields. reflexivity. Qed.

Lemma complete_keeps req f h (p : PSS) : keeps p (snd (complete req f h p)).
Proof.
  unfold complete.
  destruct (cl_self req), (f =? NULL); simpl.
  - rewrite scan_object_fields. unfold keeps; simpl; repeat split; auto.
  - unfold keeps; simpl; repeat split; auto.
  - match goal with
    | |- context [copy_forwarded ?s ?o ?m ?sz ?yi ?ag ?d ?ob ?hh ?pp] =>
      destruct (copy_forwarded_outcome s o m sz yi ag d ob hh pp)
        as (h' & p' & E & _ & _ & _ & _ & _ & _ & _ & _ & Hat & Hsv & Hth & _ & Hd & Hw & _)
    end.
    rewrite E. simpl. unfold keeps. rewrite Hat, Hsv, Hth, Hd, Hw.
    unfold age_table_add, add_surviving_young_words. simpl.
    destruct (InCSet.is_young _); simpl; rewrite ?length_insert; repeat split; auto.
  - unfold keeps; simpl; repeat split; auto.
Qed.

Lemma prepare_keeps state old m h (p : PSS) : keeps p (snd (prepare state old m h p)).
Proof.
  destruct (prepare_outcome state old m h p)
    as (evs & d' & t & s & a' & t' & E & _ & _ & Ht & _).
  rewrite E. unfold keeps. simpl. repeat split; auto.
  destruct Ht as [Ht|[Ht|Ht]]; [left|right|right]; tauto.
Qed.

Lemma copy_to_survivor_space_keeps state old m h (p : PSS) :
  keeps p (snd (copy_to_survivor_space state old m h p)).
Proof.
  rewrite copy_to_survivor_space_steps.
  pose proof (prepare_keeps state old m h p) as Hp.
  destruct (prepare state old m h p) as [req p1].
  destruct (claim req h) as [f h1].
  eapply keeps_trans; [exact Hp|apply complete_keeps].
Qed.

Lemma handle_evacuation_failure_par_keeps old m h (p : PSS) :
  keeps p (snd (handle_evacuation_failure_par old m h p)).
Proof.
  rewrite (handle_evacuation_failure_par_steps NotInCSet old m 0 0 0 0 NotInCSet).
  unfold prepare_failed.
  destruct (claim _ h) as [f h1].
  eapply keeps_trans; [|apply complete_keeps].
  unfold keeps; simpl; repeat split; auto.
Qed.

Lemma allocate_in_next_plab_keeps state d sz c (p : PSS) :
  keeps p (snd (allocate_in_next_plab state d sz c p)).
Proof.
  unfold allocate_in_next_plab, do_allocate.
  destruct (InCSet.is_young d); [|unfold keeps; simpl; repeat split; auto].
  destruct (allocate _ _ _ _) as [r a].
  destruct (r =? NULL); unfold keeps; simpl; repeat split; auto.
Qed.

Lemma set_refs_keeps r (p : PSS) : keeps p (set_refs r p).
Proof. unfold keeps; simpl; repeat split; auto. Qed.

(** The loops of [trim_queue] keep what every dispatch keeps. *)
Lemma drain_keeps (RD : ReferenceDispatcher A) pop part fuel :
  (forall ref h0 (q0 : PSS), keeps q0 (snd (dispatch_reference ref h0 q0))) ->
  forall h (p : PSS) log h' p',
    drain pop part fuel h p = Some (log, h', p') -> keeps p p'.
Proof.
  intros Hd. induction fuel as [|fuel IH]; intros h p log h' p' E; [discriminate E|].
  simpl in E.
  destruct (pop (_refs p)) as [[ref q]|].
  - pose proof (Hd ref h (set_refs q p)) as Hk.
    destruct (dispatch_reference ref h (set_refs q p)) as [h1 p1]. simpl in Hk.
    destruct (drain pop part fuel h1 p1) as [[[log1 h2] p2]|] eqn:E1; [|discriminate E].
    injection E as _ _ <-.
    eapply keeps_trans; [apply set_refs_keeps|].
    eapply keeps_trans; [exact Hk|]. eapply IH. exact E1.
  - injection E as _ _ <-. apply keeps_refl.
Qed.

Lemma trim_queue_keeps (RD : ReferenceDispatcher A) fuel :
  (forall ref h0 (q0 : PSS), keeps q0 (snd (dispatch_reference ref h0 q0))) ->
  forall h (p : PSS) rounds h' p',
    trim_queue fuel h p = Some (rounds, h', p') -> keeps p p'.
Proof.
  intros Hd. induction fuel as [|fuel IH]; intros h p rounds h' p' E; [discriminate E|].
  simpl in E.
  destruct (drain Queue.pop_overflow Overflow fuel h p) as [[[ovf h1] p1]|] eqn:E1;
    [|discriminate E].
  destruct (drain Queue.pop_local Local fuel h1 p1) as [[[loc h2] p2]|] eqn:E2;
    [|discriminate E].
  apply (drain_keeps RD _ _ _ Hd) in E1. apply (drain_keeps RD _ _ _ Hd) in E2.
  destruct (negb (Queue.is_empty (_refs p2))).
  - destruct (trim_queue fuel h2 p2) as [[[rounds1 h3] p3]|] eqn:E3; [|discriminate E].
    injection E as _ _ <-.
    eapply keeps_trans; [exact E1|]. eapply keeps_trans; [exact E2|].
    eapply IH. exact E3.
  - injection E as _ _ <-. eapply keeps_trans; [exact E1|exact E2].
Qed.

Lemma evolves_keeps (p q : PSS) : evolves p q -> keeps p q.
Proof.
  induction 1.
  - apply keeps_refl.
  - eapply keeps_trans; [eassumption|]. unfold keeps; simpl; repeat split; auto.
  - eapply keeps_trans; [eassumption|apply set_refs_keeps].
  - eapply keeps_trans; [eassumption|].
    eapply trim_queue_keeps; eassumption.
  - eapply keeps_trans; [eassumption|apply allocate_in_next_plab_keeps].
  - eapply keeps_trans; [eassumption|apply handle_evacuation_failure_par_keeps].
  - eapply keeps_trans; [eassumption|apply copy_to_survivor_space_keeps].
Qed.


Lemma constructed_dest (p : PSS) :
  constructed p ->
  _dest p = [NotInCSet; Old; Old]
  /\ length (_age_table p) = Z.to_nat (markOopDesc.max_age + 1).
Proof.
  intros (refs & w & t & n & a & now & Hev).
  apply evolves_keeps in Hev. destruct Hev as (Hd & _ & Hl & _).
  rewrite Hd, Hl. split; [reflexivity|].
  reflexivity.
Qed.

(** The events of the third step: none asks the allocator for memory, and
    a lost claim neither copies nor scans nor writes a header. *)
Lemma complete_events req f h (p : PSS) :
  exists evs,
    trace (snd (complete req f h p))
    = trace p ++ ev_forward_to_atomic (cl_old req) (cl_target req) f :: evs
    /\ List.filter is_allocation_step evs = []
    /\ Forall (fun e => allocator_answer e = None) evs
    /\ List.existsb won_claim evs = false
    /\ (f <> NULL ->
        evs = (if cl_self req then []
               else [ev_undo_allocation (cl_dest_state req) (cl_target req)
                                        (cl_word_sz req) (cl_context req)])).
Proof.
  unfold complete.
  destruct (cl_self req) eqn:Hs; destruct (f =? NULL) eqn:Hf.
  - simpl. rewrite scan_object_fields. simpl.
    eexists [_]. split; [rewrite <- app_assoc; reflexivity|].
    apply Z.eqb_eq in Hf.
    split; [reflexivity|]. split; [repeat constructor|]. split; [reflexivity|]. congruence.
  - simpl. exists []. repeat split; auto.
  - match goal with
    | |- context [copy_forwarded ?s ?o ?m ?sz ?yi ?ag ?d ?ob ?hh ?pp] =>
      destruct (copy_forwarded_outcome s o m sz yi ag d ob hh pp)
        as (h' & p' & E & _ & _ & _ & _ & _ & _ & _ & _ & _ & _ & _ & _ & _ & _ & Htr)
    end.
    rewrite E. simpl snd. apply Z.eqb_eq in Hf.
    destruct (_ && _); destruct Htr as (_ & _ & Htr); rewrite Htr, trace_emit.
    + eexists [_; _]. split; [rewrite <- app_assoc; reflexivity|].
      split; [reflexivity|]. split; [repeat constructor|]. split; [reflexivity|]. congruence.
    + eexists [_; _; _]. split; [rewrite <- app_assoc; reflexivity|].
      split; [reflexivity|]. split; [repeat constructor|]. split; [reflexivity|]. congruence.
  - simpl. eexists [_]. split; [rewrite <- app_assoc; reflexivity|].
    split; [reflexivity|]. split; [repeat constructor|]. split; reflexivity.
Qed.

End Invariants.


(** ** The paths of one call *)

Section PathFacts.

Context {A : Type} {PA : G1PLABAllocator A} {SC : G1ParScanClosure}.

Abbreviation PSS := (G1ParScanThreadState A).

Lemma do_plab_allocate_trace d sz c (p : PSS) :
  trace (snd (do_plab_allocate d sz c p))
  = trace p ++ [ev_plab_allocate d sz c (fst (do_plab_allocate d sz c p))].
Proof.
  unfold do_plab_allocate. destruct (plab_allocate _ _ _ _) as [r a]. reflexivity.
Qed.

Lemma do_allocate_direct_or_new_plab_trace d sz c (p : PSS) :
  trace (snd (do_allocate_direct_or_new_plab d sz c p))
  = trace p ++ [ev_allocate_direct_or_new_plab d sz c
                  (fst (do_allocate_direct_or_new_plab d sz c p))].
Proof.
  unfold do_allocate_direct_or_new_plab.
  destruct (allocate_direct_or_new_plab _ _ _ _) as [r a]. reflexivity.
Qed.

(** [allocate_in_next_plab], case by case: the events it adds, its answer
    and the class it leaves in [dest]. *)
Lemma allocate_in_next_plab_trace state d sz c (p : PSS) :
  let result := allocate_in_next_plab state d sz c p in
  let r := fst (fst result) in
  trace (snd result)
  = trace p ++ (if InCSet.is_young d then [ev_allocate Old sz c r] else [])
            ++ [ev_allocate_in_next_plab state d sz c r]
  /\ snd (fst result) = (if r =? NULL then d else Old)
  /\ (InCSet.is_young d = false -> r = NULL).
Proof.
  unfold allocate_in_next_plab, do_allocate.
  destruct (InCSet.is_young d) eqn:Hy.
  - destruct (allocate (_plab_allocator p) Old sz c) as [r a].
    destruct (r =? NULL) eqn:Hr; simpl.
    + apply Z.eqb_eq in Hr. subst r.
      split; [rewrite <- app_assoc; reflexivity|]. split; [reflexivity|discriminate].
    + rewrite Hr. split; [rewrite <- app_assoc; reflexivity|].
      split; [reflexivity|discriminate].
  - simpl. split; [reflexivity|]. split; [reflexivity|reflexivity].
Qed.

Lemma prepare_allocated_trace
    state old m sz yi c age d r h (p : PSS) :
  let injected := negb (h_PRODUCT h) && h_evacuation_should_fail h in
  let result := prepare_allocated state old m sz yi c age d r h p in
  trace (snd result) = trace p ++ after_allocation injected old m d r sz c
  /\ cl_self (fst result) = injected
  /\ cl_target (fst result) = (if injected then old else r)
  /\ cl_dest_state (fst result) = d
  /\ cl_word_sz (fst result) = sz
  /\ cl_context (fst result) = c
  /\ cl_old (fst result) = old.
Proof.
  unfold prepare_allocated, after_allocation, prepare_failed, do_undo_allocation.
  destruct (negb (h_PRODUCT h) && h_evacuation_should_fail h); simpl.
  - rewrite <- app_assoc. repeat split; reflexivity.
  - repeat split; reflexivity.
Qed.

(** The events of [prepare], path by path. *)
Lemma prepare_trace state old m h (p : PSS) :
  let sz := o_size (Heap.obj h old) in
  let c := r_allocation_context
             (Heap.region h (Heap.heap_region_containing_raw h old)) in
  let d := fst (next_state p h state m 0) in
  let injected := negb (h_PRODUCT h) && h_evacuation_should_fail h in
  let req := fst (prepare state old m h p) in
  let evs := new_events p (snd (prepare state old m h p)) in
  trace (snd (prepare state old m h p)) = trace p ++ evs
  /\ cl_old req = old /\ cl_word_sz req = sz /\ cl_context req = c
  /\ ((exists r, r <> NULL
         /\ evs = [ev_plab_allocate d sz c r] ++ after_allocation injected old m d r sz c
         /\ cl_self req = injected /\ cl_dest_state req = d
         /\ cl_target req = (if injected then old else r))
      \/ (exists r, r <> NULL
         /\ evs = [ev_plab_allocate d sz c NULL;
                   ev_allocate_direct_or_new_plab d sz c r]
                  ++ after_allocation injected old m d r sz c
         /\ cl_self req = injected /\ cl_dest_state req = d
         /\ cl_target req = (if injected then old else r))
      \/ (exists r, r <> NULL /\ d = Young
         /\ evs = [ev_plab_allocate d sz c NULL;
                   ev_allocate_direct_or_new_plab d sz c NULL;
                   ev_allocate Old sz c r;
                   ev_allocate_in_next_plab state d sz c r]
                  ++ after_allocation injected old m Old r sz c
         /\ cl_self req = injected /\ cl_dest_state req = Old
         /\ cl_target req = (if injected then old else r))
      \/ (evs = [ev_plab_allocate d sz c NULL;
                 ev_allocate_direct_or_new_plab d sz c NULL]
                ++ (if InCSet.is_young d then [ev_allocate Old sz c NULL] else [])
                ++ [ev_allocate_in_next_plab state d sz c NULL;
                    ev_handle_evacuation_failure_par old m]
         /\ cl_self req = true /\ cl_target req = old)).
Proof.
  intros sz c d injected req evs.
  assert (Hgoal :
    exists evs0,
      trace (snd (prepare state old m h p)) = trace p ++ evs0
      /\ cl_old req = old /\ cl_word_sz req = sz /\ cl_context req = c
      /\ ((exists r, r <> NULL
             /\ evs0 = [ev_plab_allocate d sz c r] ++ after_allocation injected old m d r sz c
             /\ cl_self req = injected /\ cl_dest_state req = d
             /\ cl_target req = (if injected then old else r))
          \/ (exists r, r <> NULL
             /\ evs0 = [ev_plab_allocate d sz c NULL;
                       ev_allocate_direct_or_new_plab d sz c r]
                      ++ after_allocation injected old m d r sz c
             /\ cl_self req = injected /\ cl_dest_state req = d
             /\ cl_target req = (if injected then old else r))
          \/ (exists r, r <> NULL /\ d = Young
             /\ evs0 = [ev_plab_allocate d sz c NULL;
                       ev_allocate_direct_or_new_plab d sz c NULL;
                       ev_allocate Old sz c r;
                       ev_allocate_in_next_plab state d sz c r]
                      ++ after_allocation injected old m Old r sz c
             /\ cl_self req = injected /\ cl_dest_state req = Old
             /\ cl_target req = (if injected then old else r))
          \/ (evs0 = [ev_plab_allocate d sz c NULL;
                     ev_allocate_direct_or_new_plab d sz c NULL]
                    ++ (if InCSet.is_young d then [ev_allocate Old sz c NULL] else [])
                    ++ [ev_allocate_in_next_plab state d sz c NULL;
                        ev_handle_evacuation_failure_par old m]
             /\ cl_self req = true /\ cl_target req = old))).
  { subst req. unfold prepare. fold sz c. subst d.
    destruct (next_state p h state m 0) as [d age]. simpl fst.
    pose proof (do_plab_allocate_trace d sz c p) as T1.
    destruct (do_plab_allocate d sz c p) as [r1 p1]. simpl in T1.
    destruct (r1 =? NULL) eqn:N1.
    2:{ apply Z.eqb_neq in N1.
        destruct (prepare_allocated_trace state old m sz
                    (r_young_index_in_cset
                       (Heap.region h (Heap.heap_region_containing_raw h old)) + 1)
                    c age d r1 h p1) as (T & Hs & Ht & Hd & Hsz & Hc & Ho).
        fold injected in T, Hs, Ht.
        eexists. split; [rewrite T, T1, <- app_assoc; reflexivity|].
        repeat (split; [assumption|]).
        left. exists r1. repeat split; assumption. }
    apply Z.eqb_eq in N1. subst r1.
    pose proof (do_allocate_direct_or_new_plab_trace d sz c p1) as T2.
    destruct (do_allocate_direct_or_new_plab d sz c p1) as [r2 p2]. simpl in T2.
    destruct (r2 =? NULL) eqn:N2.
    2:{ apply Z.eqb_neq in N2.
        destruct (prepare_allocated_trace state old m sz
                    (r_young_index_in_cset
                       (Heap.region h (Heap.heap_region_containing_raw h old)) + 1)
                    c age d r2 h p2) as (T & Hs & Ht & Hd & Hsz & Hc & Ho).
        fold injected in T, Hs, Ht.
        eexists. split; [rewrite T, T2, T1, <- !app_assoc; reflexivity|].
        repeat (split; [assumption|]).
        right. left. exists r2. repeat split; assumption. }
    apply Z.eqb_eq in N2. subst r2.
    destruct (allocate_in_next_plab_trace state d sz c p2) as (T3 & D3 & Y3).
    destruct (allocate_in_next_plab state d sz c p2) as [[r3 d3] p3].
    simpl in T3, D3, Y3.
    destruct (r3 =? NULL) eqn:N3.
    - apply Z.eqb_eq in N3. subst r3. unfold prepare_failed. simpl.
      eexists. split; [rewrite T3, T2, T1, <- !app_assoc; simpl; reflexivity|].
      repeat (split; [reflexivity|]).
      right. right. right. split; [|split; reflexivity].
      rewrite <- ?app_assoc. reflexivity.
    - subst d3. apply Z.eqb_neq in N3.
      assert (Hy : d = Young).
      { destruct d; simpl in Y3; try (exfalso; apply N3; apply Y3; reflexivity).
        reflexivity. }
      destruct (prepare_allocated_trace state old m sz
                  (r_young_index_in_cset
                     (Heap.region h (Heap.heap_region_containing_raw h old)) + 1)
                  c age Old r3 h p3) as (T & Hs & Ht & Hd & Hsz & Hc & Ho).
      fold injected in T, Hs, Ht.
      eexists. split; [rewrite T, T3, T2, T1, <- !app_assoc; reflexivity|].
      repeat (split; [assumption|]).
      right. right. left. exists r3. subst d. simpl. repeat split; assumption. }
  destruct Hgoal as (evs0 & Htr & Hrest).
  assert (Hev : evs = evs0) by (subst evs; apply new_events_app; exact Htr).
  rewrite Hev. split; [exact Htr|exact Hrest].
Qed.

End PathFacts.

Section CompleteFacts.

Context {A : Type} {PA : G1PLABAllocator A} {SC : G1ParScanClosure}.

Abbreviation PSS := (G1ParScanThreadState A).

(** The events after the claim: an undo exactly on a lost claim for
    allocated memory, a copy exactly on a won one. *)
Lemma complete_trace req f h (p : PSS) :
  exists evs,
    trace (snd (complete req f h p))
    = trace p ++ ev_forward_to_atomic (cl_old req) (cl_target req) f :: evs
    /\ Forall (fun e => allocator_answer e = None) evs
    /\ List.filter is_undo evs
       = (if negb (cl_self req) && negb (f =? NULL)
          then [ev_undo_allocation (cl_dest_state req) (cl_target req)
                                   (cl_word_sz req) (cl_context req)]
          else [])
    /\ List.existsb is_copy evs = negb (cl_self req) && (f =? NULL)
    /\ List.filter is_allocation_step evs = [].
Proof.
  unfold complete.
  destruct (cl_self req) eqn:Hs; destruct (f =? NULL) eqn:Hf.
  - simpl. rewrite scan_object_fields. simpl.
    eexists [_]. split; [rewrite <- app_assoc; reflexivity|].
    split; [repeat constructor|]. repeat split; reflexivity.
  - simpl. exists []. repeat split; auto.
  - match goal with
    | |- context [copy_forwarded ?s ?o ?m ?sz ?yi ?ag ?d ?ob ?hh ?pp] =>
      destruct (copy_forwarded_outcome s o m sz yi ag d ob hh pp)
        as (h' & p' & E & _ & _ & _ & _ & _ & _ & _ & _ & _ & _ & _ & _ & _ & _ & Htr)
    end.
    rewrite E. simpl snd.
    destruct (_ && _); destruct Htr as (_ & _ & Htr); rewrite Htr, trace_emit.
    + eexists [_; _]. split; [rewrite <- app_assoc; reflexivity|].
      split; [repeat constructor|]. repeat split; reflexivity.
    + eexists [_; _; _]. split; [rewrite <- app_assoc; reflexivity|].
      split; [repeat constructor|]. repeat split; reflexivity.
  - simpl. eexists [_]. split; [rewrite <- app_assoc; reflexivity|].
    split; [repeat constructor|]. repeat split; reflexivity.
Qed.

(** On the self-forwarding path the answer, the heap and the queue depend
    on the request only through the object and its header, and on the
    worker only through its id and its queue. *)
Lemma complete_self_result req1 req2 f h (p1 p2 : PSS) :
  cl_self req1 = true -> cl_self req2 = true ->
  cl_old req1 = cl_old req2 -> cl_old_mark req1 = cl_old_mark req2 ->
  _worker_id p1 = _worker_id p2 -> _refs p1 = _refs p2 ->
  fst (complete req1 f h p1) = fst (complete req2 f h p2)
  /\ _refs (snd (complete req1 f h p1)) = _refs (snd (complete req2 f h p2)).
Proof.
  intros S1 S2 Ho Hm Hw Hq. unfold complete. rewrite S1, S2, Ho, Hm.
  destruct (f =? NULL); [|split; [reflexivity|exact Hq]].
  simpl. rewrite !scan_object_fields. simpl. rewrite Hw, Hq. split; reflexivity.
Qed.

(** Neither [prepare] nor a lost or self-forwarding [complete] touches the
    tables of the worker. *)
Lemma complete_tables req f h (p : PSS) :
  cl_self req = true \/ (f =? NULL) = false ->
  _age_table (snd (complete req f h p)) = _age_table p
  /\ _surviving_young_words (snd (complete req f h p)) = _surviving_young_words p.
Proof.
  intros Hcase. unfold complete.
  destruct (cl_self req); destruct (f =? NULL) eqn:Hf; simpl.
  - rewrite scan_object_fields. split; reflexivity.
  - split; reflexivity.
  - destruct Hcase; discriminate.
  - split; reflexivity.
Qed.

End CompleteFacts.

(** ** The order of the allocation attempts *)

Lemma filter_nil_Forall {X} (f : X -> bool) (l : list X) :
  List.filter f l = [] -> Forall (fun x => f x = false) l.
Proof.
  induction l as [|x l IH]; simpl; [constructor|].
  destruct (f x) eqn:Hx; [discriminate|]. intros H. constructor; auto.
Qed.

Section Allocation.

Context {A : Type} {PA : G1PLABAllocator A} {SC : G1ParScanClosure}.

Abbreviation PSS := (G1ParScanThreadState A).

(** The events of a whole call: those of [prepare], the claim, those of
    [complete]. *)
Lemma copy_to_survivor_space_events state old m h (p : PSS) :
  let req := fst (prepare state old m h p) in
  let p1 := snd (prepare state old m h p) in
  let f := fst (claim req h) in
  exists evs1 evs2,
    trace p1 = trace p ++ evs1
    /\ new_events p (snd (copy_to_survivor_space state old m h p))
       = evs1 ++ ev_forward_to_atomic old (cl_target req) f :: evs2
    /\ List.filter is_allocation_step evs2 = []
    /\ Forall (fun e => allocator_answer e = None) evs2
    /\ List.existsb won_claim evs2 = false
    /\ (f <> NULL ->
        evs2 = (if cl_self req then []
                else [ev_undo_allocation (cl_dest_state req) (cl_target req)
                                         (cl_word_sz req) (cl_context req)])).
Proof.
  intros req p1 f. subst req p1 f.
  rewrite copy_to_survivor_space_steps.
  destruct (prepare_outcome state old m h p)
    as (evs1 & d' & t & s & a' & t' & E & _).
  rewrite E. simpl fst. simpl snd.
  destruct (claim _ h) as [f h1] eqn:Ec. simpl fst.
  match goal with
  | |- context [complete ?r f h1 ?q] =>
    destruct (complete_events r f h1 q) as (evs2 & Htr & Hf & Ha & Hw & Hl)
  end.
  simpl in Htr, Hl.
  exists evs1, evs2. split; [reflexivity|]. split.
  - apply new_events_app. rewrite Htr, <- app_assoc. reflexivity.
  - auto.
Qed.

(** The first thing a call does is ask [plab_allocate] for memory of the
    class [next_state] computed. *)
Lemma prepare_first_answer state old m h (p : PSS) r rest :
  let sz := o_size (Heap.obj h old) in
  let c := r_allocation_context
             (Heap.region h (Heap.heap_region_containing_raw h old)) in
  let d := fst (next_state p h state m 0) in
  new_events p (snd (prepare state old m h p)) = ev_plab_allocate d sz c r :: rest ->
  r <> NULL ->
  fst (plab_allocate (_plab_allocator p) d sz c) = r.
Proof.
  intros sz c d Hev Hr.
  destruct (prepare_outcome state old m h p)
    as (evs & d' & t & s & a' & t' & E & _ & _ & _ & _ & _ & _ & _ & _ & _ & Hshape).
  rewrite E in Hev. simpl snd in Hev.
  match type of Hev with
  | new_events p ?q = _ => rewrite (new_events_app p q evs eq_refl) in Hev
  end.
  subst evs.
  simpl in Hshape.
  destruct Hshape as [(r1 & _ & Hl & Hs)|[(r2 & _ & Hs)|[(r3 & _ & Hs)|[_ Hs]]]];
    simpl in Hs; injection Hs as Hs _; try congruence.
  subst r. exact Hl.
Qed.

(** C2 (amended): [copy_to_survivor_space] asks for memory in this order
    and stops at the first answer that is not [NULL]: [plab_allocate] for the
    class [next_state] computed, then [allocate_direct_or_new_plab] for the
    same class, then [allocate_in_next_plab].  The object is handed to
    [handle_evacuation_failure_par] when all three answered [NULL], and also,
    in a non-product build, when memory was found but
    [evacuation_should_fail] fires: the memory just found is then given back
    to the allocator first, and the hand-over follows.  Otherwise the memory
    found is prefetched and claimed.  Nothing after the claim asks for memory
    or hands the object over, and a call that handed the object over gives no
    further memory back. *)
Theorem copy_to_survivor_space_allocation_order state old m h (p : PSS) :
  let sz := o_size (Heap.obj h old) in
  let c := r_allocation_context
             (Heap.region h (Heap.heap_region_containing_raw h old)) in
  let d := fst (next_state p h state m 0) in
  let injected := negb (h_PRODUCT h) && h_evacuation_should_fail h in
  let handed := ev_handle_evacuation_failure_par old m in
  let evs := new_events p (snd (copy_to_survivor_space state old m h p)) in
  exists f rest,
    let found dd r :=
      if injected
      then [ev_undo_allocation dd r sz c; handed; ev_forward_to_atomic old old f] ++ rest
      else [ev_prefetch_write r; ev_forward_to_atomic old r f] ++ rest in
    Forall (fun e => is_allocation_step e = false /\ allocator_answer e = None) rest
    /\ (In handed evs -> List.filter is_undo rest = [])
    /\ ((exists r1, r1 <> NULL
           /\ fst (plab_allocate (_plab_allocator p) d sz c) = r1
           /\ evs = [ev_plab_allocate d sz c r1] ++ found d r1)
        \/ (exists r2, r2 <> NULL
           /\ evs = [ev_plab_allocate d sz c NULL;
                     ev_allocate_direct_or_new_plab d sz c r2] ++ found d r2)
        \/ (exists r3, r3 <> NULL /\ d = Young
           /\ evs = [ev_plab_allocate d sz c NULL;
                     ev_allocate_direct_or_new_plab d sz c NULL;
                     ev_allocate Old sz c r3;
                     ev_allocate_in_next_plab state d sz c r3] ++ found Old r3)
        \/ evs = [ev_plab_allocate d sz c NULL;
                  ev_allocate_direct_or_new_plab d sz c NULL]
                 ++ (if InCSet.is_young d then [ev_allocate Old sz c NULL] else [])
                 ++ [ev_allocate_in_next_plab state d sz c NULL;
                     handed; ev_forward_to_atomic old old f] ++ rest).
Proof.
  intros sz c d injected handed evs.
  destruct (prepare_trace state old m h p) as (Htr & Hold & _ & _ & Hcases).
  fold sz c d injected in Hcases.
  pose proof (prepare_first_answer state old m h p) as Hfirst.
  fold sz c d in Hfirst.
  assert (Hevs : exists f rest,
             evs = new_events p (snd (prepare state old m h p))
                   ++ ev_forward_to_atomic old
                        (cl_target (fst (prepare state old m h p))) f :: rest
             /\ Forall (fun e => is_allocation_step e = false
                                 /\ allocator_answer e = None) rest
             /\ (cl_self (fst (prepare state old m h p)) = true ->
                 List.filter is_undo rest = [])).
  { subst evs. rewrite copy_to_survivor_space_steps.
    destruct (prepare state old m h p) as [req p1]. simpl fst in *. simpl snd in *.
    destruct (claim req h) as [f h1].
    destruct (complete_trace req f h1 p1) as (rest & Hc & Hans & Hundo & _ & Hsteps).
    exists f, rest. split.
    - apply new_events_app. rewrite Hc, Htr, <- app_assoc, Hold. reflexivity.
    - split.
      + apply filter_nil_Forall in Hsteps.
        rewrite Forall_forall in Hsteps, Hans |- *.
        intros e He. split; [apply Hsteps|apply Hans]; exact He.
      + intros Hs. rewrite Hs in Hundo. exact Hundo. }
  destruct Hevs as (f & rest & Hevs & Hquiet & Hself).
  exists f, rest. cbv zeta.
  split; [exact Hquiet|].
  set (found := fun dd r =>
         if injected
         then [ev_undo_allocation dd r sz c; handed; ev_forward_to_atomic old old f] ++ rest
         else [ev_prefetch_write r; ev_forward_to_atomic old r f] ++ rest).
  assert (Hfound : forall dd r,
             after_allocation injected old m dd r sz c
             ++ ev_forward_to_atomic old (if injected then old else r) f :: rest
             = found dd r).
  { intros dd r. unfold found, after_allocation. destruct injected; reflexivity. }
  assert (Hno : forall dd r, injected = false -> In handed
                  (after_allocation injected old m dd r sz c
                   ++ ev_forward_to_atomic old r f :: rest) -> False).
  { intros dd r Hi Hin. rewrite Hi in Hin. simpl in Hin.
    destruct Hin as [Hin|[Hin|Hin]]; [discriminate Hin|discriminate Hin|].
    rewrite Forall_forall in Hquiet.
    destruct (Hquiet handed ltac:(apply list_elem_of_In; exact Hin)) as [Hq _].
    discriminate Hq. }
  destruct Hcases as [(r & Hr & He & Hs & _ & Ht)
                     |[(r & Hr & He & Hs & _ & Ht)
                      |[(r & Hr & Hd & He & Hs & _ & Ht)|(He & Hs & Ht)]]];
    rewrite He, Ht in Hevs; rewrite Hs in Hself.
  - split.
    + intros Hin. destruct injected eqn:Hi; [auto|]. exfalso.
      rewrite Hevs, <- app_assoc in Hin.
      destruct Hin as [Hin|Hin]; [discriminate Hin|]. eapply Hno; eauto.
    + left. exists r. split; [exact Hr|]. split.
      * eapply Hfirst; [rewrite He; reflexivity|exact Hr].
      * rewrite Hevs, <- app_assoc, Hfound. reflexivity.
  - split.
    + intros Hin. destruct injected eqn:Hi; [auto|]. exfalso.
      rewrite Hevs, <- app_assoc in Hin.
      destruct Hin as [Hin|[Hin|Hin]]; [discriminate Hin|discriminate Hin|].
      eapply Hno; eauto.
    + right. left. exists r. split; [exact Hr|].
      rewrite Hevs, <- app_assoc, Hfound. reflexivity.
  - split.
    + intros Hin. destruct injected eqn:Hi; [auto|]. exfalso.
      rewrite Hevs, <- app_assoc in Hin.
      destruct Hin as [Hin|[Hin|[Hin|[Hin|Hin]]]]; try discriminate Hin.
      eapply Hno; eauto.
    + right. right. left. exists r. split; [exact Hr|]. split; [exact Hd|].
      rewrite Hevs, <- app_assoc, Hfound. reflexivity.
  - split; [intros _; auto|].
    right. right. right. rewrite Hevs, <- !app_assoc. reflexivity.
Qed.

End Allocation.

(** C2, as stated, fails: in a non-product build with
    [evacuation_should_fail] firing, [plab_allocate] answers 2048 and the
    object is handed to the evacuation-failure handler all the same. *)
Lemma hands_over_with_memory_found :
  ~ hands_over_only_when_exhausted (SC := Scenario.one_field_scanner)
      Young 64 (Scenario.neutral_mark 2) (Scenario.heap false true)
      (Scenario.pss 0 5 (Scenario.allocator 100 100 100)).
Proof.
  unfold hands_over_only_when_exhausted.
  assert (E : new_events
                (Scenario.pss 0 5 (Scenario.allocator 100 100 100))
                (snd (copy_to_survivor_space (SC := Scenario.one_field_scanner)
                        Young 64 (Scenario.neutral_mark 2) (Scenario.heap false true)
                        (Scenario.pss 0 5 (Scenario.allocator 100 100 100))))
              = [ev_plab_allocate Young 4 0 2048;
                 ev_undo_allocation Young 2048 4 0;
                 ev_handle_evacuation_failure_par 64 (Scenario.neutral_mark 2);
                 ev_forward_to_atomic 64 64 0;
                 ev_oop_iterate_backwards 0 64]).
  { vm_compute. reflexivity. }
  rewrite E. clear E. intros Hc.
  specialize (Hc ltac:(simpl; auto) (ev_plab_allocate Young 4 0 2048) Young 4 0 2048
                 ltac:(simpl; auto) eq_refl).
  discriminate Hc.
Qed.

(** ** The tenuring policy *)

Section Policy.

Context {A : Type} {PA : G1PLABAllocator A} {SC : G1ParScanClosure}.

Abbreviation PSS := (G1ParScanThreadState A).

(** C3: for every state and header, [next_state] on a young state writes
  the header's age (the displaced copy's when the header is displaced) into
  [age] and keeps the state while that age is below the tenuring threshold;
  in every other case it answers the entry of the destination map, which
  the constructor set to not-in-set -> not-in-set, young -> old,
  old -> old, so an old state never becomes young again. *)
Theorem next_state_policy (p : PSS) h state m age0 :
constructed p ->
let age := Heap.age_of_mark h m in
let result := next_state p h state m age0 in
(state = Young ->
   snd result = age
   /\ (age < _tenuring_threshold p -> fst result = Young)
   /\ (_tenuring_threshold p <= age -> fst result = dest p Young))
/\ (state <> Young -> fst result = dest p state /\ snd result = age0)
/\ dest p NotInCSet = NotInCSet
/\ dest p Young = Old
/\ dest p Old = Old
/\ (state = Old -> fst result = Old).
Proof.
intros Hc age result.
destruct (constructed_dest p Hc) as [Hd _].
assert (Hdest : forall s, dest p s = match s with NotInCSet => NotInCSet | _ => Old end).
{ intros s. unfold dest. rewrite Hd. destruct s; reflexivity. }
subst result age. unfold next_state, Heap.age_of_mark.
split.
{ intros ->. simpl. split; [destruct (_ <? _); reflexivity|]. split.
  - intros Hlt. apply Z.ltb_lt in Hlt. rewrite Hlt. reflexivity.
  - intros Hge. apply Z.ltb_ge in Hge. rewrite Hge. reflexivity. }
split.
{ intros Hne. destruct state; simpl; try congruence; split; reflexivity. }
split; [apply Hdest|]. split; [apply Hdest|]. split; [apply Hdest|].
intros ->. simpl. apply Hdest.
Qed.



End Policy.

Lemma scenario_constructed worker_id threshold a :
  constructed (SC := Scenario.one_field_scanner) (Scenario.pss worker_id threshold a).
Proof. eexists _, _, _, _, _, _. apply evolves_refl. Qed.

Lemma next_state_policy_witness :
  constructed (SC := Scenario.one_field_scanner)
    (Scenario.pss 0 5 (Scenario.allocator 100 100 100))
  /\ next_state (Scenario.pss 0 5 (Scenario.allocator 100 100 100))
       (Scenario.heap true false) Young (Scenario.neutral_mark 2) 0
     = (Young, 2).
Proof.
  split; [apply scenario_constructed|].
  pose proof (next_state_policy (SC := Scenario.one_field_scanner)
                (Scenario.pss 0 5 (Scenario.allocator 100 100 100))
                (Scenario.heap true false) Young (Scenario.neutral_mark 2) 0
                (scenario_constructed _ _ _)) as [Hy _].
  destruct (Hy eq_refl) as (Hage & Hstay & _).
  specialize (Hstay ltac:(vm_compute; reflexivity)).
  destruct (next_state _ _ _ _ _) as [s a].
  simpl in Hage, Hstay. subst s a. vm_compute. reflexivity.
Defined.


(** ** The claim *)

Lemma last_allocation_app_none (l1 l2 : list event) :
  Forall (fun e => allocator_answer e = None) l2 ->
  last_allocation (l1 ++ l2) = last_allocation l1.
Proof.
  intros Hn. induction l1 as [|e l1 IH]; simpl.
  - induction Hn as [|e l2 He _ IH]; simpl; [reflexivity|]. rewrite IH. exact He.
  - rewrite IH. reflexivity.
Qed.

Lemma existsb_app_false {X} (f : X -> bool) (l1 l2 : list X) :
  List.existsb f l1 = false -> List.existsb f l2 = false ->
  List.existsb f (l1 ++ l2) = false.
Proof. intros H1 H2. rewrite List.existsb_app, H1, H2. reflexivity. Qed.

Section Claim.

Context {A : Type} {PA : G1PLABAllocator A} {SC : G1ParScanClosure}.

Abbreviation PSS := (G1ParScanThreadState A).

Lemma reaches_claim_self state old m h (p : PSS) :
  reaches_claim state old m h p <-> cl_self (fst (prepare state old m h p)) = false.
Proof.
  unfold reaches_claim.
  destruct (copy_to_survivor_space_events state old m h p)
    as (evs1 & evs2 & Htr & Hnew & Hf & _).
  destruct (prepare_outcome state old m h p)
    as (evs & d' & t & s & a' & t' & E & Hself & Hnot & _ & _ & _ & _ & _ & _ & _ & Hshape).
  rewrite E in Htr. simpl in Htr. apply app_inv_head in Htr. subst evs.
  rewrite Hnew, E. simpl fst. simpl cl_self. clear Hnew E.
  split.
  - intros Hn. destruct s; [|reflexivity].
    exfalso. apply Hn. apply in_or_app. left. apply Hself. reflexivity.
  - intros -> Hin.
    destruct (Hnot eq_refl) as (_ & Hinj & _).
    assert (Hin' : In (ev_handle_evacuation_failure_par old m)
                      (List.filter is_allocation_step evs1)).
    { apply in_app_or in Hin. destruct Hin as [Hin|[Hin|Hin]].
      - apply List.filter_In. split; [exact Hin|reflexivity].
      - discriminate Hin.
      - assert (Hin2 : In (ev_handle_evacuation_failure_par old m)
                          (List.filter is_allocation_step evs2)).
        { apply List.filter_In. split; [exact Hin|reflexivity]. }
        rewrite Hf in Hin2. destruct Hin2. }
    rewrite Hinj in Hshape.
    destruct Hshape as [(r1 & _ & _ & Hs)|[(r2 & _ & Hs)|[(r3 & _ & Hs)|[Hs _]]]];
      try discriminate Hs;
      rewrite Hs in Hin'; simpl in Hin';
      repeat (destruct Hin' as [Hin'|Hin']; [discriminate Hin'|]); destruct Hin'.
Qed.

(** A call whose claim finds the header already forwarded. *)
Lemma lost_claim_outcome state old m h (p : PSS) :
  reaches_claim state old m h p ->
  markOopDesc.is_marked (Heap.mark h old) = true ->
  markOopDesc.decode_pointer (Heap.mark h old) <> NULL ->
  let sz := o_size (Heap.obj h old) in
  let c := r_allocation_context
             (Heap.region h (Heap.heap_region_containing_raw h old)) in
  let target := markOopDesc.decode_pointer (Heap.mark h old) in
  exists pre d ptr a1 t',
    copy_to_survivor_space state old m h p
    = (target, h,
       mkPSS (_refs p) (_worker_id p) (_term_attempts p) t'
             (_age_table p) (_surviving_young_words p)
             (undo_allocation a1 d ptr sz c)
             (_dest p) (_start p) (_strong_roots_time p) (_term_time p)
             (trace p ++ pre ++ [ev_prefetch_write ptr;
                                 ev_forward_to_atomic old ptr target;
                                 ev_undo_allocation d ptr sz c]))
    /\ a1 = _plab_allocator (snd (prepare state old m h p))
    /\ last_allocation pre = Some (d, sz, c, ptr)
    /\ ptr <> NULL
    /\ (t' = _tenuring_threshold p
        \/ (t' = 0 /\ In (ev_allocate Old sz c ptr) pre))
    /\ List.existsb is_copy pre = false
    /\ List.existsb is_scan pre = false
    /\ List.existsb is_set_mark pre = false.
Proof.
  intros Hreach Hm Hnn sz c target.
  apply reaches_claim_self in Hreach.
  rewrite copy_to_survivor_space_steps.
  destruct (prepare_outcome state old m h p)
    as (evs & d' & t & s & a' & t' & E & _ & Hnot & Hthr & _ & Hc & Hs & Hsm & _).
  rewrite E in Hreach |- *. simpl in Hreach. subst s.
  destruct (Hnot eq_refl) as (Hptr & Hinj & pre & -> & Hlast).
  unfold claim. simpl cl_old. simpl cl_target.
  rewrite forward_to_atomic_lost by assumption. fold target.
  unfold complete. simpl cl_self. cbv iota.
  apply Z.eqb_neq in Hnn. fold target in Hnn. rewrite Hnn.
  exists pre, d', t, a', t'.
  split.
  { f_equal. apply pss_ext; try reflexivity.
    simpl. rewrite <- !app_assoc. reflexivity. }
  split; [reflexivity|]. split; [exact Hlast|]. split; [exact Hptr|].
  rewrite List.existsb_app in Hc, Hs, Hsm. simpl in Hc, Hs, Hsm.
  rewrite orb_false_r in Hc, Hs, Hsm.
  split; [|auto].
  destruct Hthr as [Ht|[(Ht & _ & _ & Hin & _)|(_ & _ & Hi)]]; [auto| |congruence].
  right. split; [exact Ht|].
  apply in_app_or in Hin. destruct Hin as [Hin|[Hin|[]]]; [exact Hin|discriminate Hin].
Qed.

(** A call whose claim installs the forwarding marker. *)
Lemma won_claim_outcome state old m h (p : PSS) :
  reaches_claim state old m h p ->
  markOopDesc.is_marked (Heap.mark h old) = false ->
  let o := Heap.obj h old in
  let sz := o_size o in
  let r := Heap.heap_region_containing_raw h old in
  let yi := r_young_index_in_cset (Heap.region h r) + 1 in
  let c := r_allocation_context (Heap.region h r) in
  let age := snd (next_state p h state m 0) in
  let chunked := o_is_objArray o && (h_ParGCArrayScanChunk h <=? o_length o) in
  exists pre d obj h' p',
    copy_to_survivor_space state old m h p = (obj, h', p')
    /\ last_allocation pre = Some (d, sz, c, obj)
    /\ obj <> NULL
    /\ List.existsb is_scan pre = false
    /\ (d = fst (next_state p h state m 0)
        \/ (fst (next_state p h state m 0) = Young /\ d = Old))
    /\ Heap.mark h' obj = installed_mark d m age
    /\ o_is_objArray (Heap.obj h' obj) = o_is_objArray o
    /\ o_size (Heap.obj h' obj) = o_size o
    /\ (obj <> old ->
        Heap.obj h' old
        = mkOop (markOopDesc.encode_pointer_as_mark obj)
                (o_is_objArray o) (o_length o) (o_size o))
    /\ h_displaced h'
       = (if InCSet.is_young d && markOopDesc.has_displaced_mark_helper m
          then <[m := markOopDesc.set_age (Heap.displaced_mark_helper h m) (aged age)]>
                 (h_displaced h)
          else h_displaced h)
    /\ _age_table p'
       = (if InCSet.is_young d then _age_table (age_table_add (aged age) sz p)
          else _age_table p)
    /\ _surviving_young_words p'
       = _surviving_young_words (add_surviving_young_words yi sz p)
    /\ (if chunked
        then o_length (Heap.obj h' obj) = 0
             /\ _refs p' = Queue.push (set_partial_array_mask old) (_refs p)
             /\ new_events p p'
                = pre ++ [ev_prefetch_write obj;
                          ev_forward_to_atomic old obj NULL;
                          ev_copy_words old obj sz;
                          ev_set_mark obj (installed_mark d m age)]
        else o_length (Heap.obj h' obj) = o_length o
             /\ _refs p'
                = fold_left (fun q t => Queue.push t q)
                    (discovered_refs h' (Heap.heap_region_containing_raw h' obj) obj)
                    (_refs p)
             /\ new_events p p'
                = pre ++ [ev_prefetch_write obj;
                          ev_forward_to_atomic old obj NULL;
                          ev_copy_words old obj sz;
                          ev_set_mark obj (installed_mark d m age);
                          ev_oop_iterate_backwards
                            (Heap.heap_region_containing_raw h' obj) obj]).
Proof.
  intros Hreach Hm o sz r yi c age chunked.
  apply reaches_claim_self in Hreach.
  rewrite copy_to_survivor_space_steps.
  destruct (prepare_outcome state old m h p)
    as (evs & d' & t & s & a' & t' & E & _ & Hnot & _ & Hd & _ & Hs & _).
  rewrite E in Hreach |- *. simpl in Hreach. subst s.
  destruct (Hnot eq_refl) as (Hptr & Hinj & pre & -> & Hlast).
  rewrite List.existsb_app in Hs. simpl in Hs. rewrite orb_false_r in Hs.
  unfold claim. simpl cl_old. simpl cl_target.
  rewrite forward_to_atomic_won by assumption.
  unfold complete. simpl cl_self. cbv iota. simpl (NULL =? NULL). cbv iota.
  simpl cl_state. simpl cl_old. simpl cl_old_mark. simpl cl_word_sz. simpl cl_young_index.
  simpl cl_age. simpl cl_dest_state. simpl cl_target.
  fold sz r yi c age.
  set (h1 := Heap.set_mark old (markOopDesc.encode_pointer_as_mark t) h).
  match goal with
  | |- context [copy_forwarded state old m ?sz0 ?yi0 ?age0 d' t h1 ?pp] =>
    destruct (copy_forwarded_outcome state old m sz0 yi0 age0 d' t h1 pp)
      as (h' & p' & Ecf & Hmark & Harr & Hsz & Hold & Hdis & _ & _ & _ & Hat & Hsv
          & _ & _ & _ & _ & Hch)
  end.
  assert (Ho1 : Heap.obj h1 old
                = mkOop (markOopDesc.encode_pointer_as_mark t)
                        (o_is_objArray o) (o_length o) (o_size o)).
  { subst h1. apply obj_set_mark. }
  rewrite Ho1 in Harr, Hsz, Hold, Hch. simpl in Harr, Hsz, Hch.
  change (h_ParGCArrayScanChunk h1) with (h_ParGCArrayScanChunk h) in Hch.
  change (h_displaced h1) with (h_displaced h) in Hdis.
  change (Heap.displaced_mark_helper h1 m) with (Heap.displaced_mark_helper h m) in Hdis.
  fold chunked in Hch.
  exists pre, d', t, h', p'.
  split; [exact Ecf|]. split; [exact Hlast|]. split; [exact Hptr|].
  split; [exact Hs|]. split; [exact Hd|]. split; [exact Hmark|]. split; [exact Harr|].
  split; [exact Hsz|]. split; [exact Hold|]. split; [exact Hdis|].
  split; [exact Hat|]. split; [exact Hsv|].
  destruct chunked; destruct Hch as (Hlen & Hrefs & Htr);
    (split; [exact Hlen|]); (split; [exact Hrefs|]);
    apply new_events_app; rewrite Htr; simpl; rewrite <- !app_assoc; reflexivity.
Qed.

End Claim.

(** ** A copy that wins its claim *)

Lemma aged_min age :
  0 <= age <= markOopDesc.max_age -> aged age = Z.min (age + 1) markOopDesc.max_age.
Proof.
  intros Ha. unfold aged.
  destruct (Z.ltb_spec age markOopDesc.max_age); lia.
Qed.

Lemma age_of_mark_range h m : 0 <= Heap.age_of_mark h m <= markOopDesc.max_age.
Proof. unfold Heap.age_of_mark. destruct (negb _); apply age_range. Qed.

Section WonClaim.

Context {A : Type} {PA : G1PLABAllocator A} {SC : G1ParScanClosure}.

Abbreviation PSS := (G1ParScanThreadState A).

(** C4: for every copy that wins its claim, when the memory is young the
    age read back from the copy's header is min(source age + 1, max_age) and
    that is the slot of the age table the object's size is added to; when
    the memory is not young the copy gets the original header, and neither a
    displaced header nor the age table is touched. *)
Theorem winning_copy_age state old m h (p : PSS) :
  constructed p ->
  reaches_claim state old m h p ->
  markOopDesc.is_marked (Heap.mark h old) = false ->
  let result := copy_to_survivor_space state old m h p in
  let obj := fst (fst result) in
  let h' := snd (fst result) in
  let p' := snd result in
  let sz := o_size (Heap.obj h old) in
  let new_age := Z.min (Heap.age_of_mark h m + 1) markOopDesc.max_age in
  exists d c,
    last_allocation (new_events p p') = Some (d, sz, c, obj)
    /\ (d = Young ->
        Heap.age_of_mark h' (Heap.mark h' obj) = new_age
        /\ (Z.to_nat new_age < length (_age_table p))%nat
        /\ _age_table p'
           = <[Z.to_nat new_age := size_t_add (_age_table p !!! Z.to_nat new_age) sz]>
               (_age_table p))
    /\ (d <> Young ->
        Heap.mark h' obj = m
        /\ h_displaced h' = h_displaced h
        /\ _age_table p' = _age_table p).
Proof.
  intros Hc Hreach Hm result obj h' p' sz new_age.
  destruct (won_claim_outcome state old m h p Hreach Hm)
    as (pre & d & obj0 & h0 & p0 & E & Hlast & _ & _ & Hd & Hmark & _ & _ & _
        & Hdis & Hat & _ & Hch).
  subst obj h' p' result. rewrite E. simpl fst. simpl snd.
  exists d, (r_allocation_context
               (Heap.region h (Heap.heap_region_containing_raw h old))).
  split.
  { destruct (o_is_objArray _ && (_ <=? _)); destruct Hch as (_ & _ & Htr);
      rewrite Htr;
      (rewrite last_allocation_app_none; [exact Hlast|repeat constructor]). }
  destruct (constructed_dest p Hc) as [Hdest Hlen].
  split.
  - intros ->.
    assert (Hst : snd (next_state p h state m 0) = Heap.age_of_mark h m).
    { destruct Hd as [Hd|[_ Hd]]; [|discriminate Hd].
      unfold next_state, Heap.age_of_mark in *.
      destruct state; simpl in *.
      - unfold dest in Hd. rewrite Hdest in Hd. discriminate Hd.
      - destruct (_ <? _); reflexivity.
      - unfold dest in Hd. rewrite Hdest in Hd. discriminate Hd. }
    rewrite Hst in *.
    pose proof (age_of_mark_range h m) as Hr.
    rewrite aged_min in * by assumption. fold new_age in Hmark, Hdis, Hat |- *.
    assert (Hnr : 0 <= new_age <= markOopDesc.max_age) by (subst new_age; lia).
    split; [|split].
    + rewrite Hmark. unfold installed_mark. simpl InCSet.is_young. cbv iota.
      destruct (markOopDesc.has_displaced_mark_helper m) eqn:Hdm.
      * unfold Heap.age_of_mark at 1. rewrite Hdm. simpl negb. cbv iota.
        unfold Heap.displaced_mark_helper at 1. rewrite Hdis. simpl.
        rewrite lookup_total_insert_eq. apply age_set_age. exact Hnr.
      * rewrite aged_min by assumption.
        unfold Heap.age_of_mark at 1. rewrite has_displaced_set_age, Hdm.
        simpl negb. cbv iota. apply age_set_age. exact Hnr.
    + rewrite Hlen. change markOopDesc.max_age with 15 in *. lia.
    + rewrite Hat. reflexivity.
  - intros Hny.
    assert (Hy : InCSet.is_young d = false) by (destruct d; [reflexivity|congruence|reflexivity]).
    rewrite Hy in *. simpl in Hdis.
    split; [|auto]. rewrite Hmark. unfold installed_mark. rewrite Hy. reflexivity.
Qed.

(** C7 (amended): for every copy that wins its claim, when the object is
    an object array whose length is at least [ParGCArrayScanChunk] the copy
    is not scanned: its length field is set to 0, the source keeps the true
    length, and the source pointer with the partial-array mask is pushed on
    the queue; every other object (not an object array, or shorter than
    [ParGCArrayScanChunk]) is scanned at once, in its new region. *)
Theorem winning_copy_scan_or_chunk state old m h (p : PSS) :
  reaches_claim state old m h p ->
  markOopDesc.is_marked (Heap.mark h old) = false ->
  let result := copy_to_survivor_space state old m h p in
  let obj := fst (fst result) in
  let h' := snd (fst result) in
  let p' := snd result in
  let o := Heap.obj h old in
  if o_is_objArray o && (h_ParGCArrayScanChunk h <=? o_length o)
  then List.existsb is_scan (new_events p p') = false
       /\ o_length (Heap.obj h' obj) = 0
       /\ (obj <> old -> o_length (Heap.obj h' old) = o_length o)
       /\ _refs p' = Queue.push (set_partial_array_mask old) (_refs p)
       /\ has_partial_array_mask (set_partial_array_mask old) = true
  else List.existsb is_scan (new_events p p') = true
       /\ In (ev_oop_iterate_backwards (Heap.heap_region_containing_raw h' obj) obj)
             (new_events p p')
       /\ o_length (Heap.obj h' obj) = o_length o
       /\ _refs p'
          = fold_left (fun q t => Queue.push t q)
              (discovered_refs h' (Heap.heap_region_containing_raw h' obj) obj)
              (_refs p).
Proof.
  intros Hreach Hm result obj h' p' o.
  destruct (won_claim_outcome state old m h p Hreach Hm)
    as (pre & d & obj0 & h0 & p0 & E & _ & _ & Hs & _ & _ & _ & _ & Hold & _ & _ & _ & Hch).
  subst obj h' p' result. rewrite E. simpl fst. simpl snd. fold o in Hch, Hold.
  destruct (o_is_objArray _ && (_ <=? _));
    destruct Hch as (Hlen & Hrefs & Htr); rewrite Htr.
  - split; [apply existsb_app_false; [exact Hs|reflexivity]|].
    split; [exact Hlen|]. split; [|split; [exact Hrefs|reflexivity]].
    intros Hne. rewrite (Hold Hne). reflexivity.
  - split; [rewrite List.existsb_app; simpl; apply orb_true_r|].
    split; [apply in_or_app; right; simpl; auto 10|].
    split; [exact Hlen|exact Hrefs].
Qed.

End WonClaim.

Lemma winning_copy_age_witness :
  let p := Scenario.pss 0 5 (Scenario.allocator 100 100 100) in
  let h := Scenario.heap true false in
  let m := Scenario.neutral_mark 2 in
  let result := copy_to_survivor_space (SC := Scenario.one_field_scanner) Young 64 m h p in
  constructed (SC := Scenario.one_field_scanner) p
  /\ reaches_claim (SC := Scenario.one_field_scanner) Young 64 m h p
  /\ markOopDesc.is_marked (Heap.mark h 64) = false
  /\ Heap.age_of_mark (snd (fst result)) (Heap.mark (snd (fst result)) (fst (fst result))) = 3.
Proof.
  intros p h m result.
  assert (Hr : reaches_claim (SC := Scenario.one_field_scanner) Young 64 m h p).
  { unfold reaches_claim. vm_compute. intuition discriminate. }
  assert (Hm : markOopDesc.is_marked (Heap.mark h 64) = false) by (vm_compute; reflexivity).
  split; [apply scenario_constructed|]. split; [exact Hr|]. split; [exact Hm|].
  destruct (winning_copy_age (SC := Scenario.one_field_scanner) Young 64 m h p
              (scenario_constructed _ _ _) Hr Hm) as (d & c & Hlast & Hy & _).
  assert (Hd : d = Young).
  { vm_compute in Hlast. injection Hlast as <- _. reflexivity. }
  destruct (Hy Hd) as (Hage & _). fold result in Hage. rewrite Hage.
  vm_compute. reflexivity.
Defined.

Lemma winning_copy_scan_or_chunk_witness :
  let p := Scenario.pss 0 5 (Scenario.allocator 100 100 100) in
  let h := Scenario.heap true false in
  let m := Scenario.neutral_mark 1 in
  let result := copy_to_survivor_space (SC := Scenario.one_field_scanner) Young 128 m h p in
  reaches_claim (SC := Scenario.one_field_scanner) Young 128 m h p
  /\ markOopDesc.is_marked (Heap.mark h 128) = false
  /\ o_length (Heap.obj (snd (fst result)) (fst (fst result))) = 0
  /\ _refs (snd result) = Queue.push (PartialArray 128) (_refs p).
Proof.
  intros p h m result.
  assert (Hr : reaches_claim (SC := Scenario.one_field_scanner) Young 128 m h p).
  { unfold reaches_claim. vm_compute. intuition discriminate. }
  assert (Hm : markOopDesc.is_marked (Heap.mark h 128) = false) by (vm_compute; reflexivity).
  split; [exact Hr|]. split; [exact Hm|].
  pose proof (winning_copy_scan_or_chunk (SC := Scenario.one_field_scanner)
                Young 128 m h p Hr Hm) as H.
  assert (Hc : o_is_objArray (Heap.obj h 128)
               && (h_ParGCArrayScanChunk h <=? o_length (Heap.obj h 128)) = true)
    by (vm_compute; reflexivity).
  cbv zeta in H. rewrite Hc in H.
  destruct H as (_ & Hlen & _ & Hrefs & _). split; [exact Hlen|exact Hrefs].
Defined.

(** C7, as stated, fails at the boundary: an object array of exactly
    [ParGCArrayScanChunk] = 50 elements does not exceed the threshold, yet
    its copy is not scanned. *)
Lemma array_of_threshold_length_not_scanned :
  ~ scans_unless_length_exceeds (SC := Scenario.one_field_scanner)
      Young 128 (Scenario.neutral_mark 1) (Scenario.heap true false)
      (Scenario.pss 0 5 (Scenario.allocator 100 100 100)).
Proof.
  unfold scans_unless_length_exceeds. intros Hc.
  assert (Hr : reaches_claim (SC := Scenario.one_field_scanner) Young 128
                 (Scenario.neutral_mark 1) (Scenario.heap true false)
                 (Scenario.pss 0 5 (Scenario.allocator 100 100 100))).
  { unfold reaches_claim. vm_compute. intuition discriminate. }
  specialize (Hc Hr ltac:(vm_compute; reflexivity)).
  vm_compute in Hc. discriminate Hc.
Qed.

(** ** A copy that loses its claim *)

Section LostClaim.

Context {A : Type} {PA : G1PLABAllocator A} {SC : G1ParScanClosure}.

Abbreviation PSS := (G1ParScanThreadState A).

(** A call that is not handed over, attempt by attempt: which attempt
    found the memory, the allocator that attempt left, and the tenuring
    threshold, which only the third attempt changes. *)
Lemma prepare_found state old m h (p : PSS) :
  let sz := o_size (Heap.obj h old) in
  let c := r_allocation_context
             (Heap.region h (Heap.heap_region_containing_raw h old)) in
  let d := fst (next_state p h state m 0) in
  let first := plab_allocate (_plab_allocator p) d sz c in
  let second := allocate_direct_or_new_plab (snd first) d sz c in
  let third := allocate (snd second) Old sz c in
  let req := fst (prepare state old m h p) in
  let p1 := snd (prepare state old m h p) in
  cl_self req = false ->
  (fst first <> NULL
   /\ cl_target req = fst first /\ cl_dest_state req = d
   /\ _plab_allocator p1 = snd first
   /\ _tenuring_threshold p1 = _tenuring_threshold p
   /\ trace p1 = trace p ++ [ev_plab_allocate d sz c (fst first);
                             ev_prefetch_write (fst first)])
  \/ (fst first = NULL /\ fst second <> NULL
      /\ cl_target req = fst second /\ cl_dest_state req = d
      /\ _plab_allocator p1 = snd second
      /\ _tenuring_threshold p1 = _tenuring_threshold p
      /\ trace p1 = trace p ++ [ev_plab_allocate d sz c NULL;
                                ev_allocate_direct_or_new_plab d sz c (fst second);
                                ev_prefetch_write (fst second)])
  \/ (fst first = NULL /\ fst second = NULL /\ d = Young /\ fst third <> NULL
      /\ cl_target req = fst third /\ cl_dest_state req = Old
      /\ _plab_allocator p1 = snd third
      /\ _tenuring_threshold p1 = 0
      /\ trace p1 = trace p ++ [ev_plab_allocate d sz c NULL;
                                ev_allocate_direct_or_new_plab d sz c NULL;
                                ev_allocate Old sz c (fst third);
                                ev_allocate_in_next_plab state d sz c (fst third);
                                ev_prefetch_write (fst third)]).
Proof.
  intros sz c d first second third req p1. subst req p1 first second third d.
  unfold prepare. fold sz c.
  destruct (next_state p h state m 0) as [d age]. simpl fst.
  unfold do_plab_allocate.
  destruct (plab_allocate (_plab_allocator p) d sz c) as [r1 a1]. simpl fst. simpl snd.
  destruct (r1 =? NULL) eqn:N1.
  2:{ apply Z.eqb_neq in N1. unfold prepare_allocated, prepare_failed.
      destruct (negb (h_PRODUCT h) && h_evacuation_should_fail h);
        [intros Hs; discriminate Hs|intros _].
      left. simpl. rewrite <- app_assoc. repeat split; auto. }
  apply Z.eqb_eq in N1. subst r1.
  unfold do_allocate_direct_or_new_plab.
  change (_plab_allocator (emit (ev_plab_allocate d sz c NULL) (set_plab_allocator a1 p)))
    with a1.
  destruct (allocate_direct_or_new_plab a1 d sz c) as [r2 a2]. simpl fst. simpl snd.
  destruct (r2 =? NULL) eqn:N2.
  2:{ apply Z.eqb_neq in N2. unfold prepare_allocated, prepare_failed.
      destruct (negb (h_PRODUCT h) && h_evacuation_should_fail h);
        [intros Hs; discriminate Hs|intros _].
      right. left. simpl. rewrite <- !app_assoc. repeat split; auto. }
  apply Z.eqb_eq in N2. subst r2.
  unfold allocate_in_next_plab, do_allocate.
  destruct (InCSet.is_young d) eqn:Hy.
  2:{ unfold prepare_failed. simpl. intros Hs. discriminate Hs. }
  assert (Hd : d = Young) by (destruct d; simpl in Hy; congruence).
  change (_plab_allocator
            (emit (ev_allocate_direct_or_new_plab d sz c NULL)
               (set_plab_allocator a2
                  (emit (ev_plab_allocate d sz c NULL) (set_plab_allocator a1 p)))))
    with a2.
  destruct (allocate a2 Old sz c) as [r3 a3]. simpl fst. simpl snd.
  destruct (r3 =? NULL) eqn:N3.
  { unfold prepare_failed. simpl. intros Hs. discriminate Hs. }
  cbv beta iota. rewrite N3.
  apply Z.eqb_neq in N3. unfold prepare_allocated, prepare_failed.
  destruct (negb (h_PRODUCT h) && h_evacuation_should_fail h);
    [intros Hs; discriminate Hs|intros _].
  right. right. simpl. rewrite <- !app_assoc. repeat split; auto.
Qed.

(** C9 (amended): when the claim of [copy_to_survivor_space] finds the
    header already forwarded, the heap is left as it was (no header is
    written), and so are the queue, the age table and the
    surviving-young-words table.  The tenuring threshold keeps its value
    when the memory came from [plab_allocate] or from
    [allocate_direct_or_new_plab], and is zero when it came from
    [allocate_in_next_plab].  The allocator is the one the successful attempt
    left, after [undo_allocation] of exactly the memory that attempt
    returned. *)
Theorem lost_claim_frame state old m h (p : PSS) :
  reaches_claim state old m h p ->
  markOopDesc.is_marked (Heap.mark h old) = true ->
  markOopDesc.decode_pointer (Heap.mark h old) <> NULL ->
  let result := copy_to_survivor_space state old m h p in
  let p' := snd result in
  let sz := o_size (Heap.obj h old) in
  let c := r_allocation_context
             (Heap.region h (Heap.heap_region_containing_raw h old)) in
  let d := fst (next_state p h state m 0) in
  let f := markOopDesc.decode_pointer (Heap.mark h old) in
  let first := plab_allocate (_plab_allocator p) d sz c in
  let second := allocate_direct_or_new_plab (snd first) d sz c in
  let third := allocate (snd second) Old sz c in
  snd (fst result) = h
  /\ _refs p' = _refs p
  /\ _age_table p' = _age_table p
  /\ _surviving_young_words p' = _surviving_young_words p
  /\ _dest p' = _dest p
  /\ _worker_id p' = _worker_id p
  /\ List.existsb is_set_mark (new_events p p') = false
  /\ ((fst first <> NULL
       /\ _tenuring_threshold p' = _tenuring_threshold p
       /\ _plab_allocator p' = undo_allocation (snd first) d (fst first) sz c
       /\ new_events p p'
          = [ev_plab_allocate d sz c (fst first);
             ev_prefetch_write (fst first);
             ev_forward_to_atomic old (fst first) f;
             ev_undo_allocation d (fst first) sz c])
      \/ (fst first = NULL /\ fst second <> NULL
          /\ _tenuring_threshold p' = _tenuring_threshold p
          /\ _plab_allocator p' = undo_allocation (snd second) d (fst second) sz c
          /\ new_events p p'
             = [ev_plab_allocate d sz c NULL;
                ev_allocate_direct_or_new_plab d sz c (fst second);
                ev_prefetch_write (fst second);
                ev_forward_to_atomic old (fst second) f;
                ev_undo_allocation d (fst second) sz c])
      \/ (fst first = NULL /\ fst second = NULL /\ d = Young /\ fst third <> NULL
          /\ _tenuring_threshold p' = 0
          /\ _plab_allocator p' = undo_allocation (snd third) Old (fst third) sz c
          /\ new_events p p'
             = [ev_plab_allocate d sz c NULL;
                ev_allocate_direct_or_new_plab d sz c NULL;
                ev_allocate Old sz c (fst third);
                ev_allocate_in_next_plab state d sz c (fst third);
                ev_prefetch_write (fst third);
                ev_forward_to_atomic old (fst third) f;
                ev_undo_allocation Old (fst third) sz c])).
Proof.
  intros Hreach Hm Hnn result p' sz c d f first second third.
  destruct (lost_claim_outcome state old m h p Hreach Hm Hnn)
    as (pre & d0 & ptr & a1 & t' & E & _ & _ & _ & _ & _ & _ & Hsm).
  assert (Hframe : snd (fst result) = h
                   /\ _refs p' = _refs p
                   /\ _age_table p' = _age_table p
                   /\ _surviving_young_words p' = _surviving_young_words p
                   /\ _dest p' = _dest p
                   /\ _worker_id p' = _worker_id p
                   /\ List.existsb is_set_mark (new_events p p') = false).
  { subst p' result. rewrite E. simpl fst. simpl snd.
    repeat (split; [reflexivity|]).
    match goal with
    | |- List.existsb _ (new_events p ?q) = false =>
      rewrite (new_events_app p q _ eq_refl)
    end.
    apply existsb_app_false; [exact Hsm|reflexivity]. }
  destruct Hframe as (H1 & H2 & H3 & H4 & H5 & H6 & H7).
  repeat (split; [assumption|]).
  clear E Hsm H1 H2 H3 H4 H5 H6 H7.
  apply reaches_claim_self in Hreach.
  pose proof (prepare_found state old m h p Hreach) as Hfound.
  fold sz c d first second third in Hfound.
  destruct (prepare_trace state old m h p) as (_ & Hold & Hsz & Hc & _).
  fold sz c in Hsz, Hc.
  assert (Hstep : snd result
                  = do_undo_allocation
                      (cl_dest_state (fst (prepare state old m h p)))
                      (cl_target (fst (prepare state old m h p))) sz c
                      (emit (ev_forward_to_atomic old
                               (cl_target (fst (prepare state old m h p))) f)
                            (snd (prepare state old m h p)))).
  { subst result. rewrite copy_to_survivor_space_steps.
    destruct (prepare state old m h p) as [req p1]. simpl fst in *. simpl snd in *.
    unfold claim. rewrite Hold.
    rewrite forward_to_atomic_lost by assumption. fold f.
    unfold complete. rewrite Hreach, Hold, Hsz, Hc.
    apply Z.eqb_neq in Hnn. fold f in Hnn. rewrite Hnn. reflexivity. }
  fold p' in Hstep.
  set (req := fst (prepare state old m h p)) in *.
  set (p1 := snd (prepare state old m h p)) in *.
  assert (Hp' : _tenuring_threshold p' = _tenuring_threshold p1
                /\ _plab_allocator p'
                   = undo_allocation (_plab_allocator p1) (cl_dest_state req)
                                     (cl_target req) sz c
                /\ trace p'
                   = trace p1 ++ [ev_forward_to_atomic old (cl_target req) f;
                                  ev_undo_allocation (cl_dest_state req)
                                                     (cl_target req) sz c]).
  { rewrite Hstep. split; [reflexivity|]. split; [reflexivity|].
    unfold do_undo_allocation. simpl. rewrite <- app_assoc. reflexivity. }
  destruct Hp' as (Ht & Ha & Htr).
  rewrite Ht, Ha.
  destruct Hfound as [(N1 & Htg & Hd & Hal & Hth & Hev)
                     |[(N1 & N2 & Htg & Hd & Hal & Hth & Hev)
                      |(N1 & N2 & Hy & N3 & Htg & Hd & Hal & Hth & Hev)]];
    rewrite Hev in Htr; rewrite Htg, Hd in Htr; rewrite Htg, Hd, Hal, Hth.
  - left. split; [exact N1|]. split; [reflexivity|]. split; [reflexivity|].
    apply new_events_app. rewrite Htr, <- app_assoc. reflexivity.
  - right. left. split; [exact N1|]. split; [exact N2|].
    split; [reflexivity|]. split; [reflexivity|].
    apply new_events_app. rewrite Htr, <- app_assoc. reflexivity.
  - right. right. split; [exact N1|]. split; [exact N2|]. split; [exact Hy|].
    split; [exact N3|]. split; [reflexivity|]. split; [reflexivity|].
    apply new_events_app. rewrite Htr, <- app_assoc. reflexivity.
Qed.

End LostClaim.

Lemma lost_claim_frame_witness :
  let p := Scenario.pss 0 5 (Scenario.allocator 100 100 100) in
  let h := Scenario.peer_heap in
  let m := Scenario.neutral_mark 2 in
  let result := copy_to_survivor_space (SC := Scenario.one_field_scanner) Young 64 m h p in
  reaches_claim (SC := Scenario.one_field_scanner) Young 64 m h p
  /\ markOopDesc.is_marked (Heap.mark h 64) = true
  /\ markOopDesc.decode_pointer (Heap.mark h 64) <> NULL
  /\ snd (fst result) = h
  /\ _refs (snd result) = _refs p.
Proof.
  intros p h m result.
  assert (Hr : reaches_claim (SC := Scenario.one_field_scanner) Young 64 m h p).
  { unfold reaches_claim. vm_compute. intuition discriminate. }
  assert (Hm : markOopDesc.is_marked (Heap.mark h 64) = true) by (vm_compute; reflexivity).
  assert (Hn : markOopDesc.decode_pointer (Heap.mark h 64) <> NULL)
    by (vm_compute; discriminate).
  split; [exact Hr|]. split; [exact Hm|]. split; [exact Hn|].
  destruct (lost_claim_frame (SC := Scenario.one_field_scanner) Young 64 m h p Hr Hm Hn)
    as (Hh & Hrefs & _).
  split; [exact Hh|exact Hrefs].
Defined.

(** C9, as stated, fails for the tenuring threshold: with the survivor
    buffer and the backing allocator exhausted, the memory comes from
    [allocate_in_next_plab], which sets the threshold to 0 before the claim
    is lost; the worker started with 5. *)
Lemma lost_claim_after_escalation_changes_threshold :
  ~ lost_claim_keeps_worker_state (SC := Scenario.one_field_scanner)
      Young 64 (Scenario.neutral_mark 2) Scenario.peer_heap
      (Scenario.pss 0 5 (Scenario.allocator 0 100 0)).
Proof.
  unfold lost_claim_keeps_worker_state. intros Hc.
  assert (Hr : reaches_claim (SC := Scenario.one_field_scanner) Young 64
                 (Scenario.neutral_mark 2) Scenario.peer_heap
                 (Scenario.pss 0 5 (Scenario.allocator 0 100 0))).
  { unfold reaches_claim. vm_compute. intuition discriminate. }
  destruct (Hc Hr ltac:(vm_compute; reflexivity)) as (_ & _ & Ht & _).
  vm_compute in Ht. discriminate Ht.
Qed.

(** ** Evacuation failure *)

Lemma region_set_evacuation_failed h r b :
  r_evacuation_failed (Heap.region (Heap.set_evacuation_failed r b h) r) = b.
Proof.
  unfold Heap.region, Heap.set_evacuation_failed, Heap.set_regions. simpl.
  rewrite lookup_total_insert_eq. reflexivity.
Qed.

Section EvacuationFailure.

Context {A : Type} {PA : G1PLABAllocator A} {SC : G1ParScanClosure}.

Abbreviation PSS := (G1ParScanThreadState A).

(** What the handler does to the heap when its claim succeeds. *)
Lemma self_forward_heap old m h (p : PSS) :
  markOopDesc.is_marked (Heap.mark h old) = false ->
  let r := Heap.heap_region_containing h old in
  let h' := snd (fst (handle_evacuation_failure_par old m h p)) in
  Heap.mark h' old = markOopDesc.encode_pointer_as_mark old
  /\ r_evacuation_failed (Heap.region h' r) = true
  /\ h_LogOfHRGrainBytes h' = h_LogOfHRGrainBytes h
  /\ h_hr_printer h'
     = h_hr_printer h ++ (if r_evacuation_failed (Heap.region h r) then [] else [r])
  /\ h_preserved_marks h' = h_preserved_marks h ++ [(_worker_id p, old, m)].
Proof.
  intros Hm r h'. subst h'. unfold handle_evacuation_failure_par.
  rewrite forward_to_atomic_won by assumption. simpl (NULL =? NULL). cbv iota.
  simpl fst. simpl snd.
  change (Heap.heap_region_containing
            (Heap.set_mark old (markOopDesc.encode_pointer_as_mark old) h) old) with r.
  change (Heap.region (Heap.set_mark old (markOopDesc.encode_pointer_as_mark old) h) r)
    with (Heap.region h r).
  destruct (r_evacuation_failed (Heap.region h r)) eqn:Hf; simpl negb; cbv iota.
  - split; [apply mark_set_mark_eq|]. split; [exact Hf|].
    split; [reflexivity|]. split; [simpl; rewrite app_nil_r; reflexivity|reflexivity].
  - split; [apply mark_set_mark_eq|].
    split; [apply region_set_evacuation_failed|].
    split; [reflexivity|]. split; reflexivity.
Qed.

End EvacuationFailure.


(** ** Two evacuation failures in one region *)

Section FailureRace.

Context {A : Type} {PA : G1PLABAllocator A} {SC : G1ParScanClosure}.

Abbreviation PSS := (G1ParScanThreadState A).

(** The statements of [failure_step], run by one worker alone, are
    [handle_evacuation_failure_par]. *)
Lemma failure_steps_alone old m h (p : PSS) :
  failure_steps 5 h (fpc_start old m, p)
  = (snd (fst (handle_evacuation_failure_par old m h p)),
     (fpc_done (fst (fst (handle_evacuation_failure_par old m h p))),
      snd (handle_evacuation_failure_par old m h p))).
Proof.
  unfold handle_evacuation_failure_par.
  cbn [failure_steps failure_step].
  destruct (Heap.forward_to_atomic old old h) as [f h1].
  destruct (f =? NULL); [|reflexivity].
  cbn [failure_steps failure_step].
  destruct (r_evacuation_failed (Heap.region h1 (Heap.heap_region_containing h1 old)));
    reflexivity.
Qed.


Lemma tuple5_eq {T1 T2 T3 T4 T5} (a a' : T1) (b b' : T2) (c c' : T3) (d d' : T4) (e e' : T5) :
  a = a' -> b = b' -> c = c' -> d = d' -> e = e' -> (a, b, c, d, e) = (a', b', c', d', e').
Proof. intros; subst; reflexivity. Qed.

Lemma failure_run_cons b l (s : @failure_system A) :
  failure_run (b :: l) s = failure_run l (failure_system_step b s).
Proof. reflexivity. Qed.

Lemma failure_step_claim old m h (p : PSS) :
  markOopDesc.is_marked (Heap.mark h old) = false ->
  failure_step h (fpc_start old m, p)
  = (Heap.set_mark old (markOopDesc.encode_pointer_as_mark old) h,
     (fpc_owner old m,
      emit (ev_forward_to_atomic old old NULL)
           (emit (ev_handle_evacuation_failure_par old m) p))).
Proof.
  intros Hm. cbn [failure_step]. rewrite forward_to_atomic_won by assumption.
  reflexivity.
Qed.

(** Two schedules: one call after the other, and the calls taking turns. *)
Lemma failure_schedules_outcome
    old1 old2 m1 m2 h (p1 p2 : PSS) :
  old1 <> old2 ->
  markOopDesc.is_marked (Heap.mark h old1) = false ->
  markOopDesc.is_marked (Heap.mark h old2) = false ->
  Heap.heap_region_containing h old2 = Heap.heap_region_containing h old1 ->
  r_evacuation_failed (Heap.region h (Heap.heap_region_containing h old1)) = false ->
  let r := Heap.heap_region_containing h old1 in
  let s0 : failure_system := (h, (fpc_start old1 m1, p1), (fpc_start old2 m2, p2)) in
  let outcome (s : @failure_system A) :=
    (fst (snd (fst s)), fst (snd s),
     h_hr_printer (fst (fst s)), h_preserved_marks (fst (fst s)),
     r_evacuation_failed (Heap.region (fst (fst s)) r)) in
  outcome (failure_run one_after_the_other s0)
  = (fpc_done old1, fpc_done old2,
     h_hr_printer h ++ [r],
     h_preserved_marks h ++ [(_worker_id p1, old1, m1); (_worker_id p2, old2, m2)],
     true)
  /\ outcome (failure_run taking_turns s0)
     = (fpc_done old1, fpc_done old2,
        h_hr_printer h ++ [r; r],
        h_preserved_marks h ++ [(_worker_id p1, old1, m1); (_worker_id p2, old2, m2)],
        true).
Proof.
  intros Hne Hm1 Hm2 Hr Hflag r s0 outcome.
  assert (Hm2' : markOopDesc.is_marked
                   (Heap.mark (Heap.set_mark old1 (markOopDesc.encode_pointer_as_mark old1) h)
                              old2) = false).
  { unfold Heap.mark. rewrite obj_set_mark_ne by exact Hne. exact Hm2. }
  split.
  - subst s0. unfold one_after_the_other.
    rewrite failure_run_cons. cbn [failure_system_step].
    rewrite failure_step_claim by exact Hm1.
    do 4 (rewrite failure_run_cons; cbn [failure_system_step failure_step]).
    change (r_evacuation_failed
              (Heap.region (Heap.set_mark old1 (markOopDesc.encode_pointer_as_mark old1) h)
                 (Heap.heap_region_containing
                    (Heap.set_mark old1 (markOopDesc.encode_pointer_as_mark old1) h) old1)))
      with (r_evacuation_failed (Heap.region h r)).
    unfold r at 1. rewrite Hflag. cbn [failure_system_step failure_step negb].
    set (h1 := preserve_mark_during_evac_failure _ _ _ _).
    assert (Hm21 : markOopDesc.is_marked (Heap.mark h1 old2) = false) by exact Hm2'.
    rewrite failure_run_cons. cbn [failure_system_step].
    rewrite failure_step_claim by exact Hm21.
    do 4 (rewrite failure_run_cons; cbn [failure_system_step failure_step]).
    assert (Hf1 : r_evacuation_failed
                    (Heap.region
                       (Heap.set_mark old2 (markOopDesc.encode_pointer_as_mark old2) h1)
                       (Heap.heap_region_containing
                          (Heap.set_mark old2 (markOopDesc.encode_pointer_as_mark old2) h1)
                          old2)) = true).
    { change (Heap.heap_region_containing
                (Heap.set_mark old2 (markOopDesc.encode_pointer_as_mark old2) h1) old2)
        with (Heap.heap_region_containing h old2).
      rewrite Hr. fold r.
      change (r_evacuation_failed (Heap.region (Heap.set_evacuation_failed r true h) r) = true).
      apply region_set_evacuation_failed. }
    rewrite Hf1. cbn [failure_system_step failure_step negb].
    cbn [failure_run fold_left].
    subst outcome. cbn [fst snd]. subst h1.
    apply tuple5_eq; [reflexivity|reflexivity|reflexivity| |].
    + unfold preserve_mark_during_evac_failure. simpl. rewrite <- app_assoc. reflexivity.
    + change (r_evacuation_failed (Heap.region (Heap.set_evacuation_failed r true h) r) = true).
      apply region_set_evacuation_failed.
  - subst s0. unfold taking_turns.
    rewrite failure_run_cons. cbn [failure_system_step].
    rewrite failure_step_claim by exact Hm1.
    rewrite failure_run_cons. cbn [failure_system_step].
    rewrite failure_step_claim by exact Hm2'.
    set (h2 := Heap.set_mark old2 _ _).
    do 2 (rewrite failure_run_cons; cbn [failure_system_step failure_step]).
    change (r_evacuation_failed (Heap.region h2 (Heap.heap_region_containing h2 old1)))
      with (r_evacuation_failed (Heap.region h r)).
    change (r_evacuation_failed (Heap.region h2 (Heap.heap_region_containing h2 old2)))
      with (r_evacuation_failed (Heap.region h (Heap.heap_region_containing h old2))).
    rewrite Hr. fold r. unfold r at 1 2. rewrite Hflag.
    cbn [failure_system_step failure_step negb].
    do 6 (rewrite failure_run_cons; cbn [failure_system_step failure_step negb]).
    cbn [failure_run fold_left].
    subst outcome. cbn [fst snd].
    change (Heap.heap_region_containing h2 old1) with r.
    change (Heap.heap_region_containing (Heap.set_evacuation_failed r true h2) old2)
      with (Heap.heap_region_containing h old2).
    rewrite Hr. fold r.
    apply tuple5_eq; [reflexivity|reflexivity| | |].
    + change ((h_hr_printer h ++ [Heap.heap_region_containing h old1])
              ++ [Heap.heap_region_containing h old2]
              = h_hr_printer h ++ [r; r]).
      rewrite Hr, <- app_assoc. reflexivity.
    + unfold preserve_mark_during_evac_failure. simpl. rewrite <- app_assoc. reflexivity.
    + change (r_evacuation_failed
                (Heap.region (Heap.set_evacuation_failed r true
                                (Heap.set_evacuation_failed r true h)) r) = true).
      apply region_set_evacuation_failed.
Qed.

End FailureRace.


Lemma repeat_snoc {X} (x : X) n : repeat x n ++ [x] = repeat x (S n).
Proof. symmetry. apply repeat_cons. Qed.

Section FailureInvariantFacts.

Context {A : Type} {PA : G1PLABAllocator A} {SC : G1ParScanClosure}.

Abbreviation PSS := (G1ParScanThreadState A).

Lemma region_of_same_grain h h0 old :
  h_LogOfHRGrainBytes h = h_LogOfHRGrainBytes h0 ->
  Heap.heap_region_containing h old = Heap.heap_region_containing h0 old.
Proof.
  intros E. unfold Heap.heap_region_containing, Heap.heap_region_containing_raw.
  rewrite E. reflexivity.
Qed.

Lemma failure_object_ok_same_mark h h' old pc :
  Heap.mark h' old = Heap.mark h old ->
  failure_object_ok h old pc -> failure_object_ok h' old pc.
Proof. intros E. unfold failure_object_ok. rewrite E. auto. Qed.

(** A statement of the first call keeps the invariant. *)
Lemma failure_step_inv_first h0 r old1 old2 m1 m2 id1 id2 h
    (w1 w2 : failure_worker (A := A)) :
  old1 <> old2 ->
  Heap.heap_region_containing h0 old1 = r ->
  failure_inv h0 r old1 old2 m1 m2 id1 id2 (h, w1, w2) ->
  failure_inv h0 r old1 old2 m1 m2 id1 id2
    (fst (failure_step h w1), snd (failure_step h w1), w2).
Proof.
  intros Hne Hr Hinv. destruct w1 as [pc1 q1].
  destruct Hinv as (k1 & k2 & HLog & [Hid1 Hid2] & [Hpc1 Hpc2] & [Ho1 Ho2]
                    & Hpr & Hflag & [Hf1 Hf2] & Hpm).
  cbn [fst snd] in *.
  assert (Hreg : Heap.heap_region_containing h old1 = r)
    by (rewrite (region_of_same_grain h h0 old1 HLog); exact Hr).
  destruct pc1 as [o m'|o m'|o m' b|o m'|o m'|res]; cbn [failure_pc_ok] in Hpc1.
  - destruct Hpc1 as (-> & -> & ->). cbn [failure_object_ok] in Ho1.
    rewrite failure_step_claim by exact Ho1. cbn [fst snd].
    exists false, k2.
    split; [exact HLog|]. split; [split; [exact Hid1|exact Hid2]|].
    split; [split; [cbn; auto|exact Hpc2]|].
    split.
    { split; [cbn; apply mark_set_mark_eq|].
      eapply failure_object_ok_same_mark; [|exact Ho2].
      unfold Heap.mark. rewrite obj_set_mark_ne by exact Hne. reflexivity. }
    split; [exact Hpr|]. split; [exact Hflag|].
    split; [split; [discriminate|exact Hf2]|exact Hpm].
  - destruct Hpc1 as (-> & -> & ->). cbn [failure_step fst snd].
    rewrite Hreg. cbn [has_flagged] in Hflag. cbn [orb] in Hflag.
    exists false, k2.
    split; [exact HLog|]. split; [split; [exact Hid1|exact Hid2]|].
    split; [split; [cbn; auto|exact Hpc2]|].
    split; [split; [exact Ho1|exact Ho2]|].
    split; [exact Hpr|]. split; [exact Hflag|].
    split; [split; [cbn [found_flagged]; rewrite Hflag; auto|exact Hf2]|exact Hpm].
  - destruct Hpc1 as (-> & -> & ->). cbn [failure_step]. rewrite Hreg.
    destruct b; cbn [negb fst snd].
    + exists false, k2.
      split; [exact HLog|]. split; [split; [exact Hid1|exact Hid2]|].
      split; [split; [cbn; auto|exact Hpc2]|].
      split; [split; [exact Ho1|exact Ho2]|].
      split; [exact Hpr|]. split; [exact Hflag|].
      split; [split; [intros _; apply Hf1; reflexivity|exact Hf2]|exact Hpm].
    + exists false, k2.
      split; [exact HLog|]. split; [split; [exact Hid1|exact Hid2]|].
      split; [split; [cbn; auto|exact Hpc2]|].
      split.
      { split; [apply (failure_object_ok_same_mark h); [reflexivity|exact Ho1]
             |apply (failure_object_ok_same_mark h); [reflexivity|exact Ho2]]. }
      split; [exact Hpr|].
      split; [rewrite region_set_evacuation_failed; reflexivity|].
      split; [split; [discriminate|intros _; reflexivity]|exact Hpm].
  - destruct Hpc1 as (-> & -> & ->). cbn [failure_step fst snd]. rewrite Hreg.
    exists true, k2.
    split; [exact HLog|]. split; [split; [exact Hid1|exact Hid2]|].
    split; [split; [cbn; auto|exact Hpc2]|].
    split.
    { split; [apply (failure_object_ok_same_mark h); [reflexivity|exact Ho1]
             |apply (failure_object_ok_same_mark h); [reflexivity|exact Ho2]]. }
    split.
    { unfold hr_printer_evac_failure. cbn [Heap.set_hr_printer h_hr_printer].
      rewrite Hpr. cbn [Nat.b2n Nat.add]. rewrite <- app_assoc, repeat_snoc. reflexivity. }
    split; [exact Hflag|].
    split; [split; [discriminate|intros _; reflexivity]|exact Hpm].
  - destruct Hpc1 as (-> & ->). cbn [failure_step fst snd]. rewrite Hreg.
    exists k1, k2.
    split; [exact HLog|].
    split; [split; [rewrite scan_object_fields; exact Hid1|exact Hid2]|].
    split; [split; [reflexivity|exact Hpc2]|].
    split.
    { split; [apply (failure_object_ok_same_mark h); [reflexivity|exact Ho1]
             |apply (failure_object_ok_same_mark h); [reflexivity|exact Ho2]]. }
    split; [exact Hpr|]. split; [exact Hflag|].
    split; [split; [exact Hf1|exact Hf2]|].
    right. unfold preserve_mark_during_evac_failure.
    cbn [Heap.set_preserved_marks h_preserved_marks preserved_by].
    rewrite Hid1.
    cbn [preserved_by] in Hpm. rewrite app_nil_r in Hpm. cbn [app] in Hpm.
    destruct Hpm as [Hpm|Hpm]; rewrite Hpm, <- app_assoc; reflexivity.
  - cbn [failure_step fst snd].
    exists k1, k2.
    split; [exact HLog|]. split; [split; [exact Hid1|exact Hid2]|].
    split; [split; [exact Hpc1|exact Hpc2]|].
    split; [split; [exact Ho1|exact Ho2]|].
    split; [exact Hpr|]. split; [exact Hflag|].
    split; [split; [exact Hf1|exact Hf2]|exact Hpm].
Qed.


Lemma failure_inv_swap h0 r old1 old2 m1 m2 id1 id2 h (w1 w2 : failure_worker (A := A)) :
  failure_inv h0 r old1 old2 m1 m2 id1 id2 (h, w1, w2) ->
  failure_inv h0 r old2 old1 m2 m1 id2 id1 (h, w2, w1).
Proof.
  intros (k1 & k2 & HLog & [Hid1 Hid2] & [Hpc1 Hpc2] & [Ho1 Ho2]
          & Hpr & Hflag & [Hf1 Hf2] & Hpm).
  exists k2, k1.
  split; [exact HLog|]. split; [split; assumption|]. split; [split; assumption|].
  split; [split; assumption|].
  split; [rewrite Nat.add_comm; exact Hpr|].
  split; [rewrite orb_comm; exact Hflag|].
  split; [split; assumption|].
  destruct Hpm as [Hpm|Hpm]; [right|left]; exact Hpm.
Qed.

(** Any statement of either call keeps the invariant. *)
Lemma failure_system_step_inv h0 r old1 old2 m1 m2 id1 id2 b (s : failure_system (A := A)) :
  old1 <> old2 ->
  Heap.heap_region_containing h0 old1 = r ->
  Heap.heap_region_containing h0 old2 = r ->
  failure_inv h0 r old1 old2 m1 m2 id1 id2 s ->
  failure_inv h0 r old1 old2 m1 m2 id1 id2 (failure_system_step b s).
Proof.
  intros Hne Hr1 Hr2 Hinv. destruct s as [[h w1] w2].
  destruct b; unfold failure_system_step.
  - pose proof (failure_step_inv_first _ _ _ _ _ _ _ _ _ _ _ Hne Hr1 Hinv) as Hs.
    destruct (failure_step h w1) as [h' w1']. exact Hs.
  - apply failure_inv_swap in Hinv.
    pose proof (failure_step_inv_first _ _ _ _ _ _ _ _ _ _ _
                  (not_eq_sym Hne) Hr2 Hinv) as Hs.
    destruct (failure_step h w2) as [h' w2'].
    apply failure_inv_swap. exact Hs.
Qed.

Lemma failure_run_inv h0 r old1 old2 m1 m2 id1 id2 schedule (s : failure_system (A := A)) :
  old1 <> old2 ->
  Heap.heap_region_containing h0 old1 = r ->
  Heap.heap_region_containing h0 old2 = r ->
  failure_inv h0 r old1 old2 m1 m2 id1 id2 s ->
  failure_inv h0 r old1 old2 m1 m2 id1 id2 (failure_run schedule s).
Proof.
  intros Hne Hr1 Hr2. revert s.
  induction schedule as [|b rest IH]; intros s Hinv; [exact Hinv|].
  rewrite failure_run_cons. apply IH.
  apply failure_system_step_inv; assumption.
Qed.

(** Every statement brings a call forward until it is done. *)
Lemma failure_step_stage h (w : failure_worker (A := A)) :
  (failure_stage (fst (snd (failure_step h w))) = 5
   \/ S (failure_stage (fst w)) <= failure_stage (fst (snd (failure_step h w))))%nat.
Proof.
  destruct w as [pc p]. destruct pc as [o m|o m|o m b|o m|o m|res]; cbn [failure_step].
  - destruct (Heap.forward_to_atomic o o h) as [f h1].
    destruct (f =? NULL); cbn; auto.
  - cbn. auto.
  - destruct b; cbn; auto.
  - cbn. auto.
  - cbn. auto.
  - cbn. auto.
Qed.

Lemma failure_run_stage schedule (s : failure_system (A := A)) :
  ((failure_stage (fst (snd (fst (failure_run schedule s)))) = 5
    \/ failure_stage (fst (snd (fst s))) + count_occ bool_dec schedule true
       <= failure_stage (fst (snd (fst (failure_run schedule s)))))
   /\ (failure_stage (fst (snd (failure_run schedule s))) = 5
       \/ failure_stage (fst (snd s)) + count_occ bool_dec schedule false
          <= failure_stage (fst (snd (failure_run schedule s)))))%nat.
Proof.
  revert s. induction schedule as [|b rest IH]; intros s.
  - cbn [failure_run fold_left count_occ]. split; right; lia.
  - rewrite failure_run_cons.
    destruct (IH (failure_system_step b s)) as [IH1 IH2].
    destruct s as [[h w1] w2]. destruct b; unfold failure_system_step in *.
    + rewrite (count_occ_cons_eq bool_dec rest (eq_refl true)).
      rewrite (count_occ_cons_neq bool_dec rest (x := true) (y := false))
        by discriminate.
      pose proof (failure_step_stage h w1) as Hs.
      destruct (failure_step h w1) as [h' w1'].
      cbn [fst snd] in *. split; [|exact IH2].
      destruct IH1 as [IH1|IH1]; [left; exact IH1|].
      destruct Hs as [Hs|Hs]; [|right; lia].
      rewrite Hs in IH1.
      assert (Hle : forall pc, (failure_stage pc <= 5)%nat) by (intros []; cbn; lia).
      match goal with
      | |- (?x = 5 \/ _)%nat =>
        let pc := match x with failure_stage ?pc => pc end in
        pose proof (Hle pc)
      end.
      left. lia.
    + rewrite (count_occ_cons_eq bool_dec rest (eq_refl false)).
      rewrite (count_occ_cons_neq bool_dec rest (x := false) (y := true))
        by discriminate.
      pose proof (failure_step_stage h w2) as Hs.
      destruct (failure_step h w2) as [h' w2'].
      cbn [fst snd] in *. split; [exact IH1|].
      destruct IH2 as [IH2|IH2]; [left; exact IH2|].
      destruct Hs as [Hs|Hs]; [|right; lia].
      rewrite Hs in IH2.
      assert (Hle : forall pc, (failure_stage pc <= 5)%nat) by (intros []; cbn; lia).
      match goal with
      | |- (?x = 5 \/ _)%nat =>
        let pc := match x with failure_stage ?pc => pc end in
        pose proof (Hle pc)
      end.
      left. lia.
Qed.

(** Two failing evacuations in one region, under every interleaving. *)
Lemma region_reported_once_or_twice
    schedule old1 old2 m1 m2 h (p1 p2 : PSS) :
  old1 <> old2 ->
  markOopDesc.is_marked (Heap.mark h old1) = false ->
  markOopDesc.is_marked (Heap.mark h old2) = false ->
  Heap.heap_region_containing h old2 = Heap.heap_region_containing h old1 ->
  r_evacuation_failed (Heap.region h (Heap.heap_region_containing h old1)) = false ->
  (5 <= count_occ bool_dec schedule true)%nat ->
  (5 <= count_occ bool_dec schedule false)%nat ->
  let r := Heap.heap_region_containing h old1 in
  let s0 : failure_system := (h, (fpc_start old1 m1, p1), (fpc_start old2 m2, p2)) in
  let e1 := (_worker_id p1, old1, m1) in
  let e2 := (_worker_id p2, old2, m2) in
  exists h' q1 q2 n,
    failure_run schedule s0 = (h', (fpc_done old1, q1), (fpc_done old2, q2))
    /\ h_hr_printer h' = h_hr_printer h ++ repeat r n
    /\ (n = 1 \/ n = 2)%nat
    /\ r_evacuation_failed (Heap.region h' r) = true
    /\ Heap.mark h' old1 = markOopDesc.encode_pointer_as_mark old1
    /\ Heap.mark h' old2 = markOopDesc.encode_pointer_as_mark old2
    /\ (h_preserved_marks h' = h_preserved_marks h ++ [e1; e2]
        \/ h_preserved_marks h' = h_preserved_marks h ++ [e2; e1]).
Proof.
  intros Hne Hm1 Hm2 Hr Hflag Hc1 Hc2 r s0 e1 e2.
  assert (Hinv0 : failure_inv h r old1 old2 m1 m2 (_worker_id p1) (_worker_id p2) s0).
  { exists false, false. cbn [fst snd failure_pc_ok failure_object_ok has_flagged
                              found_flagged preserved_by Nat.b2n Nat.add repeat orb app].
    rewrite !app_nil_r. fold r in Hflag.
    repeat split; auto; discriminate. }
  pose proof (failure_run_inv h r old1 old2 m1 m2 _ _ schedule s0 Hne eq_refl Hr Hinv0)
    as Hinv.
  destruct (failure_run_stage schedule s0) as [Hs1 Hs2].
  destruct (failure_run schedule s0) as [[h' [pc1 q1]] [pc2 q2]].
  cbn [fst snd s0 failure_stage] in Hs1, Hs2.
  assert (Hd1 : failure_stage pc1 = 5%nat).
  { destruct Hs1 as [Hs1|Hs1]; [exact Hs1|]. destruct pc1; cbn in *; lia. }
  assert (Hd2 : failure_stage pc2 = 5%nat).
  { destruct Hs2 as [Hs2|Hs2]; [exact Hs2|]. destruct pc2; cbn in *; lia. }
  destruct pc1 as [| | | | |res1]; try discriminate Hd1.
  destruct pc2 as [| | | | |res2]; try discriminate Hd2.
  destruct Hinv as (k1 & k2 & _ & _ & [Hpc1 Hpc2] & [Ho1 Ho2]
                    & Hpr & Hfl & [Hf1 Hf2] & Hpm).
  cbn [fst snd failure_pc_ok failure_object_ok has_flagged found_flagged preserved_by]
    in *.
  subst res1 res2.
  exists h', q1, q2, (Nat.b2n k1 + Nat.b2n k2)%nat.
  split; [reflexivity|]. split; [exact Hpr|].
  assert (Hk : k1 || k2 = true).
  { destruct k1; [reflexivity|]. cbn. apply Hf1. reflexivity. }
  split; [destruct k1, k2; cbn; auto; discriminate Hk|].
  split; [rewrite Hfl; exact Hk|].
  split; [exact Ho1|]. split; [exact Ho2|exact Hpm].
Qed.

End FailureInvariantFacts.

(** ** The evacuation-failure handler, alone and beside another *)

Section EvacuationFailureTheorem.

Context {A : Type} {PA : G1PLABAllocator A} {SC : G1ParScanClosure}.

Abbreviation PSS := (G1ParScanThreadState A).

(** C6 (amended): [handle_evacuation_failure_par] tries to install a
    forwarding marker to the object itself.  When that succeeds it flags the
    object's region as evacuation-failed, reports the region to the printer
    exactly when its own test found the flag unset, records (worker, object,
    header) in the preserved marks, scans the object in place and answers the
    object.  When the header is already forwarded it answers the installed
    target and does none of this.

    A call that starts after another one has returned finds the flag set and
    reports nothing.  But the test of the flag, its setting and the report
    are three statements (lines 305-307), and the call is those statements;
    when two workers fail in one unflagged region, however their statements
    interleave the region ends flagged and is reported once or twice: once
    when one call runs after the other, twice when they take turns, each
    having tested the flag before the other set it. *)
Theorem evacuation_failure_self_forward old m h (p : PSS) :
  let result := handle_evacuation_failure_par old m h p in
  let obj := fst (fst result) in
  let h' := snd (fst result) in
  let p' := snd result in
  let r := Heap.heap_region_containing h old in
  (markOopDesc.is_marked (Heap.mark h old) = false ->
     obj = old
     /\ Heap.mark h' old = markOopDesc.encode_pointer_as_mark old
     /\ r_evacuation_failed (Heap.region h' r) = true
     /\ h_hr_printer h'
        = h_hr_printer h ++ (if r_evacuation_failed (Heap.region h r) then [] else [r])
     /\ (forall old2 m2 (p2 : PSS),
           markOopDesc.is_marked (Heap.mark h' old2) = false ->
           Heap.heap_region_containing h' old2 = r ->
           h_hr_printer (snd (fst (handle_evacuation_failure_par old2 m2 h' p2)))
           = h_hr_printer h')
     /\ h_preserved_marks h' = h_preserved_marks h ++ [(_worker_id p, old, m)]
     /\ new_events p p'
        = [ev_handle_evacuation_failure_par old m;
           ev_forward_to_atomic old old NULL;
           ev_oop_iterate_backwards r old]
     /\ _refs p'
        = fold_left (fun q t => Queue.push t q) (discovered_refs h' r old) (_refs p))
  /\ (markOopDesc.is_marked (Heap.mark h old) = true ->
      markOopDesc.decode_pointer (Heap.mark h old) <> NULL ->
      obj = markOopDesc.decode_pointer (Heap.mark h old)
      /\ h' = h
      /\ _refs p' = _refs p
      /\ new_events p p'
         = [ev_handle_evacuation_failure_par old m;
            ev_forward_to_atomic old old (markOopDesc.decode_pointer (Heap.mark h old))])
  /\ failure_steps 5 h (fpc_start old m, p) = (h', (fpc_done obj, p'))
  /\ (forall old2 m2 (p2 : PSS),
        old <> old2 ->
        markOopDesc.is_marked (Heap.mark h old) = false ->
        markOopDesc.is_marked (Heap.mark h old2) = false ->
        Heap.heap_region_containing h old2 = r ->
        r_evacuation_failed (Heap.region h r) = false ->
        let s0 : failure_system := (h, (fpc_start old m, p), (fpc_start old2 m2, p2)) in
        (forall schedule,
           (5 <= count_occ bool_dec schedule true)%nat ->
           (5 <= count_occ bool_dec schedule false)%nat ->
           exists h2 q1 q2 n,
             failure_run schedule s0 = (h2, (fpc_done old, q1), (fpc_done old2, q2))
             /\ h_hr_printer h2 = h_hr_printer h ++ repeat r n
             /\ (n = 1 \/ n = 2)%nat
             /\ r_evacuation_failed (Heap.region h2 r) = true)
        /\ h_hr_printer (fst (fst (failure_run one_after_the_other s0)))
           = h_hr_printer h ++ [r]
        /\ h_hr_printer (fst (fst (failure_run taking_turns s0)))
           = h_hr_printer h ++ [r; r]).
Proof.
  intros result obj h' p' r. split; [|split; [|split]].
  - intros Hm.
    destruct (self_forward_heap old m h p Hm) as (Hmark & Hflag & Hlog & Hpr & Hpm).
    fold result h' r in Hmark, Hflag, Hlog, Hpr, Hpm.
    assert (Hres : obj = old
                   /\ new_events p p'
                      = [ev_handle_evacuation_failure_par old m;
                         ev_forward_to_atomic old old NULL;
                         ev_oop_iterate_backwards r old]
                   /\ _refs p'
                      = fold_left (fun q t => Queue.push t q)
                          (discovered_refs h' r old) (_refs p)).
    { subst obj p' h' result. unfold handle_evacuation_failure_par.
      rewrite forward_to_atomic_won by assumption. simpl (NULL =? NULL). cbv iota.
      simpl fst. simpl snd. rewrite scan_object_fields.
      split; [reflexivity|]. split; [|reflexivity].
      apply new_events_app. simpl. rewrite <- !app_assoc. reflexivity. }
    destruct Hres as (Hobj & Hnew & Hrefs).
    split; [exact Hobj|]. split; [exact Hmark|]. split; [exact Hflag|].
    split; [exact Hpr|]. split; [|split; [exact Hpm|split; [exact Hnew|exact Hrefs]]].
    intros old2 m2 p2 Hm2 Hr2.
    destruct (self_forward_heap old2 m2 h' p2 Hm2) as (_ & _ & _ & Hpr2 & _).
    rewrite Hpr2, Hr2, Hflag. apply app_nil_r.
  - intros Hm Hnn. subst obj p' h' result. unfold handle_evacuation_failure_par.
    rewrite forward_to_atomic_lost by assumption.
    apply Z.eqb_neq in Hnn. rewrite Hnn. simpl fst. simpl snd.
    repeat (split; [reflexivity|]).
    apply new_events_app. simpl. rewrite <- !app_assoc. reflexivity.
  - apply failure_steps_alone.
  - intros old2 m2 p2 Hne Hm1 Hm2 Hr Hflag s0. split; [|split].
    + intros schedule Hc1 Hc2.
      destruct (region_reported_once_or_twice schedule old old2 m m2 h p p2
                  Hne Hm1 Hm2 Hr Hflag Hc1 Hc2)
        as (h2 & q1 & q2 & n & Hrun & Hpr & Hn & Hfl & _).
      exists h2, q1, q2, n. auto.
    + destruct (failure_schedules_outcome old old2 m m2 h p p2 Hne Hm1 Hm2 Hr Hflag)
        as [Hseq _].
      exact (f_equal (fun t => snd (fst (fst t))) Hseq).
    + destruct (failure_schedules_outcome old old2 m m2 h p p2 Hne Hm1 Hm2 Hr Hflag)
        as [_ Hturn].
      exact (f_equal (fun t => snd (fst (fst t))) Hturn).
Qed.

End EvacuationFailureTheorem.

Lemma evacuation_failure_self_forward_witness :
  let p := Scenario.pss 7 5 (Scenario.allocator 0 0 0) in
  let p2 := Scenario.pss 1 5 Scenario.second_allocator in
  let h := Scenario.heap true false in
  let m := Scenario.neutral_mark 2 in
  let m2 := Scenario.neutral_mark 1 in
  let result := handle_evacuation_failure_par (SC := Scenario.one_field_scanner) 64 m h p in
  let s0 : failure_system (A := BumpAllocator) :=
    (h, (fpc_start 64 m, p), (fpc_start 128 m2, p2)) in
  markOopDesc.is_marked (Heap.mark h 64) = false
  /\ fst (fst result) = 64
  /\ h_hr_printer (snd (fst result)) = [0]
  /\ h_preserved_marks (snd (fst result)) = [(7, 64, m)]
  /\ 64 <> 128
  /\ markOopDesc.is_marked (Heap.mark h 128) = false
  /\ Heap.heap_region_containing h 128 = Heap.heap_region_containing h 64
  /\ r_evacuation_failed (Heap.region h (Heap.heap_region_containing h 64)) = false
  /\ h_hr_printer (fst (fst (failure_run (SC := Scenario.one_field_scanner)
                               one_after_the_other s0))) = [0]
  /\ h_hr_printer (fst (fst (failure_run (SC := Scenario.one_field_scanner)
                               taking_turns s0))) = [0; 0].
Proof.
  intros p p2 h m m2 result s0.
  assert (Hm : markOopDesc.is_marked (Heap.mark h 64) = false) by (vm_compute; reflexivity).
  assert (Hne : 64 <> 128) by discriminate.
  assert (Hm2 : markOopDesc.is_marked (Heap.mark h 128) = false) by (vm_compute; reflexivity).
  assert (Hr : Heap.heap_region_containing h 128 = Heap.heap_region_containing h 64)
    by reflexivity.
  assert (Hf : r_evacuation_failed (Heap.region h (Heap.heap_region_containing h 64)) = false)
    by (vm_compute; reflexivity).
  destruct (evacuation_failure_self_forward (SC := Scenario.one_field_scanner) 64 m h p)
    as (Hwin & _ & _ & Hrace).
  destruct (Hwin Hm) as (Hobj & _ & _ & Hpr & _ & Hpm & _).
  destruct (Hrace 128 m2 p2 Hne Hm Hm2 Hr Hf) as (_ & Hseq & Hturn).
  split; [exact Hm|]. split; [exact Hobj|]. split; [exact Hpr|]. split; [exact Hpm|].
  split; [exact Hne|]. split; [exact Hm2|]. split; [exact Hr|]. split; [exact Hf|].
  split; [exact Hseq|exact Hturn].
Defined.

(** C6, as stated, fails for the diagnostic hook: two workers fail on the
    objects at 64 and 128 of region 0 and take turns statement by statement;
    both test the flag before either sets it, both are flaggers, and both
    report the region. *)
Lemma both_flaggers_report :
  ~ only_first_flagger_reports (SC := Scenario.one_field_scanner)
      taking_turns 64 (Scenario.neutral_mark 2) 128 (Scenario.neutral_mark 1)
      (Scenario.heap true false)
      (Scenario.pss 0 5 (Scenario.allocator 0 0 0))
      (Scenario.pss 1 5 Scenario.second_allocator).
Proof.
  unfold only_first_flagger_reports. intros Hc.
  specialize (Hc eq_refl ltac:(vm_compute; reflexivity)
                 ltac:(vm_compute; reflexivity) ltac:(vm_compute; reflexivity)).
  vm_compute in Hc. discriminate Hc.
Qed.
(** ** Two workers racing for one object *)

Lemma existsb_false_filter {X} (f : X -> bool) (l : list X) :
  List.existsb f l = false -> List.filter f l = [].
Proof.
  induction l as [|x l IH]; simpl; [reflexivity|].
  intros H. apply orb_false_iff in H. destruct H as [Hx Hl].
  rewrite Hx. apply IH. exact Hl.
Qed.

Section RaceFacts.

Context {A : Type} {PA : G1PLABAllocator A} {SC : G1ParScanClosure}.

Abbreviation PSS := (G1ParScanThreadState A).

Lemma claims_won_app (p q : PSS) evs :
  trace q = trace p ++ evs ->
  claims_won q = (claims_won p + length (List.filter won_claim evs))%nat.
Proof.
  intros E. unfold claims_won. rewrite E, List.filter_app, length_app. reflexivity.
Qed.

Lemma prepare_req_ok state old m h (p : PSS) :
  req_ok old (fst (prepare state old m h p))
  /\ claims_won (snd (prepare state old m h p)) = claims_won p.
Proof.
  destruct (prepare_outcome state old m h p)
    as (evs & d' & t & s & a' & t' & E & Hself & Hnot & _ & _ & _ & _ & _ & Hw & _).
  rewrite E. simpl fst. simpl snd. split.
  - unfold req_ok. simpl. split; [reflexivity|].
    destruct s; [apply Hself; reflexivity|apply Hnot; reflexivity].
  - erewrite claims_won_app by reflexivity.
    rewrite (existsb_false_filter _ _ Hw). simpl. lia.
Qed.

Lemma claims_won_complete req f h (p : PSS) :
  claims_won (snd (complete req f h p))
  = (claims_won p + (if (f =? NULL)%Z then 1 else 0))%nat.
Proof.
  destruct (complete_events req f h p) as (evs & Htr & _ & _ & Hw & _).
  rewrite (claims_won_app _ _ _ Htr). simpl.
  rewrite (existsb_false_filter _ _ Hw).
  destruct (f =? NULL); reflexivity.
Qed.

Lemma complete_lost req f h (p : PSS) :
  f <> NULL ->
  fst (fst (complete req f h p)) = f /\ snd (fst (complete req f h p)) = h.
Proof.
  intros Hf. apply Z.eqb_neq in Hf. unfold complete. rewrite Hf.
  destruct (cl_self req); split; reflexivity.
Qed.

Lemma complete_won old req h (p : PSS) :
  req_ok old req ->
  (cl_self req = false -> cl_target req <> old) ->
  fst (fst (complete req NULL h p)) = cl_target req
  /\ Heap.mark (snd (fst (complete req NULL h p))) old = Heap.mark h old.
Proof.
  intros [Hold Hreq] Hfresh. unfold complete. simpl (NULL =? NULL). cbv iota.
  destruct (cl_self req) eqn:Hs.
  - simpl fst. simpl snd. split; [congruence|].
    destruct (negb _); reflexivity.
  - match goal with
    | |- context [copy_forwarded ?s ?o ?m ?sz ?yi ?ag ?d ?ob ?hh ?pp] =>
      destruct (copy_forwarded_outcome s o m sz yi ag d ob hh pp)
        as (h' & p' & E & _ & _ & _ & Hkeep & _)
    end.
    rewrite E. simpl fst. simpl snd. split; [reflexivity|].
    unfold Heap.mark. rewrite Hold in Hkeep. rewrite Hkeep; [reflexivity|].
    apply Hfresh. reflexivity.
Qed.

(** Three steps of one worker, the other standing still, are one call. *)
Lemma run_one_call state old m h (p : PSS) (w2 : worker) :
  run [true; true; true] (h, (pc_start state old m, p), w2)
  = (snd (fst (copy_to_survivor_space state old m h p)),
     (pc_done (fst (fst (copy_to_survivor_space state old m h p))),
      snd (copy_to_survivor_space state old m h p)),
     w2).
Proof.
  rewrite copy_to_survivor_space_steps. unfold run. simpl.
  destruct (prepare state old m h p) as [req p1]. simpl.
  destruct (claim req h) as [f h1]. simpl.
  destruct (complete req f h1 p1) as [[r h2] p2]. reflexivity.
Qed.

(** A step of a worker that has not claimed, while nobody has. *)
Lemma step_unclaimed old c h (w : worker) :
  old <> NULL ->
  markOopDesc.is_marked (Heap.mark h old) = false ->
  before_claim old c w ->
  target_ok old w = true ->
  let h' := fst (worker_step h w) in
  let w' := snd (worker_step h w) in
  (h' = h /\ before_claim old c w')
  \/ exists t,
       Heap.mark h' old = markOopDesc.encode_pointer_as_mark t
       /\ t <> NULL
       /\ Z.land t markOopDesc.lock_mask_in_place = 0
       /\ claim_won old t c w'.
Proof.
  intros Hold Hm [Hc Hpc] Hok h' w'. subst h' w'.
  destruct w as [pc p]. simpl in Hc, Hpc. unfold target_ok in Hok. simpl fst in Hok.
  destruct pc as [st o m|req|req f|r]; try contradiction.
  - subst o. left. unfold worker_step.
    destruct (prepare_req_ok st old m h p) as [Hreq Hcw].
    destruct (prepare st old m h p) as [req p1]. simpl fst in *. simpl snd in *.
    split; [reflexivity|]. unfold before_claim. simpl fst. simpl snd.
    split; [rewrite Hcw; exact Hc|exact Hreq].
  - right. unfold worker_step, claim.
    destruct Hpc as [Ho Ht]. rewrite Ho.
    rewrite forward_to_atomic_won by assumption. simpl.
    apply andb_true_iff in Hok. destruct Hok as [Hal _]. apply Z.eqb_eq in Hal.
    exists (cl_target req).
    split; [apply mark_set_mark_eq|]. split.
    { destruct (cl_self req); congruence. }
    split; [exact Hal|].
    unfold claim_won. simpl. repeat split; auto.
Qed.

(** A step of a worker that has not claimed, after the other has. *)
Lemma step_late old t c h (w : worker) :
  Heap.mark h old = markOopDesc.encode_pointer_as_mark t ->
  t <> NULL ->
  Z.land t markOopDesc.lock_mask_in_place = 0 ->
  before_claim old c w ->
  fst (worker_step h w) = h
  /\ (before_claim old c (snd (worker_step h w))
      \/ claim_lost old t c (snd (worker_step h w))).
Proof.
  intros Hmark Ht Hal [Hc Hpc].
  destruct w as [pc p]. simpl in Hc, Hpc.
  destruct pc as [st o m|req|req f|r]; try contradiction.
  - subst o. unfold worker_step.
    destruct (prepare_req_ok st old m h p) as [Hreq Hcw].
    destruct (prepare st old m h p) as [req p1]. simpl fst in *. simpl snd in *.
    split; [reflexivity|]. left. unfold before_claim. simpl fst. simpl snd.
    split; [rewrite Hcw; exact Hc|exact Hreq].
  - unfold worker_step, claim. destruct Hpc as [Ho Htg]. rewrite Ho.
    rewrite forward_to_atomic_lost
      by (rewrite Hmark; apply is_marked_encode).
    rewrite Hmark, decode_encode by assumption. simpl.
    split; [reflexivity|]. right. unfold claim_lost. simpl.
    repeat split; auto.
Qed.

(** A step of the worker that installed [t]. *)
Lemma step_winner old t c h (w : worker) :
  Heap.mark h old = markOopDesc.encode_pointer_as_mark t ->
  claim_won old t c w ->
  target_ok old w = true ->
  Heap.mark (fst (worker_step h w)) old = markOopDesc.encode_pointer_as_mark t
  /\ claim_won old t c (snd (worker_step h w)).
Proof.
  intros Hmark Hw Hok. destruct w as [pc p].
  unfold claim_won in Hw. simpl in Hw. unfold target_ok in Hok. simpl fst in Hok.
  destruct pc as [st o m|req|req f|r]; try contradiction.
  - destruct Hw as (Hreq & Htg & -> & Hc). unfold worker_step.
    apply andb_true_iff in Hok. destruct Hok as [_ Hfresh].
    assert (Hf : cl_self req = false -> cl_target req <> old).
    { intros Hs. rewrite Hs in Hfresh. simpl in Hfresh.
      apply negb_true_iff, Z.eqb_neq in Hfresh. exact Hfresh. }
    destruct (complete_won old req h p Hreq Hf) as [Hres Hkeep].
    pose proof (claims_won_complete req NULL h p) as Hcw.
    destruct (complete req NULL h p) as [[r h2] p2]. simpl in *.
    split; [congruence|]. unfold claim_won. simpl. split; [congruence|lia].
  - simpl. split; [exact Hmark|exact Hw].
Qed.

(** A step of a worker that found [t] installed. *)
Lemma step_loser old t c h (w : worker) :
  t <> NULL ->
  claim_lost old t c w ->
  fst (worker_step h w) = h /\ claim_lost old t c (snd (worker_step h w)).
Proof.
  intros Ht Hl. destruct w as [pc p]. unfold claim_lost in Hl. simpl in Hl.
  destruct pc as [st o m|req|req f|r]; try contradiction.
  - destruct Hl as (Hreq & -> & Hc). unfold worker_step.
    destruct (complete_lost req t h p Ht) as [Hres Hh].
    pose proof (claims_won_complete req t h p) as Hcw.
    apply Z.eqb_neq in Ht. rewrite Ht in Hcw.
    destruct (complete req t h p) as [[r h2] p2]. simpl in *.
    split; [exact Hh|]. unfold claim_lost. simpl. split; [exact Hres|lia].
  - simpl. split; [reflexivity|exact Hl].
Qed.

End RaceFacts.

(** *** The invariant is kept by every step *)

Section RaceTheorem.

Context {A : Type} {PA : G1PLABAllocator A} {SC : G1ParScanClosure}.

Abbreviation PSS := (G1ParScanThreadState A).

Lemma system_step_inv old c1 c2 b (s : system) :
  old <> NULL ->
  race_inv old c1 c2 s ->
  target_ok old (snd (fst s)) = true ->
  target_ok old (snd s) = true ->
  race_inv old c1 c2 (system_step b s).
Proof.
  intros Hold Hinv Hok1 Hok2. destruct s as [[h w1] w2]. simpl in Hok1, Hok2.
  unfold race_inv in Hinv.
  destruct b; unfold system_step.
  - destruct Hinv as [(Hm & Hb1 & Hb2)|(t & Hmark & Ht & Hal & Hcase)].
    + pose proof (step_unclaimed old c1 h w1 Hold Hm Hb1 Hok1) as Hs.
      destruct (worker_step h w1) as [h' w1']. simpl in Hs.
      destruct Hs as [[-> Hb]|(t & Hmark & Ht & Hal & Hw)].
      * left. auto.
      * right. exists t. repeat split; auto.
    + destruct Hcase as [[Hw Ho]|[Hw Ho]].
      * pose proof (step_winner old t c1 h w1 Hmark Hw Hok1) as Hs.
        destruct (worker_step h w1) as [h' w1']. simpl in Hs.
        destruct Hs as [Hmark' Hw']. right. exists t. repeat split; auto.
      * destruct Ho as [Hb|Hl].
        -- pose proof (step_late old t c1 h w1 Hmark Ht Hal Hb) as Hs.
           destruct (worker_step h w1) as [h' w1']. simpl in Hs.
           destruct Hs as [-> Hn]. right. exists t. repeat split; auto.
        -- pose proof (step_loser old t c1 h w1 Ht Hl) as Hs.
           destruct (worker_step h w1) as [h' w1']. simpl in Hs.
           destruct Hs as [-> Hn]. right. exists t. repeat split; auto.
  - destruct Hinv as [(Hm & Hb1 & Hb2)|(t & Hmark & Ht & Hal & Hcase)].
    + pose proof (step_unclaimed old c2 h w2 Hold Hm Hb2 Hok2) as Hs.
      destruct (worker_step h w2) as [h' w2']. simpl in Hs.
      destruct Hs as [[-> Hb]|(t & Hmark & Ht & Hal & Hw)].
      * left. auto.
      * right. exists t. repeat split; auto.
    + destruct Hcase as [[Hw Ho]|[Hw Ho]].
      * destruct Ho as [Hb|Hl].
        -- pose proof (step_late old t c2 h w2 Hmark Ht Hal Hb) as Hs.
           destruct (worker_step h w2) as [h' w2']. simpl in Hs.
           destruct Hs as [-> Hn]. right. exists t. repeat split; auto.
        -- pose proof (step_loser old t c2 h w2 Ht Hl) as Hs.
           destruct (worker_step h w2) as [h' w2']. simpl in Hs.
           destruct Hs as [-> Hn]. right. exists t. repeat split; auto.
      * pose proof (step_winner old t c2 h w2 Hmark Hw Hok2) as Hs.
        destruct (worker_step h w2) as [h' w2']. simpl in Hs.
        destruct Hs as [Hmark' Hw']. right. exists t. repeat split; auto.
Qed.

Lemma run_inv old c1 c2 schedule (s : system) :
  old <> NULL ->
  targets_ok old schedule s = true ->
  race_inv old c1 c2 s ->
  race_inv old c1 c2 (run schedule s).
Proof.
  intros Hold. revert s. induction schedule as [|b rest IH]; intros s Hok Hinv.
  - exact Hinv.
  - simpl in Hok. apply andb_true_iff in Hok. destruct Hok as [Hok Hrest].
    apply andb_true_iff in Hok. destruct Hok as [Hok1 Hok2].
    unfold run. simpl. apply IH; [exact Hrest|].
    apply system_step_inv; assumption.
Qed.

Lemma worker_step_rank h (w : worker) :
  pc_rank (fst (snd (worker_step h w))) = Nat.min 3 (S (pc_rank (fst w))).
Proof.
  destruct w as [pc p]. destruct pc as [st o m|req|req f|r]; simpl.
  - destruct (prepare st o m h p). reflexivity.
  - destruct (claim req h). reflexivity.
  - destruct (complete req f h p) as [[? ?] ?]. reflexivity.
  - reflexivity.
Qed.

Lemma run_rank schedule (s : system) :
  pc_rank (fst (snd (fst (run schedule s))))
  = Nat.min 3 (pc_rank (fst (snd (fst s))) + count_occ bool_dec schedule true)
  /\ pc_rank (fst (snd (run schedule s)))
     = Nat.min 3 (pc_rank (fst (snd s)) + count_occ bool_dec schedule false).
Proof.
  revert s. induction schedule as [|b rest IH]; intros s.
  - simpl. destruct s as [[h [pc1 p1]] [pc2 p2]]. simpl fst. simpl snd.
    rewrite !Nat.add_0_r. destruct pc1, pc2; split; reflexivity.
  - unfold run. simpl fold_left. fold (run rest (system_step b s)).
    destruct (IH (system_step b s)) as [IH1 IH2]. rewrite IH1, IH2.
    destruct s as [[h w1] w2]. destruct b; unfold system_step.
    + rewrite (count_occ_cons_eq bool_dec rest (eq_refl true)).
      rewrite (count_occ_cons_neq bool_dec rest (x := true) (y := false))
        by discriminate.
      pose proof (worker_step_rank h w1) as Hr.
      destruct (worker_step h w1) as [h' w1'].
      simpl fst in *. simpl snd in *. rewrite Hr. split; lia.
    + rewrite (count_occ_cons_eq bool_dec rest (eq_refl false)).
      rewrite (count_occ_cons_neq bool_dec rest (x := false) (y := true))
        by discriminate.
      pose proof (worker_step_rank h w2) as Hr.
      destruct (worker_step h w2) as [h' w2'].
      simpl fst in *. simpl snd in *. rewrite Hr. split; lia.
Qed.

(** The race: whatever the interleaving, one claim succeeds and both
    workers answer the pointer it installed. *)
Lemma race_for_one_object schedule st1 st2 old m1 m2 h (p1 p2 : PSS) :
  let s0 : system := (h, (pc_start st1 old m1, p1), (pc_start st2 old m2, p2)) in
  old <> NULL ->
  markOopDesc.is_marked (Heap.mark h old) = false ->
  (3 <= count_occ bool_dec schedule true)%nat ->
  (3 <= count_occ bool_dec schedule false)%nat ->
  targets_ok old schedule s0 = true ->
  exists t h' p1' p2',
    run schedule s0 = (h', (pc_done t, p1'), (pc_done t, p2'))
    /\ Heap.mark h' old = markOopDesc.encode_pointer_as_mark t
    /\ ((claims_won p1' = S (claims_won p1) /\ claims_won p2' = claims_won p2)
        \/ (claims_won p1' = claims_won p1 /\ claims_won p2' = S (claims_won p2))).
Proof.
  intros s0 Hold Hm Hc1 Hc2 Hok.
  assert (Hinv0 : race_inv old (claims_won p1) (claims_won p2) s0).
  { left. unfold before_claim. simpl. auto. }
  pose proof (run_inv old _ _ schedule s0 Hold Hok Hinv0) as Hinv.
  destruct (run_rank schedule s0) as [Hr1 Hr2].
  destruct (run schedule s0) as [[h' [pc1 p1']] [pc2 p2']].
  cbn [fst snd pc_rank s0] in Hr1, Hr2.
  destruct pc1 as [| | |r1]; cbn [pc_rank] in Hr1; [lia|lia|lia|].
  destruct pc2 as [| | |r2]; cbn [pc_rank] in Hr2; [lia|lia|lia|].
  unfold race_inv in Hinv.
  destruct Hinv as [(_ & Hb & _)|(t & Hmark & _ & _ & Hcase)].
  { destruct Hb as [_ Hb]. simpl in Hb. contradiction. }
  unfold claim_won, claim_lost, before_claim in Hcase.
  simpl fst in Hcase. simpl snd in Hcase. cbv iota in Hcase.
  exists t, h', p1', p2'.
  destruct Hcase as [[[Hr Hw] [[_ Hf]|[Hr' Hl]]]|[[Hr Hw] [[_ Hf]|[Hr' Hl]]]];
    try contradiction; subst r1 r2;
    (split; [reflexivity|]); (split; [exact Hmark|]); [left|right]; auto.
Qed.

End RaceTheorem.

(** *** The lost claim and the race *)

Section LostClaimTheorem.

Context {A : Type} {PA : G1PLABAllocator A} {SC : G1ParScanClosure}.

Abbreviation PSS := (G1ParScanThreadState A).

(** C1: when the claim of [copy_to_survivor_space] finds that a peer has
    installed a forwarding marker, the call undoes the allocation it just
    made ([undo_allocation] with the class, pointer and size of the last
    allocation), neither copies nor scans, leaves the heap as it was and
    answers the peer's target.  And when two workers race for the same
    unforwarded object, under every interleaving of their steps exactly one
    claim succeeds and both answer the pointer that claim installed. *)
Theorem lost_claim_undoes_and_answers_peer :
  (forall state old m h (p : PSS),
     reaches_claim state old m h p ->
     markOopDesc.is_marked (Heap.mark h old) = true ->
     markOopDesc.decode_pointer (Heap.mark h old) <> NULL ->
     let result := copy_to_survivor_space state old m h p in
     let p' := snd result in
     let target := markOopDesc.decode_pointer (Heap.mark h old) in
     let sz := o_size (Heap.obj h old) in
     fst (fst result) = target
     /\ snd (fst result) = h
     /\ List.existsb is_copy (new_events p p') = false
     /\ List.existsb is_scan (new_events p p') = false
     /\ exists pre d ptr c,
          new_events p p'
          = pre ++ [ev_prefetch_write ptr;
                    ev_forward_to_atomic old ptr target;
                    ev_undo_allocation d ptr sz c]
          /\ last_allocation pre = Some (d, sz, c, ptr)
          /\ ptr <> NULL
          /\ _plab_allocator p'
             = undo_allocation (_plab_allocator (snd (prepare state old m h p)))
                               d ptr sz c)
  /\ (forall schedule st1 st2 old m1 m2 h (p1 p2 : PSS),
        let s0 : system :=
          (h, (pc_start st1 old m1, p1), (pc_start st2 old m2, p2)) in
        old <> NULL ->
        markOopDesc.is_marked (Heap.mark h old) = false ->
        (3 <= count_occ bool_dec schedule true)%nat ->
        (3 <= count_occ bool_dec schedule false)%nat ->
        targets_ok old schedule s0 = true ->
        exists t h' p1' p2',
          run schedule s0 = (h', (pc_done t, p1'), (pc_done t, p2'))
          /\ Heap.mark h' old = markOopDesc.encode_pointer_as_mark t
          /\ ((claims_won p1' = S (claims_won p1) /\ claims_won p2' = claims_won p2)
              \/ (claims_won p1' = claims_won p1
                  /\ claims_won p2' = S (claims_won p2)))).
Proof.
  split.
  - intros state old m h p Hreach Hm Hnn result p' target sz.
    destruct (lost_claim_outcome state old m h p Hreach Hm Hnn)
      as (pre & d & ptr & a1 & t' & E & Ha & Hlast & Hptr & _ & Hc & Hs & _).
    subst p' result. rewrite E. simpl fst. simpl snd.
    match goal with
    | |- context [new_events p ?q] =>
      assert (Hnew : new_events p q
                     = pre ++ [ev_prefetch_write ptr;
                               ev_forward_to_atomic old ptr target;
                               ev_undo_allocation d ptr sz
                                 (r_allocation_context
                                    (Heap.region h
                                       (Heap.heap_region_containing_raw h old)))])
        by (apply new_events_app; reflexivity)
    end.
    rewrite Hnew.
    split; [reflexivity|]. split; [reflexivity|].
    split; [apply existsb_app_false; [exact Hc|reflexivity]|].
    split; [apply existsb_app_false; [exact Hs|reflexivity]|].
    eexists pre, d, ptr, _. split; [reflexivity|].
    split; [exact Hlast|]. split; [exact Hptr|]. rewrite Ha. reflexivity.
  - intros schedule st1 st2 old m1 m2 h p1 p2.
    apply race_for_one_object.
Qed.

End LostClaimTheorem.

Lemma lost_claim_undoes_and_answers_peer_witness :
  let sc := Scenario.one_field_scanner in
  let m := Scenario.neutral_mark 2 in
  let p := Scenario.pss 0 3 (Scenario.allocator 100 100 100) in
  let q := Scenario.pss 1 3 Scenario.second_allocator in
  let s0 : system :=
    (Scenario.heap true false, (pc_start Young 64 m, p), (pc_start Young 64 m, q)) in
  let schedule := [true; false; false; true; false; true] in
  (reaches_claim (SC := sc) Young 64 m Scenario.peer_heap p
   /\ markOopDesc.is_marked (Heap.mark Scenario.peer_heap 64) = true
   /\ markOopDesc.decode_pointer (Heap.mark Scenario.peer_heap 64) <> NULL
   /\ fst (fst (copy_to_survivor_space (SC := sc) Young 64 m Scenario.peer_heap p)) = 3584)
  /\ (64 <> NULL
      /\ markOopDesc.is_marked (Heap.mark (Scenario.heap true false) 64) = false
      /\ (3 <= count_occ bool_dec schedule true)%nat
      /\ (3 <= count_occ bool_dec schedule false)%nat
      /\ targets_ok (SC := sc) 64 schedule s0 = true
      /\ exists t h' p1' p2',
           run (SC := sc) schedule s0 = (h', (pc_done t, p1'), (pc_done t, p2'))
           /\ Heap.mark h' 64 = markOopDesc.encode_pointer_as_mark t
           /\ ((claims_won p1' = S (claims_won p) /\ claims_won p2' = claims_won q)
               \/ (claims_won p1' = claims_won p /\ claims_won p2' = S (claims_won q)))).
Proof.
  intros sc m p q s0 schedule.
  destruct (lost_claim_undoes_and_answers_peer (SC := sc)) as [Hlost Hrace].
  split.
  - assert (Hr : reaches_claim (SC := sc) Young 64 m Scenario.peer_heap p).
    { unfold reaches_claim. vm_compute. intuition discriminate. }
    assert (Hm : markOopDesc.is_marked (Heap.mark Scenario.peer_heap 64) = true)
      by (vm_compute; reflexivity).
    assert (Hn : markOopDesc.decode_pointer (Heap.mark Scenario.peer_heap 64) <> NULL)
      by (vm_compute; discriminate).
    split; [exact Hr|]. split; [exact Hm|]. split; [exact Hn|].
    destruct (Hlost Young 64 m Scenario.peer_heap p Hr Hm Hn) as (Hres & _).
    rewrite Hres. vm_compute. reflexivity.
  - assert (H1 : 64 <> NULL) by discriminate.
    assert (H2 : markOopDesc.is_marked (Heap.mark (Scenario.heap true false) 64) = false)
      by (vm_compute; reflexivity).
    assert (H3 : (3 <= count_occ bool_dec schedule true)%nat) by (vm_compute; lia).
    assert (H4 : (3 <= count_occ bool_dec schedule false)%nat) by (vm_compute; lia).
    assert (H5 : targets_ok (SC := sc) 64 schedule s0 = true) by (vm_compute; reflexivity).
    split; [exact H1|]. split; [exact H2|]. split; [exact H3|]. split; [exact H4|].
    split; [exact H5|].
    exact (Hrace schedule Young Young 64 m m (Scenario.heap true false) p q H1 H2 H3 H4 H5).
Defined.

(** The race of the design document: a 4-word young object of age 2 with a
    tenuring threshold of 3.  The second worker claims first; the first
    worker undoes its 4 words and both answer the second worker's copy. *)
Example race_scenario :
  let sc := Scenario.one_field_scanner in
  let m := Scenario.neutral_mark 2 in
  let p := Scenario.pss 0 3 (Scenario.allocator 100 100 100) in
  let q := Scenario.pss 1 3 Scenario.second_allocator in
  let final :=
    run (SC := sc) [true; false; false; true; false; true]
        (Scenario.heap true false, (pc_start Young 64 m, p), (pc_start Young 64 m, q)) in
  fst (snd (fst final)) = pc_done 5120
  /\ fst (snd final) = pc_done 5120
  /\ Bump.waste (_plab_allocator (snd (snd (fst final)))) = (0, 4)
  /\ Bump.waste (_plab_allocator (snd (snd final))) = (0, 0).
Proof. vm_compute. repeat split; reflexivity. Qed.

(** ** Draining the queue *)

Section TrimFacts.

Context {A : Type} {RD : ReferenceDispatcher A}.

Abbreviation PSS := (G1ParScanThreadState A).

Lemma pop_none_empty (q : RefToScanQueue) :
  Queue.pop_overflow q = None -> Queue.pop_local q = None -> Queue.is_empty q = true.
Proof.
  unfold Queue.pop_overflow, Queue.pop_local, Queue.is_empty.
  destruct (q_overflow q), (q_local q); intros; congruence.
Qed.

Lemma replay_app (l1 l2 : list pop_record) h (p : PSS) h1 p1 :
  replay l1 h p = Some (h1, p1) -> replay (l1 ++ l2) h p = replay l2 h1 p1.
Proof.
  revert h p. induction l1 as [|r l1 IH]; intros h p; simpl.
  - intros [= -> ->]. reflexivity.
  - destruct (pop_of (pop_part r) (_refs p)) as [[ref q]|]; [|discriminate].
    destruct (decide _); [|discriminate].
    destruct (dispatch_reference ref h (set_refs q p)) as [h2 p2]. apply IH.
Qed.

(** One of the two inner loops: it dispatches what it pops, in order, and
    stops when its part is empty. *)
Lemma drain_spec part fuel h (p : PSS) log h' p' :
  drain (pop_of part) part fuel h p = Some (log, h', p') ->
  replay log h p = Some (h', p')
  /\ pop_of part (_refs p') = None
  /\ Forall (fun x => pop_part x = part) log
  /\ match log with
     | x :: _ => pop_queue x = _refs p
     | [] => h' = h /\ p' = p
     end.
Proof.
  revert h p log h' p'. induction fuel as [|fuel IH]; intros h p log h' p'; simpl.
  - discriminate.
  - destruct (pop_of part (_refs p)) as [[ref q]|] eqn:Hpop.
    + destruct (dispatch_reference ref h (set_refs q p)) as [h1 p1] eqn:Hd.
      destruct (drain (pop_of part) part fuel h1 p1) as [[[log1 h2] p2]|] eqn:Hrec;
        [|discriminate].
      intros [= <- <- <-].
      destruct (IH _ _ _ _ _ Hrec) as (Hrep & Hnone & Hall & _).
      simpl. rewrite Hpop. rewrite decide_True by auto. rewrite Hd.
      repeat split; auto.
    + intros [= <- <- <-]. simpl. repeat split; auto.
Qed.

Lemma trim_queue_spec fuel h (p : PSS) rounds h' p' :
  trim_queue fuel h p = Some (rounds, h', p') ->
  Queue.is_empty (_refs p') = true
  /\ Forall round_ok rounds
  /\ replay (all_pops rounds) h p = Some (h', p')
  /\ trim_run h p rounds h' p'.
Proof.
  revert h p rounds h' p'. induction fuel as [|fuel IH]; intros h p rounds h' p'; simpl.
  - discriminate.
  - change Queue.pop_overflow with (pop_of Overflow).
    change Queue.pop_local with (pop_of Local).
    destruct (drain (pop_of Overflow) Overflow fuel h p) as [[[ovf h1] p1]|] eqn:Ho;
      [|discriminate].
    destruct (drain (pop_of Local) Local fuel h1 p1) as [[[loc h2] p2]|] eqn:Hl;
      [|discriminate].
    destruct (drain_spec _ _ _ _ _ _ _ Ho) as (Hrep1 & Hnone1 & Hall1 & _).
    destruct (drain_spec _ _ _ _ _ _ _ Hl) as (Hrep2 & Hnone2 & Hall2 & Hhead).
    assert (Hround : round_ok (ovf, loc)).
    { repeat split; auto. simpl. destruct loc as [|x loc]; [exact I|].
      rewrite Hhead. simpl in Hnone1. unfold Queue.pop_overflow in Hnone1.
      destruct (q_overflow (_refs p1)); [reflexivity|discriminate]. }
    assert (Hrep : replay (ovf ++ loc) h p = Some (h2, p2)).
    { rewrite (replay_app _ _ _ _ _ _ Hrep1). exact Hrep2. }
    destruct (Queue.is_empty (_refs p2)) eqn:He; simpl.
    + intros [= <- <- <-]. split; [exact He|]. split; [constructor; [exact Hround|constructor]|].
      split; [|apply trim_run_last; assumption].
      unfold all_pops. simpl. rewrite app_nil_r. exact Hrep.
    + destruct (trim_queue fuel h2 p2) as [[[rounds1 h3] p3]|] eqn:Hrec; [|discriminate].
      intros [= <- <- <-].
      destruct (IH _ _ _ _ _ Hrec) as (He3 & Hall3 & Hrep3 & Hrun3).
      split; [exact He3|]. split; [constructor; assumption|].
      split; [|eapply trim_run_again; eassumption].
      unfold all_pops. simpl. rewrite (replay_app _ _ _ _ _ _ Hrep). exact Hrep3.
Qed.

(** With fuel above the measure a loop ends, and a loop that popped has
    decreased the measure. *)
Lemma drain_terminates mu part :
  dispatch_decreases mu ->
  forall fuel h (p : PSS),
    (mu h p < fuel)%nat ->
    exists log h' p',
      drain (pop_of part) part fuel h p = Some (log, h', p')
      /\ ((log = [] /\ h' = h /\ p' = p) \/ (mu h' p' < mu h p)%nat).
Proof.
  intros Hdec. induction fuel as [|fuel IH]; intros h p Hlt; [lia|].
  simpl. destruct (pop_of part (_refs p)) as [[ref q]|] eqn:Hpop.
  - pose proof (Hdec part ref q h p Hpop) as Hd.
    destruct (dispatch_reference ref h (set_refs q p)) as [h1 p1]. simpl in Hd.
    destruct (IH h1 p1 ltac:(lia)) as (log & h' & p' & E & Hcase).
    rewrite E. eexists _, _, _. split; [reflexivity|].
    right. destruct Hcase as [(_ & -> & ->)|Hlt']; lia.
  - eexists _, _, _. split; [reflexivity|]. left. auto.
Qed.

Lemma trim_queue_terminates mu :
  dispatch_decreases mu ->
  forall n fuel h (p : PSS),
    (mu h p <= n)%nat -> (n + 2 <= fuel)%nat ->
    exists rounds h' p', trim_queue fuel h p = Some (rounds, h', p').
Proof.
  intros Hdec. induction n as [|n IH]; intros fuel h p Hmu Hfuel;
    (destruct fuel as [|fuel]; [lia|]); simpl;
    change Queue.pop_overflow with (pop_of Overflow);
    change Queue.pop_local with (pop_of Local);
    destruct (drain_terminates mu Overflow Hdec fuel h p ltac:(lia))
      as (ovf & h1 & p1 & Eo & Ho);
    rewrite Eo;
    (assert (Hmu1 : (mu h1 p1 <= mu h p)%nat)
       by (destruct Ho as [(_ & -> & ->)|Ho]; lia));
    destruct (drain_terminates mu Local Hdec fuel h1 p1 ltac:(lia))
      as (loc & h2 & p2 & El & Hl);
    rewrite El;
    destruct (Queue.is_empty (_refs p2)) eqn:He; simpl;
    try (eexists _, _, _; reflexivity).
  - exfalso.
    destruct Ho as [(-> & -> & ->)|Ho]; [|lia].
    destruct Hl as [(-> & -> & ->)|Hl]; [|lia].
    destruct (drain_spec _ _ _ _ _ _ _ Eo) as (_ & Hn1 & _).
    destruct (drain_spec _ _ _ _ _ _ _ El) as (_ & Hn2 & _).
    rewrite (pop_none_empty _ Hn1 Hn2) in He. discriminate He.
  - assert (Hlt : (mu h2 p2 < mu h p)%nat).
    { destruct Ho as [(-> & -> & ->)|Ho].
      - destruct Hl as [(-> & -> & ->)|Hl]; [|lia].
        exfalso.
        destruct (drain_spec _ _ _ _ _ _ _ Eo) as (_ & Hn1 & _).
        destruct (drain_spec _ _ _ _ _ _ _ El) as (_ & Hn2 & _).
        rewrite (pop_none_empty _ Hn1 Hn2) in He. discriminate He.
      - destruct Hl as [(_ & -> & ->)|Hl]; lia. }
    destruct (IH fuel h2 p2 ltac:(lia) ltac:(lia)) as (rounds & h3 & p3 & E).
    rewrite E. eexists _, _, _. reflexivity.
Qed.

(** C8: [trim_queue] returns only with both parts of the queue empty.
    Each round of its outer loop pops and dispatches from the overflow part
    until that part is empty, and only then from the local part; what it
    dispatched is exactly what it popped, in that order.  A round that
    leaves tasks behind, pushed by its dispatches, is followed by another
    round, and the loop still returns whenever each dispatch decreases some
    measure of the work left. *)
Theorem trim_queue_drains :
  (forall fuel h (p : PSS) rounds h' p',
     trim_queue fuel h p = Some (rounds, h', p') ->
     Queue.is_empty (_refs p') = true
     /\ q_local (_refs p') = [] /\ q_overflow (_refs p') = []
     /\ Forall round_ok rounds
     /\ replay (all_pops rounds) h p = Some (h', p')
     /\ trim_run h p rounds h' p')
  /\ (forall mu,
        dispatch_decreases mu ->
        forall h (p : PSS),
        exists rounds h' p', trim_queue (mu h p + 2) h p = Some (rounds, h', p')).
Proof.
  split.
  - intros fuel h p rounds h' p' E.
    destruct (trim_queue_spec _ _ _ _ _ _ E) as (He & Hr & Hrep & Hrun).
    split; [exact He|]. unfold Queue.is_empty in He.
    destruct (q_local (_refs p')), (q_overflow (_refs p')); try discriminate He. auto.
  - intros mu Hdec h p. apply (trim_queue_terminates mu Hdec (mu h p)); lia.
Qed.

End TrimFacts.

Lemma queue_weight_push t q :
  Scenario.queue_weight (Queue.push t q)
  = (Scenario.weight t + Scenario.queue_weight q)%nat.
Proof.
  unfold Queue.push, Scenario.queue_weight.
  destruct (_ <? _)%nat; simpl; lia.
Qed.

Lemma queue_weight_pop part q ref q' :
  pop_of part q = Some (ref, q') ->
  Scenario.queue_weight q = (Scenario.weight ref + Scenario.queue_weight q')%nat.
Proof.
  unfold Scenario.queue_weight.
  destruct part; simpl; unfold Queue.pop_overflow, Queue.pop_local.
  - destruct (q_overflow q) as [|t rest]; [discriminate|].
    intros [= <- <-]. simpl. lia.
  - destruct (q_local q) as [|t rest]; [discriminate|].
    intros [= <- <-]. simpl. lia.
Qed.

Lemma countdown_decreases :
  dispatch_decreases (RD := Scenario.countdown_dispatcher) Scenario.work_left.
Proof.
  intros part ref q h p Hpop. simpl. unfold Scenario.work_left.
  rewrite (queue_weight_pop _ _ _ _ Hpop).
  assert (Hpos : forall t, (1 <= Scenario.weight t)%nat).
  { intros [n|n|n]; simpl; try lia.
    pose proof (Nat.pow_nonzero 3 (Z.to_nat n)). lia. }
  unfold Scenario.countdown.
  destruct ref as [n|n|n]; simpl; try (pose proof (Hpos (NarrowRef 0)); simpl in *; lia).
  destruct (Z.ltb_spec 0 n); simpl.
  - rewrite !queue_weight_push. simpl.
    replace (Z.to_nat n) with (S (Z.to_nat (n - 1))) by lia.
    rewrite Nat.pow_succ_r'.
    pose proof (Nat.pow_nonzero 3 (Z.to_nat (n - 1))). lia.
  - pose proof (Nat.pow_nonzero 3 (Z.to_nat n)). lia.
Qed.

Lemma trim_queue_drains_witness :
  let rd := Scenario.countdown_dispatcher in
  let h := Scenario.heap true false in
  let p := Scenario.busy_pss in
  (exists rounds h' p',
     trim_queue (RD := rd) 5 h p = Some (rounds, h', p')
     /\ length rounds = 2%nat
     /\ Queue.is_empty (_refs p') = true)
  /\ dispatch_decreases (RD := rd) Scenario.work_left
  /\ exists rounds h' p',
       trim_queue (RD := rd) (Scenario.work_left h p + 2) h p = Some (rounds, h', p').
Proof.
  intros rd h p.
  destruct (trim_queue_drains (RD := rd)) as [Hdrain Hterm].
  split; [|split; [exact countdown_decreases|exact (Hterm _ countdown_decreases h p)]].
  destruct (trim_queue (RD := rd) 5 h p) as [[[rounds h'] p']|] eqn:E;
    [|vm_compute in E; discriminate E].
  exists rounds, h', p'. split; [reflexivity|].
  destruct (Hdrain 5%nat h p rounds h' p' E) as (He & _).
  split; [|exact He].
  vm_compute in E. injection E as <- _ _. reflexivity.
Defined.

(** Children pushed to the overflow part while the local loop runs are
    popped in a second round. *)
Example trim_queue_second_round :
  option_map (fun r => map (fun x => (map pop_task (fst x), map pop_task (snd x))) (fst (fst r)))
    (trim_queue (RD := Scenario.countdown_dispatcher) 5
       (Scenario.heap true false) Scenario.busy_pss)
  = Some [([], [WideRef 1; WideRef 0]); ([WideRef 0], [])].
Proof. vm_compute. reflexivity. Qed.

(** ** Termination statistics *)

Lemma double_div_zero x y : is_zero y = true -> is_finite (double_div x y) = false.
Proof. destruct y; try discriminate. intros _. destruct x; reflexivity. Qed.

Lemma double_div_finite x y :
  is_finite (double_div x y) = true -> is_zero y = false /\ y <> S754_nan.
Proof.
  destruct y; destruct x; simpl; try discriminate; intros _; split; congruence.
Qed.

Lemma double_mul_d1000_zero x : is_zero x = true -> is_zero (double_mul x d1000) = true.
Proof. destruct x; try discriminate. reflexivity. Qed.

Lemma double_mul_d1000_defined x :
  is_zero (double_mul x d1000) = false -> double_mul x d1000 <> S754_nan ->
  is_zero x = false /\ x <> S754_nan.
Proof. destruct x; simpl; intros; split; congruence. Qed.

Lemma positive_of_sign x :
  is_zero x = false -> x <> S754_nan -> sign_bit x = false -> is_positive x = true.
Proof.
  destruct x as [s|s| |s m e]; simpl; try congruence; intros _ _ ->; reflexivity.
Qed.

Section StatsFacts.

Context {A : Type} {PA : G1PLABAllocator A}.

(** C10: [print_termination_stats] divides by the elapsed time without
    looking at it.  When the elapsed time is zero the divisor is zero and
    neither percentage is a finite number; read the other way, a finite
    percentage of a non-negative elapsed time means the elapsed time is
    greater than zero. *)
Theorem termination_percentages_need_elapsed_time (p : G1ParScanThreadState A) now :
  let st := print_termination_stats p now in
  (st_s_roots_percent st
   = double_div (double_mul (double_mul (_strong_roots_time p) d1000) d100)
                (double_mul (elapsed_time p now) d1000)
   /\ st_term_percent st
      = double_div (double_mul (double_mul (_term_time p) d1000) d100)
                   (double_mul (elapsed_time p now) d1000))
  /\ (is_zero (elapsed_time p now) = true ->
      is_zero (st_elapsed_ms st) = true
      /\ is_finite (st_s_roots_percent st) = false
      /\ is_finite (st_term_percent st) = false)
  /\ (is_finite (st_s_roots_percent st) = true \/ is_finite (st_term_percent st) = true ->
      sign_bit (elapsed_time p now) = false ->
      is_positive (elapsed_time p now) = true).
Proof.
  intros st. subst st. unfold print_termination_stats.
  destruct (waste (_plab_allocator p)) as [aw uw]. simpl.
  split; [split; reflexivity|]. split.
  - intros Hz. pose proof (double_mul_d1000_zero _ Hz) as Hms.
    split; [exact Hms|]. split; apply double_div_zero; exact Hms.
  - intros Hfin Hsign.
    assert (Hd : is_zero (double_mul (elapsed_time p now) d1000) = false
                 /\ double_mul (elapsed_time p now) d1000 <> S754_nan).
    { destruct Hfin as [Hfin|Hfin]; apply double_div_finite in Hfin; exact Hfin. }
    destruct Hd as [Hnz Hnn].
    destruct (double_mul_d1000_defined _ Hnz Hnn) as [Hez Hen].
    apply positive_of_sign; assumption.
Qed.

End StatsFacts.

Lemma termination_percentages_need_elapsed_time_witness :
  let zero := S754_zero false in
  let half := SFdiv 53 1024 (double_of_Z 1) (double_of_Z 2) in
  let p := Scenario.timed_pss zero half zero in
  let st := print_termination_stats p zero in
  is_zero (elapsed_time p zero) = true
  /\ st_s_roots_percent st = S754_infinity false
  /\ st_term_percent st = S754_nan
  /\ is_finite (st_s_roots_percent st) = false.
Proof.
  intros zero half p st.
  assert (Hz : is_zero (elapsed_time p zero) = true) by (vm_compute; reflexivity).
  split; [exact Hz|].
  destruct (termination_percentages_need_elapsed_time p zero) as ((Hs & Ht) & Hzero & _).
  destruct (Hzero Hz) as (_ & Hf & _).
  split; [|split; [|exact Hf]].
  - subst st. rewrite Hs. vm_compute. reflexivity.
  - subst st. rewrite Ht. vm_compute. reflexivity.
Defined.

(** With one second elapsed and half a second in strong roots the
    percentage is 50. *)
Example termination_percentages_one_second :
  let zero := S754_zero false in
  let half := SFdiv 53 1024 (double_of_Z 1) (double_of_Z 2) in
  let st := print_termination_stats (Scenario.timed_pss zero half zero) (double_of_Z 1) in
  st_elapsed_ms st = d1000
  /\ st_s_roots_percent st = double_of_Z 50
  /\ st_term_percent st = zero.
Proof. vm_compute. repeat split; reflexivity. Qed.


(** * Further properties of the code *)

(** ** Memory asked for, used and given back *)

Section MemoryFacts.

Context {A : Type} {PA : G1PLABAllocator A} {SC : G1ParScanClosure}.

Abbreviation PSS := (G1ParScanThreadState A).

(** The events of a call: those of [prepare], the claim, and what
    [complete_trace] says of the rest. *)
Lemma call_events state old m h (p : PSS) :
  let req := fst (prepare state old m h p) in
  let f := fst (claim req h) in
  exists evs2,
    new_events p (snd (copy_to_survivor_space state old m h p))
    = new_events p (snd (prepare state old m h p))
      ++ ev_forward_to_atomic old (cl_target req) f :: evs2
    /\ Forall (fun e => allocator_answer e = None) evs2
    /\ List.filter is_undo evs2
       = (if negb (cl_self req) && negb (f =? NULL)
          then [ev_undo_allocation (cl_dest_state req) (cl_target req)
                                   (cl_word_sz req) (cl_context req)]
          else [])
    /\ List.existsb is_copy evs2 = negb (cl_self req) && (f =? NULL)
    /\ List.filter is_allocation_step evs2 = [].
Proof.
  intros req f. subst req f.
  rewrite copy_to_survivor_space_steps.
  destruct (prepare_trace state old m h p) as (Htr & Ho & _).
  destruct (prepare state old m h p) as [req p1]. simpl fst in *. simpl snd in *.
  destruct (claim req h) as [f h1]. simpl fst.
  destruct (complete_trace req f h1 p1) as (evs2 & Htr2 & Hnone & Hundo & Hcopy & Hstep).
  exists evs2. split; [|auto].
  apply new_events_app. rewrite Htr2, Htr, Ho, <- app_assoc. reflexivity.
Qed.


(** A call that reaches its claim has given nothing back before it. *)
Lemma prepare_undo_free state old m h (p : PSS) :
  cl_self (fst (prepare state old m h p)) = false ->
  List.filter is_undo (new_events p (snd (prepare state old m h p))) = [].
Proof.
  intros Hs.
  destruct (prepare_trace state old m h p) as (_ & _ & _ & _ & Hshape).
  unfold after_allocation in Hshape.
  destruct Hshape as [(r & _ & -> & Hself & _)
                     |[(r & _ & -> & Hself & _)
                      |[(r & _ & _ & -> & Hself & _)
                       |(_ & Hself & _)]]];
    rewrite Hs in Hself; try discriminate Hself;
    rewrite <- Hself; reflexivity.
Qed.

(** X1: in every call the allocator is asked at least once, and the
    memory it last handed out is given back with [undo_allocation] exactly
    when it was obtained and no copy was made into it (a lost claim, or the
    fault-injection hook); a call that copies never undoes, and no call
    undoes twice. *)
Theorem allocation_undone_exactly_when_unused state old m h (p : PSS) :
  let evs := new_events p (snd (copy_to_survivor_space state old m h p)) in
  exists d sz c ptr,
    last_allocation evs = Some (d, sz, c, ptr)
    /\ List.filter is_undo evs
       = (if (ptr =? NULL) || List.existsb is_copy evs then []
          else [ev_undo_allocation d ptr sz c]).
Proof.
  intros evs.
  destruct (call_events state old m h p) as (evs2 & Hev & Hnone & Hundo & Hcopy & _).
  destruct (prepare_trace state old m h p)
    as (_ & Ho & Hsz & Hc & Hshape).
  fold evs in Hev.
  set (evs1 := new_events p (snd (prepare state old m h p))) in *.
  set (req := fst (prepare state old m h p)) in *.
  set (f := fst (claim req h)) in *.
  assert (Hlast : last_allocation evs = last_allocation evs1).
  { rewrite Hev. apply last_allocation_app_none. constructor; [reflexivity|exact Hnone]. }
  assert (Hu : List.filter is_undo evs
               = List.filter is_undo evs1 ++ List.filter is_undo evs2).
  { rewrite Hev, List.filter_app. reflexivity. }
  assert (Hcp : List.existsb is_copy evs
                = List.existsb is_copy evs1 || List.existsb is_copy evs2).
  { rewrite Hev, List.existsb_app. reflexivity. }
  rewrite Hlast, Hu, Hcp, Hundo, Hcopy. clear Hlast Hu Hcp Hundo Hcopy Hev Hnone.
  set (injected := negb (h_PRODUCT h) && h_evacuation_should_fail h) in *.
  destruct Hshape as [(r & Hr & -> & -> & -> & ->)
                     |[(r & Hr & -> & -> & -> & ->)
                      |[(r & Hr & Hy & -> & -> & -> & ->)
                       |(-> & -> & _)]]].
  - apply Z.eqb_neq in Hr. rewrite Hsz, Hc.
    eexists _, _, _, r. unfold after_allocation.
    destruct injected; simpl; (split; [reflexivity|]); rewrite Hr; simpl;
      [reflexivity|]. destruct (f =? NULL); reflexivity.
  - apply Z.eqb_neq in Hr. rewrite Hsz, Hc.
    eexists _, _, _, r. unfold after_allocation.
    destruct injected; simpl; (split; [reflexivity|]); rewrite Hr; simpl;
      [reflexivity|]. destruct (f =? NULL); reflexivity.
  - apply Z.eqb_neq in Hr. rewrite Hsz, Hc.
    eexists _, _, _, r. unfold after_allocation.
    destruct injected; simpl; (split; [reflexivity|]); rewrite Hr; simpl;
      [reflexivity|]. destruct (f =? NULL); reflexivity.
  - destruct (InCSet.is_young (fst (next_state p h state m 0)));
      eexists _, _, _, NULL; simpl; split; reflexivity.
Qed.

(** X2: unless the fault-injection hook of a non-product build fires,
    the object is handed to [handle_evacuation_failure_par] exactly when
    every request to the allocator was answered [NULL]. *)
Theorem handed_over_iff_exhausted_without_injection state old m h (p : PSS) :
  negb (h_PRODUCT h) && h_evacuation_should_fail h = false ->
  let evs := new_events p (snd (copy_to_survivor_space state old m h p)) in
  In (ev_handle_evacuation_failure_par old m) evs
  <-> (forall e d sz c r, In e evs -> allocator_answer e = Some (d, sz, c, r) -> r = NULL).
Proof.
  intros Hinj evs.
  destruct (call_events state old m h p) as (evs2 & Hev & Hnone & _ & _ & Hstep).
  destruct (prepare_trace state old m h p) as (_ & _ & _ & _ & Hshape).
  rewrite Hinj in Hshape. unfold after_allocation in Hshape.
  fold evs in Hev. rewrite Hev. clear Hev.
  set (evs1 := new_events p (snd (prepare state old m h p))) in *.
  split.
  - intros Hin e d sz c r He Hans.
    assert (Hin1 : In (ev_handle_evacuation_failure_par old m) evs1).
    { apply in_app_or in Hin. destruct Hin as [Hin|[Hin|Hin]];
        [exact Hin|discriminate Hin|].
      assert (Hf : In (ev_handle_evacuation_failure_par old m)
                      (List.filter is_allocation_step evs2))
        by (apply List.filter_In; split; [exact Hin|reflexivity]).
      rewrite Hstep in Hf. destruct Hf. }
    assert (He1 : In e evs1).
    { apply in_app_or in He. destruct He as [He|[<-|He]];
        [exact He|discriminate Hans|].
      rewrite Forall_forall in Hnone.
      specialize (Hnone e ltac:(apply list_elem_of_In; exact He)). congruence. }
    clear Hin He.
    destruct Hshape as [(r0 & _ & E & _)|[(r0 & _ & E & _)|[(r0 & _ & _ & E & _)|(E & _)]]];
      rewrite E in Hin1, He1; simpl in Hin1, He1.
    + repeat (destruct Hin1 as [Hin1|Hin1]; [discriminate Hin1|]). destruct Hin1.
    + repeat (destruct Hin1 as [Hin1|Hin1]; [discriminate Hin1|]). destruct Hin1.
    + repeat (destruct Hin1 as [Hin1|Hin1]; [discriminate Hin1|]). destruct Hin1.
    + destruct (InCSet.is_young _); simpl in He1;
        repeat (destruct He1 as [<-|He1];
                [simpl in Hans;
                 first [discriminate Hans | injection Hans as _ _ _ <-; reflexivity]|]);
        destruct He1.
  - intros Hall. apply in_or_app. left.
    destruct Hshape as [(r0 & Hr & E & _)|[(r0 & Hr & E & _)|[(r0 & Hr & _ & E & _)|(E & _)]]];
      rewrite E.
    + exfalso. apply Hr.
      eapply (Hall (ev_plab_allocate _ _ _ r0)); [|reflexivity].
      apply in_or_app. left. rewrite E. simpl. auto.
    + exfalso. apply Hr.
      eapply (Hall (ev_allocate_direct_or_new_plab _ _ _ r0)); [|reflexivity].
      apply in_or_app. left. rewrite E. simpl. auto.
    + exfalso. apply Hr.
      eapply (Hall (ev_allocate Old _ _ r0)); [|reflexivity].
      apply in_or_app. left. rewrite E. simpl. auto.
    + destruct (InCSet.is_young _); simpl; auto 10.
Qed.

(** X3: for a worker state built by the constructor, a call asks the
    allocator for young memory only when the source state is young and the
    header's age is below the tenuring threshold; and in that case its first
    request is [plab_allocate] for young memory. *)
Theorem young_memory_only_below_threshold state old m h (p : PSS) :
  constructed p ->
  let evs := new_events p (snd (copy_to_survivor_space state old m h p)) in
  (forall e sz c r,
     In e evs -> allocator_answer e = Some (Young, sz, c, r) ->
     state = Young /\ Heap.age_of_mark h m < _tenuring_threshold p)
  /\ (state = Young -> Heap.age_of_mark h m < _tenuring_threshold p ->
      exists r rest,
        evs = ev_plab_allocate Young (o_size (Heap.obj h old))
                (r_allocation_context
                   (Heap.region h (Heap.heap_region_containing_raw h old))) r :: rest).
Proof.
  intros Hc evs.
  destruct (constructed_dest p Hc) as [Hd _].
  assert (Hnext : fst (next_state p h state m 0) = Young <->
                  state = Young /\ Heap.age_of_mark h m < _tenuring_threshold p).
  { unfold next_state, Heap.age_of_mark, dest. rewrite Hd.
    destruct state; simpl.
    - split; [discriminate|intros [? _]; discriminate].
    - destruct (Z.ltb_spec
                  (if negb (markOopDesc.has_displaced_mark_helper m)
                   then markOopDesc.age m
                   else markOopDesc.age (Heap.displaced_mark_helper h m))
                  (_tenuring_threshold p)); simpl.
      + split; auto.
      + split; [discriminate|intros [_ ?]; lia].
    - split; [discriminate|intros [? _]; discriminate]. }
  destruct (call_events state old m h p) as (evs2 & Hev & Hnone & _).
  destruct (prepare_trace state old m h p) as (_ & _ & _ & _ & Hshape).
  fold evs in Hev.
  set (evs1 := new_events p (snd (prepare state old m h p))) in *.
  set (d := fst (next_state p h state m 0)) in *.
  split.
  - intros e sz c r He Hans. apply Hnext.
    assert (He1 : In e evs1).
    { rewrite Hev in He. apply in_app_or in He. destruct He as [He|[<-|He]];
        [exact He|discriminate Hans|].
      rewrite Forall_forall in Hnone.
      specialize (Hnone e ltac:(apply list_elem_of_In; exact He)). congruence. }
    clear He.
    unfold after_allocation in Hshape.
    destruct Hshape as [(r0 & _ & E & _)|[(r0 & _ & E & _)|[(r0 & _ & Hy & E & _)|(E & _)]]];
      rewrite E in He1; try exact Hy;
      [destruct (negb _ && _)|destruct (negb _ && _)|destruct (InCSet.is_young d)];
      simpl in He1;
      repeat (destruct He1 as [<-|He1];
              [simpl in Hans; first [discriminate Hans | injection Hans as Hans _ _ _; auto]|]);
      destruct He1.
  - intros Hs Hage.
    assert (Hdy : d = Young) by (apply Hnext; auto).
    rewrite Hev.
    destruct Hshape as [(r0 & _ & E & _)|[(r0 & _ & E & _)|[(r0 & _ & _ & E & _)|(E & _)]]];
      rewrite E, Hdy; simpl; eexists _, _; reflexivity.
Qed.


(** X4: when [copy_to_survivor_space] hands the object to the
    evacuation-failure handler, the answer and the heap it leaves are those
    of [handle_evacuation_failure_par] on the same object and header; the
    queue ends as the handler leaves it, nothing is copied, and neither the
    age table nor the surviving-young-words table counts the object. *)
Theorem handed_over_object_is_evacuation_failure state old m h (p : PSS) :
  In (ev_handle_evacuation_failure_par old m)
     (new_events p (snd (copy_to_survivor_space state old m h p))) ->
  let result := copy_to_survivor_space state old m h p in
  let failed := handle_evacuation_failure_par old m h p in
  fst result = fst failed
  /\ _refs (snd result) = _refs (snd failed)
  /\ _age_table (snd result) = _age_table p
  /\ _surviving_young_words (snd result) = _surviving_young_words p
  /\ List.existsb is_copy (new_events p (snd result)) = false.
Proof.
  intros Hin result failed.
  assert (Hself : cl_self (fst (prepare state old m h p)) = true).
  { destruct (cl_self (fst (prepare state old m h p))) eqn:Hs; [reflexivity|].
    exfalso. apply reaches_claim_self in Hs. exact (Hs Hin). }
  destruct (call_events state old m h p) as (evs2 & Hev & _ & _ & Hcopy & _).
  destruct (prepare_outcome state old m h p)
    as (evs & d' & t & s & a' & t' & E & Htarget & _ & _ & _ & Hc1 & _).
  assert (Hcp : List.existsb is_copy (new_events p (snd result)) = false).
  { subst result. rewrite Hev, List.existsb_app. simpl.
    rewrite Hcopy, Hself.
    replace (new_events p (snd (prepare state old m h p))) with evs
      by (symmetry; apply new_events_app; rewrite E; reflexivity).
    rewrite Hc1. reflexivity. }
  subst result failed.
  rewrite copy_to_survivor_space_steps.
  rewrite (handle_evacuation_failure_par_steps NotInCSet old m 0 0 0 0 NotInCSet).
  rewrite copy_to_survivor_space_steps in Hcp.
  rewrite E in Hself, Hcp |- *. simpl in Hself. subst s.
  destruct (Htarget eq_refl) as [-> _].
  unfold prepare_failed, claim in Hcp |- *. simpl cl_old in Hcp |- *.
  simpl cl_target in Hcp |- *.
  destruct (Heap.forward_to_atomic old old h) as [f h1].
  match goal with
  | |- context [complete ?r1 f h1 ?q1] =>
    match goal with
    | |- context [fst (complete ?r2 f h1 ?q2) = fst (complete ?r3 f h1 ?q3)] =>
      destruct (complete_self_result r2 r3 f h1 q2 q3 eq_refl eq_refl eq_refl eq_refl
                  eq_refl eq_refl) as [Hres Hrefs];
      destruct (complete_tables r2 f h1 q2 (or_introl eq_refl)) as [Hat Hsv]
    end
  end.
  split; [exact Hres|]. split; [exact Hrefs|].
  split; [exact Hat|]. split; [exact Hsv|exact Hcp].
Qed.

End MemoryFacts.

Lemma handed_over_iff_exhausted_without_injection_witness :
  let p := Scenario.pss 7 5 (Scenario.allocator 0 0 0) in
  let h := Scenario.heap true false in
  let m := Scenario.neutral_mark 2 in
  let evs :=
    new_events p (snd (copy_to_survivor_space (SC := Scenario.one_field_scanner)
                         Young 64 m h p)) in
  negb (h_PRODUCT h) && h_evacuation_should_fail h = false
  /\ In (ev_handle_evacuation_failure_par 64 m) evs
  /\ forall e d sz c r, In e evs -> allocator_answer e = Some (d, sz, c, r) -> r = NULL.
Proof.
  intros p h m evs.
  assert (Hin : In (ev_handle_evacuation_failure_par 64 m) evs)
    by (vm_compute; auto 10).
  split; [reflexivity|]. split; [exact Hin|].
  apply (handed_over_iff_exhausted_without_injection (SC := Scenario.one_field_scanner)
           Young 64 m h p eq_refl).
  exact Hin.
Defined.

Lemma young_memory_only_below_threshold_witness :
  let p := Scenario.pss 0 5 (Scenario.allocator 100 100 100) in
  let h := Scenario.heap true false in
  let m := Scenario.neutral_mark 2 in
  constructed (SC := Scenario.one_field_scanner) p
  /\ Heap.age_of_mark h m < _tenuring_threshold p
  /\ exists r rest,
       new_events p (snd (copy_to_survivor_space (SC := Scenario.one_field_scanner)
                            Young 64 m h p))
       = ev_plab_allocate Young 4 0 r :: rest.
Proof.
  intros p h m.
  assert (Hage : Heap.age_of_mark h m < _tenuring_threshold p)
    by (vm_compute; reflexivity).
  split; [apply scenario_constructed|]. split; [exact Hage|].
  destruct (young_memory_only_below_threshold (SC := Scenario.one_field_scanner)
              Young 64 m h p (scenario_constructed _ _ _)) as [_ Hfirst].
  exact (Hfirst eq_refl Hage).
Defined.

Lemma handed_over_object_is_evacuation_failure_witness :
  let p := Scenario.pss 7 5 (Scenario.allocator 0 0 0) in
  let h := Scenario.heap true false in
  let m := Scenario.neutral_mark 2 in
  let result := copy_to_survivor_space (SC := Scenario.one_field_scanner) Young 64 m h p in
  In (ev_handle_evacuation_failure_par 64 m) (new_events p (snd result))
  /\ fst result = fst (handle_evacuation_failure_par (SC := Scenario.one_field_scanner)
                         64 m h p)
  /\ fst (fst result) = 64.
Proof.
  intros p h m result.
  assert (Hin : In (ev_handle_evacuation_failure_par 64 m) (new_events p (snd result)))
    by (vm_compute; auto 10).
  split; [exact Hin|].
  destruct (handed_over_object_is_evacuation_failure (SC := Scenario.one_field_scanner)
              Young 64 m h p Hin) as (Hres & _).
  split; [exact Hres|]. vm_compute. reflexivity.
Defined.


(** ** What a winning copy changes *)

Section CopyFacts.

Context {A : Type} {PA : G1PLABAllocator A} {SC : G1ParScanClosure}.

Abbreviation PSS := (G1ParScanThreadState A).

(** What [copy_forwarded] does to the rest of the heap: only the object
    at the destination changes, and the deduplication queue gets one entry
    when deduplication is enabled. *)
Lemma copy_forwarded_heap state old m sz yi age d obj h (p : PSS) :
  let h' := snd (fst (copy_forwarded state old m sz yi age d obj h p)) in
  (forall q, q <> obj -> Heap.obj h' q = Heap.obj h q)
  /\ h_dedup_queue h'
     = h_dedup_queue h
       ++ (if h_G1StringDedup_is_enabled h
           then [(InCSet.is_young state, InCSet.is_young d, _worker_id p, obj)]
           else [])
  /\ h_LogOfHRGrainBytes h' = h_LogOfHRGrainBytes h
  /\ h_PRODUCT h' = h_PRODUCT h
  /\ h_evacuation_should_fail h' = h_evacuation_should_fail h
  /\ h_G1StringDedup_is_enabled h' = h_G1StringDedup_is_enabled h
  /\ h_ParGCArrayScanChunk h' = h_ParGCArrayScanChunk h.
Proof.
  intros h'. subst h'. unfold copy_forwarded.
  match goal with
  | |- context [let '(h1, p1) := ?X in _] => destruct X as [hX pX] eqn:EX
  end.
  assert (HX : (forall q, q <> obj -> Heap.obj hX q = Heap.obj h q)
               /\ h_dedup_queue hX = h_dedup_queue h
               /\ h_LogOfHRGrainBytes hX = h_LogOfHRGrainBytes h
               /\ h_PRODUCT hX = h_PRODUCT h
               /\ h_evacuation_should_fail hX = h_evacuation_should_fail h
               /\ h_G1StringDedup_is_enabled hX = h_G1StringDedup_is_enabled h
               /\ h_ParGCArrayScanChunk hX = h_ParGCArrayScanChunk h
               /\ _worker_id pX = _worker_id p).
  { destruct (InCSet.is_young d);
      [destruct (markOopDesc.has_displaced_mark_helper m)|];
      injection EX as <- <-;
      (split; [intros q Hq;
               try change (Heap.obj (Heap.set_displaced_mark_helper ?a ?b ?hh) ?q0)
                 with (Heap.obj hh q0);
               rewrite obj_set_mark_ne, obj_copy_words_ne by congruence; reflexivity|]);
      repeat split; reflexivity. }
  destruct HX as (Hobj & Hdq & Hlog & Hprod & Hfail & Hen & Hchunk & Hw).
  clear EX. rewrite Hen.
  destruct (h_G1StringDedup_is_enabled h);
    match goal with
    | |- context [if ?c then _ else _] => destruct c
    end; simpl fst; simpl snd;
    (split; [intros q Hq;
             try rewrite obj_set_length_ne by congruence;
             try change (Heap.obj (enqueue_from_evacuation ?a ?b ?c ?e ?hh) ?q0)
               with (Heap.obj hh q0);
             apply Hobj; exact Hq|]);
    (split; [simpl; rewrite ?Hdq, ?Hw, ?app_nil_r; reflexivity|]);
    repeat split; assumption.
Qed.


(** A call that wins its claim is [copy_forwarded] on the heap with the
    marker installed and on the worker state [prepare] left. *)
Lemma won_claim_call state old m h (p : PSS) :
  reaches_claim state old m h p ->
  markOopDesc.is_marked (Heap.mark h old) = false ->
  let sz := o_size (Heap.obj h old) in
  let r := Heap.heap_region_containing_raw h old in
  let yi := r_young_index_in_cset (Heap.region h r) + 1 in
  let c := r_allocation_context (Heap.region h r) in
  let age := snd (next_state p h state m 0) in
  exists d obj p1,
    copy_to_survivor_space state old m h p
    = copy_forwarded state old m sz yi age d obj
        (Heap.set_mark old (markOopDesc.encode_pointer_as_mark obj) h) p1
    /\ fst (prepare state old m h p) = mkReq state old m sz yi c age d obj false
    /\ obj <> NULL
    /\ trace p1
       = trace (snd (prepare state old m h p)) ++ [ev_forward_to_atomic old obj NULL]
    /\ _refs p1 = _refs p
    /\ _worker_id p1 = _worker_id p
    /\ _age_table p1 = _age_table p
    /\ _surviving_young_words p1 = _surviving_young_words p
    /\ _plab_allocator p1 = _plab_allocator (snd (prepare state old m h p))
    /\ _tenuring_threshold p1 = _tenuring_threshold (snd (prepare state old m h p)).
Proof.
  intros Hreach Hm sz r yi c age.
  apply reaches_claim_self in Hreach.
  rewrite copy_to_survivor_space_steps.
  destruct (prepare_outcome state old m h p)
    as (evs & d' & t & s & a' & t' & E & _ & Hnot & _).
  rewrite E in Hreach |- *. simpl in Hreach. subst s.
  destruct (Hnot eq_refl) as (Hptr & _).
  unfold claim. simpl cl_old. simpl cl_target.
  rewrite forward_to_atomic_won by assumption.
  unfold complete. simpl cl_self. cbv iota. simpl (NULL =? NULL). cbv iota.
  simpl cl_state. simpl cl_old. simpl cl_old_mark. simpl cl_word_sz. simpl cl_young_index.
  simpl cl_age. simpl cl_dest_state. simpl cl_target.
  eexists d', t, _. split; [reflexivity|].
  split; [reflexivity|]. split; [exact Hptr|].
  repeat split; reflexivity.
Qed.


Lemma constructed_for_length n (p : PSS) :
  constructed_for n p -> length (_surviving_young_words p) = S n.
Proof.
  intros (refs & w & t & a & now & Hev).
  apply evolves_keeps in Hev. destruct Hev as (_ & _ & _ & Hl & _).
  rewrite Hl. simpl. f_equal. apply length_replicate.
Qed.

(** X5: the constructor sizes the surviving-young-words table with one
    slot per young region of the collection set plus slot 0 for regions that
    are not young, and no member function resizes it.  A copy that wins its
    claim out of a region whose young index is below that count adds the
    object's size in words (modulo 2^64) to slot [young_index + 1], which is
    within the table, and leaves every other slot alone. *)
Theorem winning_copy_counts_survivor_words n state old m h (p : PSS) :
  constructed_for n p ->
  reaches_claim state old m h p ->
  markOopDesc.is_marked (Heap.mark h old) = false ->
  let young_index :=
    r_young_index_in_cset (Heap.region h (Heap.heap_region_containing_raw h old)) in
  -1 <= young_index < Z.of_nat n ->
  let i := Z.to_nat (young_index + 1) in
  let sz := o_size (Heap.obj h old) in
  let p' := snd (copy_to_survivor_space state old m h p) in
  length (_surviving_young_words p) = S n
  /\ length (_surviving_young_words p') = S n
  /\ _surviving_young_words p' !! i
     = Some (size_t_add (_surviving_young_words p !!! i) sz)
  /\ (forall j, j <> i -> _surviving_young_words p' !! j = _surviving_young_words p !! j).
Proof.
  intros Hc Hreach Hm young_index Hrange i sz p'.
  pose proof (constructed_for_length n p Hc) as Hlen.
  destruct (won_claim_outcome state old m h p Hreach Hm)
    as (pre & d & obj & h' & p0 & E & _ & _ & _ & _ & _ & _ & _ & _ & _ & _ & Hsv & _).
  subst p'. rewrite E. simpl snd. rewrite Hsv.
  unfold add_surviving_young_words. simpl.
  fold young_index. fold i. fold sz.
  split; [exact Hlen|]. split; [rewrite length_insert; exact Hlen|].
  split.
  - apply list_lookup_insert_eq. rewrite Hlen. subst i. lia.
  - intros j Hj. apply list_lookup_insert_ne. congruence.
Qed.

(** X6: a copy that wins its claim changes no object other than the
    source, whose header becomes the forwarding marker, and the destination;
    it flags no region as evacuation-failed, preserves no header, reports
    nothing to the region printer, and keeps the memory it allocated: its
    events hold no [undo_allocation]. *)
Theorem winning_copy_heap_frame state old m h (p : PSS) :
  reaches_claim state old m h p ->
  markOopDesc.is_marked (Heap.mark h old) = false ->
  let result := copy_to_survivor_space state old m h p in
  let obj := fst (fst result) in
  let h' := snd (fst result) in
  (forall q, q <> old -> q <> obj -> Heap.obj h' q = Heap.obj h q)
  /\ (obj <> old -> Heap.mark h' old = markOopDesc.encode_pointer_as_mark obj)
  /\ h_regions h' = h_regions h
  /\ h_preserved_marks h' = h_preserved_marks h
  /\ h_hr_printer h' = h_hr_printer h
  /\ List.filter is_undo (new_events p (snd result)) = []
  /\ List.existsb is_copy (new_events p (snd result)) = true.
Proof.
  intros Hreach Hm result obj h'.
  destruct (call_events state old m h p) as (evs2 & Hev & _ & Hundo2 & Hcopy & _).
  destruct (won_claim_call state old m h p Hreach Hm)
    as (d & obj0 & p1 & E & Ereq & Hnn & _).
  assert (Hwon : fst (claim (fst (prepare state old m h p)) h) = NULL).
  { rewrite Ereq. unfold claim. simpl cl_old. simpl cl_target.
    rewrite forward_to_atomic_won by assumption. reflexivity. }
  assert (Hcp : List.existsb is_copy (new_events p (snd result)) = true).
  { subst result. rewrite Hev, List.existsb_app. simpl. rewrite Hcopy, Hwon, Ereq.
    simpl. apply orb_true_r. }
  assert (Hundo : List.filter is_undo (new_events p (snd result)) = []).
  { subst result. rewrite Hev, List.filter_app. simpl.
    rewrite Hundo2, Hwon, andb_false_r.
    rewrite prepare_undo_free by (rewrite Ereq; reflexivity). reflexivity. }
  subst obj h' result. rewrite E in *.
  match goal with
  | |- context [copy_forwarded ?s ?o ?mm ?sz ?yi ?ag ?dd ?ob ?hh ?pp] =>
    destruct (copy_forwarded_outcome s o mm sz yi ag dd ob hh pp)
      as (h' & p' & Ecf & _ & _ & _ & Hold & _ & Hreg & Hpm & Hpr & _);
    destruct (copy_forwarded_heap s o mm sz yi ag dd ob hh pp) as (Hobj & _)
  end.
  rewrite Ecf in *. simpl fst in *. simpl snd in *.
  split.
  { intros q Hq1 Hq2. rewrite (Hobj q Hq2). apply obj_set_mark_ne. congruence. }
  split.
  { intros Hne. unfold Heap.mark. rewrite (Hold Hne), obj_set_mark. reflexivity. }
  split; [exact Hreg|]. split; [exact Hpm|]. split; [exact Hpr|].
  split; [exact Hundo|exact Hcp].
Qed.


(** X7: the steps of a call that wins its claim, in program order: the
    allocation attempts, the prefetch of the destination, the claim, one
    copy of the object's words, one write of the copy's header, which is the
    header the copy ends up with, and then at most the scan.  Nothing is
    copied, no header written and nothing scanned before the claim, and the
    pointer claimed is the allocator's last answer. *)
Theorem winning_copy_steps_in_order state old m h (p : PSS) :
  reaches_claim state old m h p ->
  markOopDesc.is_marked (Heap.mark h old) = false ->
  let result := copy_to_survivor_space state old m h p in
  let obj := fst (fst result) in
  let h' := snd (fst result) in
  let sz := o_size (Heap.obj h old) in
  exists pre d c scan,
    new_events p (snd result)
    = pre ++ [ev_prefetch_write obj;
              ev_forward_to_atomic old obj NULL;
              ev_copy_words old obj sz;
              ev_set_mark obj (Heap.mark h' obj)] ++ scan
    /\ last_allocation pre = Some (d, sz, c, obj)
    /\ List.existsb won_claim pre = false
    /\ List.existsb is_copy pre = false
    /\ List.existsb is_set_mark pre = false
    /\ List.existsb is_scan pre = false
    /\ (scan = []
        \/ scan = [ev_oop_iterate_backwards (Heap.heap_region_containing_raw h' obj) obj]).
Proof.
  intros Hreach Hm result obj h' sz.
  destruct (won_claim_call state old m h p Hreach Hm)
    as (d & obj0 & p1 & E & Ereq & Hnn & Htr1 & _).
  destruct (prepare_outcome state old m h p)
    as (evs & d' & t & s & a' & t' & Ep & _ & Hnot & _ & _ & Hc & Hs & Hsm & Hw & _).
  rewrite Ep in Ereq, Htr1. simpl fst in Ereq. simpl snd in Htr1. simpl trace in Htr1.
  injection Ereq as -> -> ->.
  destruct (Hnot eq_refl) as (_ & _ & pre & -> & Hlast).
  rewrite List.existsb_app in Hc, Hs, Hsm, Hw. simpl in Hc, Hs, Hsm, Hw.
  rewrite orb_false_r in Hc, Hs, Hsm, Hw.
  subst obj h' result. rewrite E.
  match goal with
  | |- context [copy_forwarded ?s ?o ?mm ?sz0 ?yi ?ag ?dd ?ob ?hh ?pp] =>
    destruct (copy_forwarded_outcome s o mm sz0 yi ag dd ob hh pp)
      as (h' & p' & Ecf & Hmark & _ & _ & _ & _ & _ & _ & _ & _ & _ & _ & _ & _ & _ & Hch)
  end.
  rewrite Ecf. simpl fst. simpl snd. rewrite Hmark.
  exists pre, d, (r_allocation_context
                    (Heap.region h (Heap.heap_region_containing_raw h old))).
  destruct (o_is_objArray _ && (_ <=? _)); destruct Hch as (_ & _ & Htr).
  - exists []. split.
    { apply new_events_app. rewrite Htr, Htr1, <- !app_assoc. reflexivity. }
    repeat (split; [assumption|]). left. reflexivity.
  - eexists [_]. split.
    { apply new_events_app. rewrite Htr, Htr1, <- !app_assoc. reflexivity. }
    repeat (split; [assumption|]). right. reflexivity.
Qed.

End CopyFacts.

Lemma winning_copy_counts_survivor_words_witness :
  let p := Scenario.pss 0 5 (Scenario.allocator 100 100 100) in
  let h := Scenario.heap true false in
  let m := Scenario.neutral_mark 2 in
  let p' := snd (copy_to_survivor_space (SC := Scenario.one_field_scanner) Young 64 m h p) in
  constructed_for (SC := Scenario.one_field_scanner) 1 p
  /\ reaches_claim (SC := Scenario.one_field_scanner) Young 64 m h p
  /\ markOopDesc.is_marked (Heap.mark h 64) = false
  /\ -1 <= r_young_index_in_cset
             (Heap.region h (Heap.heap_region_containing_raw h 64)) < Z.of_nat 1
  /\ _surviving_young_words p' = [0; 4].
Proof.
  intros p h m p'.
  assert (Hc : constructed_for (SC := Scenario.one_field_scanner) 1 p)
    by (eexists _, _, _, _, _; apply evolves_refl).
  assert (Hr : reaches_claim (SC := Scenario.one_field_scanner) Young 64 m h p).
  { unfold reaches_claim. vm_compute. intuition discriminate. }
  assert (Hm : markOopDesc.is_marked (Heap.mark h 64) = false) by (vm_compute; reflexivity).
  assert (Hi : -1 <= r_young_index_in_cset
                       (Heap.region h (Heap.heap_region_containing_raw h 64)) < Z.of_nat 1)
    by (vm_compute; split; [discriminate|reflexivity]).
  split; [exact Hc|]. split; [exact Hr|]. split; [exact Hm|]. split; [exact Hi|].
  destruct (winning_copy_counts_survivor_words (SC := Scenario.one_field_scanner)
              1 Young 64 m h p Hc Hr Hm Hi) as (_ & Hlen & Hslot & Hothers).
  fold p' in Hlen, Hslot, Hothers.
  specialize (Hothers 0%nat ltac:(vm_compute; discriminate)).
  destruct (_surviving_young_words p') as [|a [|b [|c l]]]; try discriminate Hlen.
  vm_compute in Hslot, Hothers. congruence.
Defined.

Lemma winning_copy_heap_frame_witness :
  let p := Scenario.pss 0 5 (Scenario.allocator 100 100 100) in
  let h := Scenario.heap true false in
  let m := Scenario.neutral_mark 2 in
  let result := copy_to_survivor_space (SC := Scenario.one_field_scanner) Young 64 m h p in
  reaches_claim (SC := Scenario.one_field_scanner) Young 64 m h p
  /\ markOopDesc.is_marked (Heap.mark h 64) = false
  /\ h_regions (snd (fst result)) = h_regions h
  /\ h_preserved_marks (snd (fst result)) = []
  /\ List.filter is_undo (new_events p (snd result)) = [].
Proof.
  intros p h m result.
  assert (Hr : reaches_claim (SC := Scenario.one_field_scanner) Young 64 m h p).
  { unfold reaches_claim. vm_compute. intuition discriminate. }
  assert (Hm : markOopDesc.is_marked (Heap.mark h 64) = false) by (vm_compute; reflexivity).
  split; [exact Hr|]. split; [exact Hm|].
  destruct (winning_copy_heap_frame (SC := Scenario.one_field_scanner)
              Young 64 m h p Hr Hm) as (_ & _ & Hreg & Hpm & _ & Hundo & _).
  split; [exact Hreg|]. split; [exact Hpm|exact Hundo].
Defined.

Lemma winning_copy_steps_in_order_witness :
  let p := Scenario.pss 0 5 (Scenario.allocator 100 100 100) in
  let h := Scenario.heap true false in
  let m := Scenario.neutral_mark 2 in
  let result := copy_to_survivor_space (SC := Scenario.one_field_scanner) Young 64 m h p in
  reaches_claim (SC := Scenario.one_field_scanner) Young 64 m h p
  /\ markOopDesc.is_marked (Heap.mark h 64) = false
  /\ exists pre scan,
       new_events p (snd result)
       = pre ++ [ev_prefetch_write 2048;
                 ev_forward_to_atomic 64 2048 NULL;
                 ev_copy_words 64 2048 4;
                 ev_set_mark 2048 (Scenario.neutral_mark 3)] ++ scan.
Proof.
  intros p h m result.
  assert (Hr : reaches_claim (SC := Scenario.one_field_scanner) Young 64 m h p).
  { unfold reaches_claim. vm_compute. intuition discriminate. }
  assert (Hm : markOopDesc.is_marked (Heap.mark h 64) = false) by (vm_compute; reflexivity).
  split; [exact Hr|]. split; [exact Hm|].
  destruct (winning_copy_steps_in_order (SC := Scenario.one_field_scanner)
              Young 64 m h p Hr Hm) as (pre & d & c & scan & Hev & _).
  fold result in Hev.
  assert (Hobj : fst (fst result) = 2048) by (vm_compute; reflexivity).
  assert (Hmk : Heap.mark (snd (fst result)) 2048 = Scenario.neutral_mark 3)
    by (vm_compute; reflexivity).
  assert (Hsz : o_size (Heap.obj h 64) = 4) by (vm_compute; reflexivity).
  rewrite Hobj, Hmk, Hsz in Hev.
  exists pre, scan. exact Hev.
Defined.


(** ** Forwarding, once installed *)

Lemma ldiff_set_age m v :
  Z.ldiff (markOopDesc.set_age m v) markOopDesc.age_mask_in_place
  = Z.ldiff m markOopDesc.age_mask_in_place.
Proof.
  unfold markOopDesc.set_age. apply Z.bits_inj'. intros n Hn.
  rewrite !Z.ldiff_spec, Z.lor_spec, Z.ldiff_spec.
  destruct (Z.testbit markOopDesc.age_mask_in_place n) eqn:Hb.
  - rewrite !andb_false_r. reflexivity.
  - assert (Hv : Z.testbit (Z.shiftl (Z.land v markOopDesc.age_mask) markOopDesc.age_shift) n
                 = false).
    { unfold markOopDesc.age_mask_in_place in Hb.
      destruct (Z.ltb_spec n markOopDesc.age_shift).
      - apply Z.shiftl_spec_low. assumption.
      - rewrite Z.shiftl_spec in Hb |- * by lia.
        rewrite Z.land_spec, Hb. apply andb_false_r. }
    rewrite Hv, orb_false_r. simpl. rewrite !andb_true_r. reflexivity.
Qed.

Lemma is_marked_set_age m v :
  markOopDesc.is_marked (markOopDesc.set_age m v) = markOopDesc.is_marked m.
Proof.
  unfold markOopDesc.is_marked. f_equal.
  apply Z.bits_inj'. intros n Hn.
  rewrite !Z.land_spec, lock_mask_bits by exact Hn.
  destruct (Z.ltb_spec n 2); [|rewrite !andb_false_r; reflexivity].
  rewrite !andb_true_r.
  unfold markOopDesc.set_age.
  rewrite Z.lor_spec, Z.ldiff_spec.
  rewrite Z.shiftl_spec_low by (unfold markOopDesc.age_shift, markOopDesc.lock_bits,
                                   markOopDesc.biased_lock_bits; lia).
  unfold markOopDesc.age_mask_in_place.
  rewrite Z.shiftl_spec_low by (unfold markOopDesc.age_shift, markOopDesc.lock_bits,
                                   markOopDesc.biased_lock_bits; lia).
  simpl. rewrite andb_true_r, orb_false_r. reflexivity.
Qed.

Section ForwardingFacts.

Context {A : Type} {PA : G1PLABAllocator A} {SC : G1ParScanClosure}.

Abbreviation PSS := (G1ParScanThreadState A).

(** Either function, called on an object whose header is already a
    forwarding marker, answers the target and leaves the heap alone. *)
Lemma forwarded_call state old m h (p : PSS) :
  markOopDesc.is_marked (Heap.mark h old) = true ->
  markOopDesc.decode_pointer (Heap.mark h old) <> NULL ->
  fst (copy_to_survivor_space state old m h p)
  = (markOopDesc.decode_pointer (Heap.mark h old), h)
  /\ fst (handle_evacuation_failure_par old m h p)
     = (markOopDesc.decode_pointer (Heap.mark h old), h).
Proof.
  intros Hm Hnn. apply Z.eqb_neq in Hnn.
  split.
  - rewrite copy_to_survivor_space_steps.
    destruct (prepare_trace state old m h p) as (_ & Ho & _).
    destruct (prepare state old m h p) as [req p1]. simpl in Ho.
    unfold claim. rewrite Ho, forward_to_atomic_lost by assumption.
    unfold complete. rewrite Hnn. destruct (cl_self req); reflexivity.
  - unfold handle_evacuation_failure_par.
    rewrite forward_to_atomic_lost by assumption. rewrite Hnn. reflexivity.
Qed.

(** X8: forwarding is permanent.  After a call on an object that was
    not yet forwarded, the object's header is the forwarding marker for the
    call's answer (the copy, or the object itself when evacuation failed),
    and every later call of [copy_to_survivor_space] or
    [handle_evacuation_failure_par] on that object, by any worker and with
    any arguments, answers the same pointer and leaves the heap as it is.
    The object and the answer are word-aligned and the allocator did not
    hand out the object's own address. *)
Theorem forwarding_is_permanent state old m h (p : PSS) :
  old <> NULL ->
  Z.land old markOopDesc.lock_mask_in_place = 0 ->
  markOopDesc.is_marked (Heap.mark h old) = false ->
  let result := copy_to_survivor_space state old m h p in
  let obj := fst (fst result) in
  let h' := snd (fst result) in
  Z.land obj markOopDesc.lock_mask_in_place = 0 ->
  (reaches_claim state old m h p -> obj <> old) ->
  obj <> NULL
  /\ Heap.mark h' old = markOopDesc.encode_pointer_as_mark obj
  /\ forall state2 m2 (p2 : PSS),
       fst (copy_to_survivor_space state2 old m2 h' p2) = (obj, h')
       /\ fst (handle_evacuation_failure_par old m2 h' p2) = (obj, h').
Proof.
  intros Hold Hal Hm result obj h' Hobj Hne.
  assert (Hmark : obj <> NULL
                  /\ Heap.mark h' old = markOopDesc.encode_pointer_as_mark obj).
  { destruct (cl_self (fst (prepare state old m h p))) eqn:Hs.
    - assert (Hres : fst result = fst (handle_evacuation_failure_par old m h p)).
      { subst result.
        rewrite copy_to_survivor_space_steps.
        rewrite (handle_evacuation_failure_par_steps NotInCSet old m 0 0 0 0 NotInCSet).
        destruct (prepare_outcome state old m h p)
          as (evs & d' & t & s & a' & t' & E & Htarget & _).
        rewrite E in Hs |- *. simpl in Hs. subst s.
        destruct (Htarget eq_refl) as [-> _].
        unfold prepare_failed, claim. simpl cl_old. simpl cl_target.
        destruct (Heap.forward_to_atomic old old h) as [f h1].
        apply complete_self_result; reflexivity. }
      destruct (self_forward_heap old m h p Hm) as (Hmk & _).
      subst obj h'. rewrite Hres.
      unfold handle_evacuation_failure_par in Hmk |- *.
      rewrite forward_to_atomic_won in Hmk |- * by assumption.
      simpl (NULL =? NULL) in Hmk |- *. cbv iota in Hmk |- *.
      simpl fst in Hmk |- *. simpl snd in Hmk |- *.
      split; [exact Hold|exact Hmk].
    - apply reaches_claim_self in Hs.
      specialize (Hne Hs).
      destruct (won_claim_outcome state old m h p Hs Hm)
        as (pre & d & obj0 & h0 & p0 & E & _ & Hnn & _ & _ & _ & _ & _ & Hsrc & _).
      subst obj h' result. rewrite E in *. simpl fst in *. simpl snd in *.
      split; [exact Hnn|].
      unfold Heap.mark. rewrite (Hsrc Hne). reflexivity. }
  destruct Hmark as [Hnn Hmark].
  split; [exact Hnn|]. split; [exact Hmark|].
  intros state2 m2 p2.
  assert (Hmk : markOopDesc.is_marked (Heap.mark h' old) = true)
    by (rewrite Hmark; apply is_marked_encode).
  assert (Hdec : markOopDesc.decode_pointer (Heap.mark h' old) = obj)
    by (rewrite Hmark; apply decode_encode; exact Hobj).
  destruct (forwarded_call state2 old m2 h' p2 Hmk ltac:(rewrite Hdec; exact Hnn))
    as [H1 H2].
  rewrite Hdec in H1, H2. split; assumption.
Qed.

(** X9: the header a winning copy gets differs from the header the
    caller read at most in the age field: lock bits, hash and the rest are
    those of the source, so the copy looks forwarded only if that header
    did (the copied words include the forwarding marker, which the header
    write replaces); the same holds for every displaced header. *)
Theorem winning_copy_keeps_header_bits state old m h (p : PSS) :
  reaches_claim state old m h p ->
  markOopDesc.is_marked (Heap.mark h old) = false ->
  let result := copy_to_survivor_space state old m h p in
  let obj := fst (fst result) in
  let h' := snd (fst result) in
  Z.ldiff (Heap.mark h' obj) markOopDesc.age_mask_in_place
  = Z.ldiff m markOopDesc.age_mask_in_place
  /\ markOopDesc.has_displaced_mark_helper (Heap.mark h' obj)
     = markOopDesc.has_displaced_mark_helper m
  /\ markOopDesc.is_marked (Heap.mark h' obj) = markOopDesc.is_marked m
  /\ forall k,
       Z.ldiff (Heap.displaced_mark_helper h' k) markOopDesc.age_mask_in_place
       = Z.ldiff (Heap.displaced_mark_helper h k) markOopDesc.age_mask_in_place.
Proof.
  intros Hreach Hm result obj h'.
  destruct (won_claim_outcome state old m h p Hreach Hm)
    as (pre & d & obj0 & h0 & p0 & E & _ & _ & _ & _ & Hmark & _ & _ & _ & Hdis & _).
  subst obj h' result. rewrite E. simpl fst. simpl snd.
  rewrite Hmark. unfold installed_mark.
  split; [|split; [|split]].
  - destruct (InCSet.is_young d); [|reflexivity].
    destruct (markOopDesc.has_displaced_mark_helper m); [reflexivity|].
    apply ldiff_set_age.
  - destruct (InCSet.is_young d); [|reflexivity].
    destruct (markOopDesc.has_displaced_mark_helper m) eqn:Hd; [exact Hd|].
    rewrite has_displaced_set_age. exact Hd.
  - destruct (InCSet.is_young d); [|reflexivity].
    destruct (markOopDesc.has_displaced_mark_helper m); [reflexivity|].
    apply is_marked_set_age.
  - intros k. unfold Heap.displaced_mark_helper. rewrite Hdis.
    destruct (InCSet.is_young d && markOopDesc.has_displaced_mark_helper m);
      [|reflexivity].
    destruct (Z.eq_dec m k) as [->|Hk].
    + rewrite lookup_total_insert_eq. apply ldiff_set_age.
    + rewrite lookup_total_insert_ne by exact Hk. reflexivity.
Qed.

End ForwardingFacts.

Lemma forwarding_is_permanent_witness :
  let p := Scenario.pss 0 5 (Scenario.allocator 100 100 100) in
  let q := Scenario.pss 1 5 Scenario.second_allocator in
  let h := Scenario.heap true false in
  let m := Scenario.neutral_mark 2 in
  let result := copy_to_survivor_space (SC := Scenario.one_field_scanner) Young 64 m h p in
  let h' := snd (fst result) in
  64 <> NULL
  /\ Z.land 64 markOopDesc.lock_mask_in_place = 0
  /\ markOopDesc.is_marked (Heap.mark h 64) = false
  /\ Z.land (fst (fst result)) markOopDesc.lock_mask_in_place = 0
  /\ fst (fst result) <> 64
  /\ fst (copy_to_survivor_space (SC := Scenario.one_field_scanner) Young 64 m h' q)
     = (fst (fst result), h')
  /\ fst (handle_evacuation_failure_par (SC := Scenario.one_field_scanner) 64 m h' q)
     = (fst (fst result), h').
Proof.
  intros p q h m result h'.
  assert (Hnn : 64 <> NULL) by discriminate.
  assert (Hal : Z.land 64 markOopDesc.lock_mask_in_place = 0) by reflexivity.
  assert (Hm : markOopDesc.is_marked (Heap.mark h 64) = false) by (vm_compute; reflexivity).
  assert (Hobj : Z.land (fst (fst result)) markOopDesc.lock_mask_in_place = 0)
    by (vm_compute; reflexivity).
  assert (Hne : fst (fst result) <> 64) by (vm_compute; discriminate).
  split; [exact Hnn|]. split; [exact Hal|]. split; [exact Hm|].
  split; [exact Hobj|]. split; [exact Hne|].
  destruct (forwarding_is_permanent (SC := Scenario.one_field_scanner)
              Young 64 m h p Hnn Hal Hm Hobj (fun _ => Hne)) as (_ & _ & Hlater).
  exact (Hlater Young m q).
Defined.

Lemma winning_copy_keeps_header_bits_witness :
  let p := Scenario.pss 0 5 (Scenario.allocator 100 100 100) in
  let h := Scenario.heap true false in
  let m := Scenario.neutral_mark 2 in
  let result := copy_to_survivor_space (SC := Scenario.one_field_scanner) Young 64 m h p in
  reaches_claim (SC := Scenario.one_field_scanner) Young 64 m h p
  /\ markOopDesc.is_marked (Heap.mark h 64) = false
  /\ markOopDesc.is_marked (Heap.mark (snd (fst result)) (fst (fst result))) = false.
Proof.
  intros p h m result.
  assert (Hr : reaches_claim (SC := Scenario.one_field_scanner) Young 64 m h p).
  { unfold reaches_claim. vm_compute. intuition discriminate. }
  assert (Hm : markOopDesc.is_marked (Heap.mark h 64) = false) by (vm_compute; reflexivity).
  split; [exact Hr|]. split; [exact Hm|].
  destruct (winning_copy_keeps_header_bits (SC := Scenario.one_field_scanner)
              Young 64 m h p Hr Hm) as (_ & _ & Hmk & _).
  fold result in Hmk. rewrite Hmk. reflexivity.
Defined.


(** ** String deduplication *)

Section DedupFacts.

Context {A : Type} {PA : G1PLABAllocator A} {SC : G1ParScanClosure}.

Abbreviation PSS := (G1ParScanThreadState A).

Lemma forward_to_atomic_dedup old t h :
  h_dedup_queue (snd (Heap.forward_to_atomic old t h)) = h_dedup_queue h
  /\ h_G1StringDedup_is_enabled (snd (Heap.forward_to_atomic old t h))
     = h_G1StringDedup_is_enabled h.
Proof.
  unfold Heap.forward_to_atomic. destruct (markOopDesc.is_marked _); split; reflexivity.
Qed.

(** The deduplication queue over the last step of a call. *)
Lemma complete_dedup req f h (p : PSS) :
  h_dedup_queue (snd (fst (complete req f h p)))
  = h_dedup_queue h
    ++ (if negb (cl_self req) && (f =? NULL) && h_G1StringDedup_is_enabled h
        then [(InCSet.is_young (cl_state req), InCSet.is_young (cl_dest_state req),
               _worker_id p, cl_target req)]
        else [])
  /\ (negb (cl_self req) && (f =? NULL) = true ->
      fst (fst (complete req f h p)) = cl_target req).
Proof.
  unfold complete.
  destruct (cl_self req); destruct (f =? NULL); simpl negb; simpl andb; cbv iota.
  - split; [|discriminate]. simpl.
    destruct (negb _); simpl; rewrite app_nil_r; reflexivity.
  - split; [|discriminate]. simpl. rewrite app_nil_r. reflexivity.
  - match goal with
    | |- context [copy_forwarded ?s ?o ?mm ?sz ?yi ?ag ?dd ?ob ?hh ?pp] =>
      destruct (copy_forwarded_outcome s o mm sz yi ag dd ob hh pp)
        as (h' & p' & Ecf & _);
      destruct (copy_forwarded_heap s o mm sz yi ag dd ob hh pp) as (_ & Hdq & _)
    end.
    rewrite Ecf in Hdq |- *. simpl fst in *. simpl snd in *.
    split; [exact Hdq|reflexivity].
  - split; [|discriminate]. simpl. rewrite app_nil_r. reflexivity.
Qed.

(** X10: string deduplication is told of an object exactly when a copy
    was made and deduplication is enabled: the queue then gets the single
    entry (source state is young, destination class is young, worker id,
    address of the copy).  A lost claim, a failed evacuation, or a disabled
    deduplication leave the queue as it was. *)
Theorem deduplication_notified_of_copies_only state old m h (p : PSS) :
  let result := copy_to_survivor_space state old m h p in
  let evs := new_events p (snd result) in
  exists d sz c ptr,
    last_allocation evs = Some (d, sz, c, ptr)
    /\ h_dedup_queue (snd (fst result))
       = h_dedup_queue h
         ++ (if List.existsb is_copy evs && h_G1StringDedup_is_enabled h
             then [(InCSet.is_young state, InCSet.is_young d, _worker_id p, ptr)]
             else [])
    /\ (List.existsb is_copy evs = true -> fst (fst result) = ptr).
Proof.
  intros result evs.
  destruct (call_events state old m h p) as (evs2 & Hev & Hnone & _ & Hcopy & _).
  destruct (prepare_trace state old m h p) as (_ & _ & _ & _ & Hshape).
  destruct (prepare_outcome state old m h p)
    as (evs0 & d' & t & s & a' & t' & E & _ & _ & _ & _ & Hc1 & _).
  fold result evs in Hev.
  assert (Hevs1 : new_events p (snd (prepare state old m h p)) = evs0)
    by (apply new_events_app; rewrite E; reflexivity).
  rewrite Hevs1 in Hev, Hshape.
  assert (Hlast : last_allocation evs = last_allocation evs0).
  { rewrite Hev. apply last_allocation_app_none. constructor; [reflexivity|exact Hnone]. }
  assert (Hcp : List.existsb is_copy evs
                = negb s && (fst (claim (fst (prepare state old m h p)) h) =? NULL)).
  { rewrite Hev, List.existsb_app, Hc1. simpl. rewrite Hcopy, E. reflexivity. }
  rewrite Hlast, Hcp. clear Hlast Hcp Hev Hcopy Hnone Hevs1.
  subst result. rewrite copy_to_survivor_space_steps.
  rewrite E in Hshape |- *. simpl fst in *. simpl snd in *.
  simpl cl_self in Hshape. simpl cl_dest_state in Hshape. simpl cl_target in Hshape.
  unfold claim. simpl cl_old. simpl cl_target.
  destruct (forward_to_atomic_dedup old t h) as [Hq Hen].
  destruct (Heap.forward_to_atomic old t h) as [f h1]. simpl in Hq, Hen. simpl fst.
  match goal with
  | |- context [complete ?r f h1 ?q] =>
    destruct (complete_dedup r f h1 q) as [Hdq Hres]
  end.
  simpl cl_self in Hdq, Hres. simpl cl_state in Hdq. simpl cl_dest_state in Hdq.
  simpl cl_target in Hdq, Hres. simpl _worker_id in Hdq.
  rewrite Hq, Hen in Hdq.
  unfold after_allocation in Hshape.
  destruct Hshape as [(r & Hr & -> & -> & -> & Ht)
                     |[(r & Hr & -> & -> & -> & Ht)
                      |[(r & Hr & Hy & -> & -> & -> & Ht)
                       |(-> & -> & _)]]].
  - destruct (negb (h_PRODUCT h) && h_evacuation_should_fail h); subst t;
      eexists _, _, _, r; (split; [reflexivity|]);
      simpl negb in *; simpl andb in *; (split; [exact Hdq|]);
      [discriminate|exact Hres].
  - destruct (negb (h_PRODUCT h) && h_evacuation_should_fail h); subst t;
      eexists _, _, _, r; (split; [reflexivity|]);
      simpl negb in *; simpl andb in *; (split; [exact Hdq|]);
      [discriminate|exact Hres].
  - destruct (negb (h_PRODUCT h) && h_evacuation_should_fail h); subst t;
      eexists _, _, _, r; (split; [reflexivity|]);
      simpl negb in *; simpl andb in *; (split; [exact Hdq|]);
      [discriminate|exact Hres].
  - destruct (InCSet.is_young (fst (next_state p h state m 0)));
      eexists _, _, _, NULL; (split; [reflexivity|]);
      simpl negb in *; simpl andb in *; (split; [exact Hdq|discriminate]).
Qed.

End DedupFacts.


(** ** Draining a queue nobody refills *)

Section QuietTrim.

Context {A : Type} {RD : ReferenceDispatcher A}.

Abbreviation PSS := (G1ParScanThreadState A).

Lemma pop_of_tasks part q :
  pop_of part q
  = match part_tasks part q with
    | [] => None
    | t :: rest =>
      Some (t, match part with
               | Overflow => mkQueue (q_local q) rest (q_capacity q)
               | Local => mkQueue rest (q_overflow q) (q_capacity q)
               end)
    end.
Proof. destruct part; reflexivity. Qed.

(** One inner loop under a dispatcher that leaves the queue alone: it
    dispatches the tasks of its part, in order, and empties that part
    only. *)
Lemma drain_quiet part :
  dispatch_keeps_queue ->
  forall fuel h (p : PSS),
    (length (part_tasks part (_refs p)) < fuel)%nat ->
    exists log h' p',
      drain (pop_of part) part fuel h p = Some (log, h', p')
      /\ map pop_task log = part_tasks part (_refs p)
      /\ part_tasks part (_refs p') = []
      /\ part_tasks (other_part part) (_refs p') = part_tasks (other_part part) (_refs p)
      /\ (part_tasks part (_refs p) = [] -> h' = h /\ p' = p).
Proof.
  intros Hq. induction fuel as [|fuel IH]; intros h p Hlt; [lia|].
  simpl. rewrite pop_of_tasks.
  destruct (part_tasks part (_refs p)) as [|t rest] eqn:Hp.
  - eexists _, _, _. split; [reflexivity|]. repeat split; auto.
  - match goal with
    | |- context [dispatch_reference t h ?q] =>
      pose proof (Hq t h q) as Hrefs;
      destruct (dispatch_reference t h q) as [h1 p1]
    end.
    simpl in Hrefs.
    assert (Hrest : part_tasks part (_refs p1) = rest
                    /\ part_tasks (other_part part) (_refs p1)
                       = part_tasks (other_part part) (_refs p)).
    { rewrite Hrefs. destruct part; simpl in *; split; reflexivity. }
    destruct Hrest as [Hrest Hother].
    destruct (IH h1 p1 ltac:(rewrite Hrest; simpl in Hlt; lia))
      as (log & h' & p' & E & Hmap & Hnil & Hoth & _).
    rewrite E. eexists _, _, _. split; [reflexivity|].
    simpl. rewrite Hmap, Hrest. repeat split; auto; try congruence.
Qed.

Lemma trim_queue_round fuel h (p : PSS) :
  trim_queue (S fuel) h p
  = match drain (pop_of Overflow) Overflow fuel h p with
    | None => None
    | Some (ovf, h1, p1) =>
      match drain (pop_of Local) Local fuel h1 p1 with
      | None => None
      | Some (loc, h2, p2) =>
        if negb (Queue.is_empty (_refs p2)) then
          match trim_queue fuel h2 p2 with
          | None => None
          | Some (rounds, h3, p3) => Some ((ovf, loc) :: rounds, h3, p3)
          end
        else Some ([(ovf, loc)], h2, p2)
      end
    end.
Proof. reflexivity. Qed.

(** X11: on an empty queue [trim_queue] dispatches nothing and changes
    nothing.  With a dispatcher that leaves the queue alone it makes a
    single round in which every queued task is dispatched exactly once, the
    overflow part first, each part in the order of its pops. *)
Theorem trim_queue_dispatches_each_task_once :
  (forall fuel h (p : PSS),
     Queue.is_empty (_refs p) = true ->
     trim_queue (S (S fuel)) h p = Some ([([], [])], h, p))
  /\ (dispatch_keeps_queue ->
      forall h (p : PSS),
      exists ovf loc h' p',
        trim_queue (length (q_overflow (_refs p)) + length (q_local (_refs p)) + 2) h p
        = Some ([(ovf, loc)], h', p')
        /\ map pop_task ovf = q_overflow (_refs p)
        /\ map pop_task loc = q_local (_refs p)).
Proof.
  split.
  - intros fuel h p He. unfold Queue.is_empty in He.
    destruct (q_local (_refs p)) eqn:Hl; [|discriminate He].
    destruct (q_overflow (_refs p)) eqn:Ho; [|discriminate He].
    simpl. unfold Queue.pop_overflow, Queue.pop_local. rewrite Ho. simpl.
    rewrite Hl. unfold Queue.is_empty. rewrite Hl, Ho. reflexivity.
  - intros Hq h p.
    replace (length (q_overflow (_refs p)) + length (q_local (_refs p)) + 2)%nat
      with (S (S (length (q_overflow (_refs p)) + length (q_local (_refs p)))))%nat
      by lia.
    rewrite trim_queue_round.
    destruct (drain_quiet Overflow Hq
                (S (length (q_overflow (_refs p)) + length (q_local (_refs p)))) h p
                ltac:(simpl; lia))
      as (ovf & h1 & p1 & Eo & Hmo & Hno & Hoo & _).
    rewrite Eo.
    simpl in Hmo, Hno, Hoo.
    destruct (drain_quiet Local Hq
                (S (length (q_overflow (_refs p)) + length (q_local (_refs p)))) h1 p1
                ltac:(simpl; rewrite Hoo; lia))
      as (loc & h2 & p2 & El & Hml & Hnl & Hol & _).
    rewrite El.
    simpl in Hml, Hnl, Hol.
    assert (He : Queue.is_empty (_refs p2) = true).
    { unfold Queue.is_empty. rewrite Hnl, Hol, Hno. reflexivity. }
    rewrite He. simpl negb. cbv iota.
    exists ovf, loc, h2, p2. split; [reflexivity|].
    split; [exact Hmo|]. rewrite Hml. exact Hoo.
Qed.

End QuietTrim.

Lemma trim_queue_dispatches_each_task_once_witness :
  let rd : ReferenceDispatcher BumpAllocator :=
    {| dispatch_reference := fun _ h p => (h, p) |} in
  dispatch_keeps_queue (RD := rd)
  /\ exists ovf loc h' p',
       trim_queue (RD := rd) 3 (Scenario.heap true false) Scenario.busy_pss
       = Some ([(ovf, loc)], h', p')
       /\ map pop_task ovf = []
       /\ map pop_task loc = [WideRef 1].
Proof.
  intros rd.
  assert (Hq : dispatch_keeps_queue (RD := rd)) by (intros ref h p; reflexivity).
  split; [exact Hq|].
  destruct (trim_queue_dispatches_each_task_once (RD := rd)) as [_ Hquiet].
  exact (Hquiet Hq (Scenario.heap true false) Scenario.busy_pss).
Defined.


(** ** The printed statistics *)

Lemma words_to_KiB w :
  size_t_mul w HeapWordSize / K = (w mod 2 ^ 61) / 128.
Proof.
  unfold size_t_mul, size_t_max, HeapWordSize, K.
  change (2 ^ 64) with (2 ^ 61 * 8).
  rewrite Z.mul_mod_distr_r by lia.
  change 1024 with (128 * 8).
  apply Z.div_mul_cancel_r; lia.
Qed.

Lemma double_sub_diag x :
  is_finite x = true -> double_sub x x = S754_zero false \/ double_sub x x = S754_zero true.
Proof.
  destruct x as [s|s| |s m e]; simpl; try discriminate; intros _.
  - destruct s; simpl; auto.
  - left. unfold double_sub, SFsub.
    rewrite Z.min_id.
    destruct (shl_align m e e) as [m' e'] eqn:E. simpl fst.
    rewrite Z.sub_diag. reflexivity.
Qed.

Section WasteFacts.

Context {A : Type} {PA : G1PLABAllocator A}.

(** X12: the three waste columns are the allocator's word counts turned
    into KiB in [size_t] arithmetic: the count is multiplied by 8 modulo
    2^64, which drops its three top bits, and divided by 1024 rounding
    down.  While the counts stay below 2^61 each column is the count
    divided by 128, and because each is rounded down on its own the total
    column is the sum of the other two or one more. *)
Theorem waste_columns_in_KiB (p : G1ParScanThreadState A) now alloc_waste undo_waste :
  waste (_plab_allocator p) = (alloc_waste, undo_waste) ->
  let st := print_termination_stats p now in
  st_alloc_buffer_waste st = (alloc_waste mod 2 ^ 61) / 128
  /\ st_undo_waste st = (undo_waste mod 2 ^ 61) / 128
  /\ st_total_waste st = ((alloc_waste + undo_waste) mod 2 ^ 61) / 128
  /\ (0 <= alloc_waste -> 0 <= undo_waste -> alloc_waste + undo_waste < 2 ^ 61 ->
      st_alloc_buffer_waste st = alloc_waste / 128
      /\ st_undo_waste st = undo_waste / 128
      /\ st_total_waste st = (alloc_waste + undo_waste) / 128
      /\ st_alloc_buffer_waste st + st_undo_waste st <= st_total_waste st
         <= st_alloc_buffer_waste st + st_undo_waste st + 1).
Proof.
  intros Hw st. subst st. unfold print_termination_stats. rewrite Hw. simpl.
  rewrite !words_to_KiB.
  assert (Htot : size_t_add alloc_waste undo_waste mod 2 ^ 61
                 = (alloc_waste + undo_waste) mod 2 ^ 61).
  { unfold size_t_add, size_t_max. apply Z.mod_mod_divide.
    exists 8. reflexivity. }
  rewrite Htot.
  split; [reflexivity|]. split; [reflexivity|]. split; [reflexivity|].
  intros Ha Hu Hsum.
  rewrite !Z.mod_small by lia.
  split; [reflexivity|]. split; [reflexivity|]. split; [reflexivity|].
  pose proof (Z.div_mod alloc_waste 128 ltac:(lia)).
  pose proof (Z.div_mod undo_waste 128 ltac:(lia)).
  pose proof (Z.div_mod (alloc_waste + undo_waste) 128 ltac:(lia)).
  pose proof (Z.mod_pos_bound alloc_waste 128 ltac:(lia)).
  pose proof (Z.mod_pos_bound undo_waste 128 ltac:(lia)).
  pose proof (Z.mod_pos_bound (alloc_waste + undo_waste) 128 ltac:(lia)).
  lia.
Qed.

(** X13: the constructor starts the clock and zeroes the two times, so
    statistics printed at the very clock reading of the construction have
    an elapsed time of zero and no finite percentage: for a finite clock
    reading both percentages are 0/0, not a number. *)
Theorem stats_at_construction_are_not_numbers
    refs worker_id threshold n (a : A) now :
  let p := G1ParScanThreadState_new refs worker_id threshold n a now in
  let st := print_termination_stats p now in
  is_finite (st_s_roots_percent st) = false
  /\ is_finite (st_term_percent st) = false
  /\ (is_finite now = true ->
      is_zero (st_elapsed_ms st) = true
      /\ is_zero (st_s_roots_ms st) = true
      /\ is_zero (st_term_ms st) = true
      /\ st_s_roots_percent st = S754_nan
      /\ st_term_percent st = S754_nan).
Proof.
  intros p st. subst st p. unfold print_termination_stats.
  destruct (waste _) as [aw uw]. simpl.
  unfold elapsed_time. simpl _start.
  destruct (is_finite now) eqn:Hf.
  - destruct (double_sub_diag now Hf) as [-> | ->];
      repeat split; reflexivity.
  - destruct now as [s|s| |s m e]; try discriminate Hf;
      try destruct s; repeat split; try reflexivity; discriminate.
Qed.

End WasteFacts.

(** ** The table of termination statistics *)

Lemma length_pad_left width digits :
  length (Printing.pad_left width digits) = Nat.max width (length digits).
Proof.
  unfold Printing.pad_left. rewrite List.length_app, repeat_length. lia.
Qed.

Lemma length_join cells :
  length (Printing.join cells)
  = (list_sum (map (fun c => length c) cells) + (length cells - 1))%nat.
Proof.
  induction cells as [|c rest IH]; [reflexivity|].
  destruct rest as [|d rest].
  - simpl. lia.
  - change (Printing.join (c :: d :: rest))
      with (c ++ Printing.space :: Printing.join (d :: rest)).
    rewrite List.length_app. cbn [length]. cbn [length] in IH. rewrite IH.
    cbn [map list_sum fold_right length]. lia.
Qed.

(** Two lines with cells of the same widths, one of them without a space
    inside its cells: wherever that one has a space the other one has the
    separator too. *)
Lemma join_separators cells rules :
  Forall2 (fun c r => length c = length r /\ ~ In Printing.space r) cells rules ->
  forall i,
    nth_error (Printing.join rules) i = Some Printing.space ->
    nth_error (Printing.join cells) i = Some Printing.space.
Proof.
  induction 1 as [|c r cells rules [Hlen Hns] Hrest IH]; intros i Hi.
  - destruct i; discriminate Hi.
  - destruct Hrest as [|c2 r2 cells rules H2 Hrest].
    + simpl in Hi. exfalso. apply Hns. eapply nth_error_In. exact Hi.
    + change (Printing.join (r :: r2 :: rules))
        with (r ++ Printing.space :: Printing.join (r2 :: rules)) in Hi.
      change (Printing.join (c :: c2 :: cells))
        with (c ++ Printing.space :: Printing.join (c2 :: cells)).
      destruct (Nat.lt_ge_cases i (length r)) as [Hlt|Hge].
      * rewrite nth_error_app1 in Hi by exact Hlt.
        exfalso. apply Hns. eapply nth_error_In. exact Hi.
      * rewrite nth_error_app2 in Hi |- * by lia.
        rewrite Hlen.
        destruct (i - length r)%nat as [|j]; [reflexivity|].
        simpl in Hi |- *. apply IH. exact Hi.
Qed.

Lemma in_repeat_dash n : ~ In Printing.space (repeat Printing.dash n).
Proof. intros Hin. apply repeat_spec in Hin. discriminate Hin. Qed.

(** X14: the header and the lines below it form a table.  The last
    header line is the format of [print_termination_stats] with every
    conversion filled with dashes, and every label of the line above it
    stands under a dash.  A statistics line is never shorter than the
    header; when every number fits the width of its conversion the line is
    exactly as long and has its separating spaces where the header has
    them. *)
Theorem termination_stats_line_fits_header
    (fmt_unsigned : Z -> Printing.text) (fmt_fixed2 : spec_float -> Printing.text)
    (st : termination_stats) :
  let columns := Printing.termination_stats_columns fmt_unsigned fmt_fixed2 st in
  let line := Printing.termination_stats_line fmt_unsigned fmt_fixed2 st in
  let labels := nth 2 Printing.print_termination_stats_hdr [] in
  let rule := nth 3 Printing.print_termination_stats_hdr [] in
  rule = Printing.join (map (fun c => repeat Printing.dash (fst c)) columns)
  /\ Forall (fun ab => fst ab = Printing.space \/ snd ab = Printing.dash)
            (combine labels rule)
  /\ (length rule <= length line)%nat
  /\ (Forall (fun c => (length (snd c) <= fst c)%nat) columns ->
      length line = length rule
      /\ forall i, nth_error rule i = Some Printing.space ->
                   nth_error line i = Some Printing.space).
Proof.
  intros columns line labels rule.
  assert (Hrule : rule = Printing.join (map (fun c => repeat Printing.dash (fst c)) columns))
    by reflexivity.
  split; [exact Hrule|].
  split.
  { subst labels rule. cbv [Printing.print_termination_stats_hdr map nth].
    cbv [String.list_ascii_of_string combine].
    repeat (constructor; [first [left; reflexivity | right; reflexivity]|]).
    constructor. }
  assert (Hlr : length rule = 80%nat) by reflexivity.
  assert (Hline : length line
                  = (Nat.max 3 (length (fmt_unsigned (st_worker_id st)))
                     + Nat.max 9 (length (fmt_fixed2 (st_elapsed_ms st)))
                     + Nat.max 9 (length (fmt_fixed2 (st_s_roots_ms st)))
                     + Nat.max 6 (length (fmt_fixed2 (st_s_roots_percent st)))
                     + Nat.max 9 (length (fmt_fixed2 (st_term_ms st)))
                     + Nat.max 6 (length (fmt_fixed2 (st_term_percent st)))
                     + Nat.max 8 (length (fmt_unsigned (st_term_attempts st)))
                     + Nat.max 7 (length (fmt_unsigned (st_total_waste st)))
                     + Nat.max 7 (length (fmt_unsigned (st_alloc_buffer_waste st)))
                     + Nat.max 7 (length (fmt_unsigned (st_undo_waste st)))
                     + 9)%nat).
  { subst line. unfold Printing.termination_stats_line. rewrite length_join.
    unfold Printing.termination_stats_columns.
    cbn [map fst snd list_sum length fold_right]. rewrite !length_pad_left. lia. }
  split.
  { rewrite Hlr, Hline.
    repeat match goal with
           | |- context [Nat.max ?a ?b] =>
             pose proof (Nat.le_max_l a b); generalize dependent (Nat.max a b); intros
           end.
    lia. }
  intros Hfit.
  assert (Hf : Forall2 (fun c r => length c = length r /\ ~ In Printing.space r)
                 (map (fun c => Printing.pad_left (fst c) (snd c)) columns)
                 (map (fun c => repeat Printing.dash (fst c)) columns)).
  { clear - Hfit. induction Hfit as [|c cs Hc _ IH]; simpl; constructor; [|exact IH].
    split; [|apply in_repeat_dash].
    rewrite length_pad_left, repeat_length. apply Nat.max_l. exact Hc. }
  split.
  - rewrite Hlr, Hline.
    subst columns. unfold Printing.termination_stats_columns in Hfit.
    repeat match goal with
           | H : Forall _ (_ :: _) |- _ => apply Forall_cons_iff in H; destruct H
           end.
    cbn [fst snd] in *.
    rewrite !Nat.max_l by assumption. reflexivity.
  - intros i Hi. rewrite Hrule in Hi.
    exact (join_separators _ _ Hf i Hi).
Qed.

Lemma waste_columns_in_KiB_witness :
  let a := mkBump (mkPLAB 0 0) (mkPLAB 0 0) 0 0 16 100 100 in
  let p := Scenario.pss 0 5 a in
  let st := print_termination_stats p (S754_zero false) in
  waste (_plab_allocator p) = (100, 100)
  /\ st_alloc_buffer_waste st = 0
  /\ st_undo_waste st = 0
  /\ st_total_waste st = 1.
Proof.
  intros a p st.
  assert (Hw : waste (_plab_allocator p) = (100, 100)) by reflexivity.
  split; [exact Hw|].
  destruct (waste_columns_in_KiB p (S754_zero false) 100 100 Hw)
    as (Ha & Hu & Ht & _).
  fold st in Ha, Hu, Ht. rewrite Ha, Hu, Ht. repeat split; reflexivity.
Defined.

Lemma termination_stats_line_fits_header_witness :
  let st :=
    print_termination_stats
      (Scenario.timed_pss (S754_zero false)
         (SFdiv 53 1024 (double_of_Z 1) (double_of_Z 2)) (S754_zero false))
      (double_of_Z 1) in
  let columns := Printing.termination_stats_columns Printing.decimal Printing.fixed2 st in
  let line := Printing.termination_stats_line Printing.decimal Printing.fixed2 st in
  Forall (fun c => (length (snd c) <= fst c)%nat) columns
  /\ length line = 80%nat.
Proof.
  intros st columns line.
  assert (Hfit : Forall (fun c => (length (snd c) <= fst c)%nat) columns).
  { subst columns. vm_compute. repeat constructor. }
  split; [exact Hfit|].
  destruct (termination_stats_line_fits_header Printing.decimal Printing.fixed2 st)
    as (_ & _ & _ & Hwhen).
  destruct (Hwhen Hfit) as [Hlen _].
  fold line in Hlen. rewrite Hlen. reflexivity.
Defined.

(** ** Two evacuation failures in one region, in full *)

Section FailureRaceTheorem.

Context {A : Type} {PA : G1PLABAllocator A} {SC : G1ParScanClosure}.

Abbreviation PSS := (G1ParScanThreadState A).

(** X15: two workers whose evacuations fail on two objects of one
    region that is not yet flagged.  The test of the region's flag (line
    305), its setting (line 306) and the report to the printer (line 307)
    are separate statements; run by one worker alone, the statements are
    [handle_evacuation_failure_par].  However the statements of the two calls
    interleave, once both calls have returned each object is forwarded to
    itself, each header is preserved exactly once, the region is flagged and
    it has been reported once or twice.  Once is what happens when one call
    runs after the other; when the calls take turns statement by statement
    both read the flag before either sets it, and the region is reported
    twice. *)
Theorem region_reported_once_or_twice_under_interleaving
    old1 old2 m1 m2 h (p1 p2 : PSS) :
  old1 <> old2 ->
  markOopDesc.is_marked (Heap.mark h old1) = false ->
  markOopDesc.is_marked (Heap.mark h old2) = false ->
  Heap.heap_region_containing h old2 = Heap.heap_region_containing h old1 ->
  r_evacuation_failed (Heap.region h (Heap.heap_region_containing h old1)) = false ->
  let r := Heap.heap_region_containing h old1 in
  let s0 : failure_system := (h, (fpc_start old1 m1, p1), (fpc_start old2 m2, p2)) in
  let e1 := (_worker_id p1, old1, m1) in
  let e2 := (_worker_id p2, old2, m2) in
  failure_steps 5 h (fpc_start old1 m1, p1)
  = (snd (fst (handle_evacuation_failure_par old1 m1 h p1)),
     (fpc_done (fst (fst (handle_evacuation_failure_par old1 m1 h p1))),
      snd (handle_evacuation_failure_par old1 m1 h p1)))
  /\ (forall schedule,
     (5 <= count_occ bool_dec schedule true)%nat ->
     (5 <= count_occ bool_dec schedule false)%nat ->
     exists h' q1 q2 n,
       failure_run schedule s0 = (h', (fpc_done old1, q1), (fpc_done old2, q2))
       /\ h_hr_printer h' = h_hr_printer h ++ repeat r n
       /\ (n = 1 \/ n = 2)%nat
       /\ r_evacuation_failed (Heap.region h' r) = true
       /\ Heap.mark h' old1 = markOopDesc.encode_pointer_as_mark old1
       /\ Heap.mark h' old2 = markOopDesc.encode_pointer_as_mark old2
       /\ (h_preserved_marks h' = h_preserved_marks h ++ [e1; e2]
           \/ h_preserved_marks h' = h_preserved_marks h ++ [e2; e1]))
  /\ h_hr_printer (fst (fst (failure_run one_after_the_other s0)))
     = h_hr_printer h ++ [r]
  /\ h_hr_printer (fst (fst (failure_run taking_turns s0)))
     = h_hr_printer h ++ [r; r].
Proof.
  intros Hne Hm1 Hm2 Hr Hflag r s0 e1 e2.
  split; [apply failure_steps_alone|].
  split.
  - intros schedule Hc1 Hc2.
    exact (region_reported_once_or_twice schedule old1 old2 m1 m2 h p1 p2
             Hne Hm1 Hm2 Hr Hflag Hc1 Hc2).
  - destruct (failure_schedules_outcome old1 old2 m1 m2 h p1 p2 Hne Hm1 Hm2 Hr Hflag)
      as [Hseq Hturn].
    split.
    + exact (f_equal (fun t => snd (fst (fst t))) Hseq).
    + exact (f_equal (fun t => snd (fst (fst t))) Hturn).
Qed.

End FailureRaceTheorem.

Lemma region_reported_once_or_twice_under_interleaving_witness :
  let p1 := Scenario.pss 0 5 (Scenario.allocator 0 0 0) in
  let p2 := Scenario.pss 1 5 Scenario.second_allocator in
  let h := Scenario.heap true false in
  let s0 : failure_system (A := BumpAllocator) :=
    (h, (fpc_start 64 (Scenario.neutral_mark 2), p1),
        (fpc_start 128 (Scenario.neutral_mark 1), p2)) in
  64 <> 128
  /\ markOopDesc.is_marked (Heap.mark h 64) = false
  /\ markOopDesc.is_marked (Heap.mark h 128) = false
  /\ Heap.heap_region_containing h 128 = Heap.heap_region_containing h 64
  /\ r_evacuation_failed (Heap.region h (Heap.heap_region_containing h 64)) = false
  /\ h_hr_printer (fst (fst (failure_run (SC := Scenario.one_field_scanner)
                               one_after_the_other s0))) = [0]
  /\ h_hr_printer (fst (fst (failure_run (SC := Scenario.one_field_scanner)
                               taking_turns s0))) = [0; 0].
Proof.
  intros p1 p2 h s0.
  assert (Hne : 64 <> 128) by discriminate.
  assert (Hm1 : markOopDesc.is_marked (Heap.mark h 64) = false) by (vm_compute; reflexivity).
  assert (Hm2 : markOopDesc.is_marked (Heap.mark h 128) = false) by (vm_compute; reflexivity).
  assert (Hr : Heap.heap_region_containing h 128 = Heap.heap_region_containing h 64)
    by reflexivity.
  assert (Hf : r_evacuation_failed (Heap.region h (Heap.heap_region_containing h 64)) = false)
    by (vm_compute; reflexivity).
  split; [exact Hne|]. split; [exact Hm1|]. split; [exact Hm2|].
  split; [exact Hr|]. split; [exact Hf|].
  destruct (region_reported_once_or_twice_under_interleaving
              (SC := Scenario.one_field_scanner)
              64 128 (Scenario.neutral_mark 2) (Scenario.neutral_mark 1) h p1 p2
              Hne Hm1 Hm2 Hr Hf) as (_ & _ & Hseq & Hturn).
  split; [exact Hseq|exact Hturn].
Defined.

(** ** The answer of a call *)

Section AnswerFacts.

Context {A : Type} {PA : G1PLABAllocator A} {SC : G1ParScanClosure}.

Abbreviation PSS := (G1ParScanThreadState A).

(** X16: neither [copy_to_survivor_space] nor
    [handle_evacuation_failure_par] ever answers [NULL] for an object that
    is not [NULL], whatever the allocator and the header: the answer is the
    memory just allocated, the pointer found in the header, or the object
    itself. *)
Theorem never_answers_null state old m h (p : PSS) :
  old <> NULL ->
  fst (fst (copy_to_survivor_space state old m h p)) <> NULL
  /\ fst (fst (handle_evacuation_failure_par old m h p)) <> NULL.
Proof.
  intros Hold. split.
  - rewrite copy_to_survivor_space_steps.
    destruct (prepare_outcome state old m h p)
      as (evs & d' & t & s & a' & t' & E & Hself & Hnot & _).
    rewrite E. unfold claim. simpl cl_old. simpl cl_target.
    destruct (Heap.forward_to_atomic old t h) as [f h1].
    unfold complete. simpl cl_self. simpl cl_old.
    destruct s; destruct (f =? NULL) eqn:Hf.
    + exact Hold.
    + apply Z.eqb_neq in Hf. exact Hf.
    + match goal with
      | |- context [copy_forwarded ?s0 ?o ?mm ?sz ?yi ?ag ?dd ?ob ?hh ?pp] =>
        destruct (copy_forwarded_outcome s0 o mm sz yi ag dd ob hh pp)
          as (h' & p' & Ecf & _)
      end.
      rewrite Ecf. simpl. apply (Hnot eq_refl).
    + apply Z.eqb_neq in Hf. exact Hf.
  - unfold handle_evacuation_failure_par.
    destruct (Heap.forward_to_atomic old old h) as [f h1].
    destruct (f =? NULL) eqn:Hf.
    + exact Hold.
    + apply Z.eqb_neq in Hf. exact Hf.
Qed.

End AnswerFacts.

Lemma never_answers_null_witness :
  let p := Scenario.pss 0 5 (Scenario.allocator 100 100 100) in
  let h := Scenario.heap true false in
  let m := Scenario.neutral_mark 2 in
  64 <> NULL
  /\ fst (fst (copy_to_survivor_space (SC := Scenario.one_field_scanner) Young 64 m h p))
     <> NULL
  /\ fst (fst (handle_evacuation_failure_par (SC := Scenario.one_field_scanner) 64 m h p))
     <> NULL.
Proof.
  intros p h m.
  assert (Hnn : 64 <> NULL) by discriminate.
  split; [exact Hnn|].
  exact (never_answers_null (SC := Scenario.one_field_scanner) Young 64 m h p Hnn).
Defined.
